(** * sortPR: the contributor sorter of a pull-request listing

    A shallow embedding of [content.js] (class [PRSorter]) and the
    properties of its cache, its two fetch strategies, its classifier and
    its reordering of the listing; then of the part of [popup.js] that sends
    the sort request and keeps the token.

    Conventions of the embedding:
    - JavaScript numbers that the script handles are integers (pull-request
      numbers, millisecond timestamps, list positions): they are [Z].
    - A JavaScript [Map] is an insertion-ordered association list with
      unique keys ([JsMap]).
    - [Date.now()], the network and the page are explicit: the clock and the
      request log live in the state, the answers of the network come from an
      oracle ([Net]).
    - An [async] method is a function from a state to an outcome (a value or a
      thrown [Error] message) and a new state.
    - [Array.prototype.sort] is whatever the host engine provides; a
      [SortEngine] packages a sort function with the guarantees ECMA-262
      gives for it.  Three engines are given: insertion sort, merge sort, and
      binary insertion after a first run.  The theorems hold for every
      engine. *)

From Stdlib Require Import String Ascii.
From Stdlib Require Import List ZArith Lia Bool.
From Stdlib Require Import Permutation Sorted FinFun.
From Stdlib Require Import Decimal DecimalString DecimalN.
Import ListNotations.

Local Open Scope string_scope.
Local Open Scope list_scope.
Local Open Scope Z_scope.

(* ================================================================== *)
(** ** Strings and numbers of the host language *)
(* ================================================================== *)

(** [String.prototype.includes]. *)
Fixpoint includes (s sub : string) : bool :=
  String.prefix sub s
  || match s with
     | EmptyString => false
     | String _ rest => includes rest sub
     end.

(** A decimal digit character, as the constructor of [Decimal.uint] it
    stands for. *)
Definition digit_of (c : ascii) : option (uint -> uint) :=
  match c with
  | "0"%char => Some D0
  | "1"%char => Some D1
  | "2"%char => Some D2
  | "3"%char => Some D3
  | "4"%char => Some D4
  | "5"%char => Some D5
  | "6"%char => Some D6
  | "7"%char => Some D7
  | "8"%char => Some D8
  | "9"%char => Some D9
  | _ => None
  end.

Definition is_digit (c : ascii) : bool :=
  match digit_of c with Some _ => true | None => false end.

(** The longest prefix of decimal digits of a string, read as a numeral. *)
Fixpoint digit_run (s : string) : uint :=
  match s with
  | EmptyString => Nil
  | String c rest =>
      match digit_of c with
      | Some d => d (digit_run rest)
      | None => Nil
      end
  end.

(** The same prefix, as a string (what a [\d+] group captures). *)
Fixpoint take_digits (s : string) : string :=
  match s with
  | EmptyString => EmptyString
  | String c rest => if is_digit c then String c (take_digits rest) else EmptyString
  end.

Definition is_space (c : ascii) : bool :=
  match c with
  | " "%char | "009"%char | "010"%char | "011"%char | "012"%char | "013"%char => true
  | _ => false
  end.

Fixpoint skip_spaces (s : string) : string :=
  match s with
  | String c rest => if is_space c then skip_spaces rest else s
  | EmptyString => s
  end.

(** A hexadecimal digit and the value it stands for. *)
Definition hex_of (c : ascii) : option Z :=
  match c with
  | "a"%char | "A"%char => Some 10
  | "b"%char | "B"%char => Some 11
  | "c"%char | "C"%char => Some 12
  | "d"%char | "D"%char => Some 13
  | "e"%char | "E"%char => Some 14
  | "f"%char | "F"%char => Some 15
  | _ => match digit_of c with
         | Some d => Some (Z.of_N (N.of_uint (d Nil)))
         | None => None
         end
  end.

Fixpoint hex_run (acc : option Z) (s : string) : option Z :=
  match s with
  | EmptyString => acc
  | String c rest =>
      match hex_of c with
      | Some v => hex_run (Some (16 * match acc with Some a => a | None => 0 end + v)) rest
      | None => acc
      end
  end.

(** The magnitude that [parseInt] reads after the sign: hexadecimal after a
    [0x] prefix, decimal otherwise; [None] is [NaN]. *)
Definition parse_magnitude (s : string) : option Z :=
  match s with
  | String "0"%char (String "x"%char rest)
  | String "0"%char (String "X"%char rest) => hex_run None rest
  | _ => match digit_run s with
         | Nil => None
         | d => Some (Z.of_N (N.of_uint d))
         end
  end.

(** [parseInt(s)] with no radix argument; [None] is [NaN].  Leading white
    space is the ASCII part of the language's white space. *)
Definition parseInt (s : string) : option Z :=
  match skip_spaces s with
  | String "-"%char rest => option_map Z.opp (parse_magnitude rest)
  | String "+"%char rest => parse_magnitude rest
  | t => parse_magnitude t
  end.

(** [Number.prototype.toString] on an integer. *)
Definition toString (z : Z) : string :=
  if z <? 0
  then String "-"%char (NilEmpty.string_of_uint (N.to_uint (Z.to_N (- z))))
  else NilEmpty.string_of_uint (N.to_uint (Z.to_N z)).

(** The result of a comparator as the sort reads it: [NaN] counts as [+0]. *)
Definition nan_to_zero (v : option Z) : Z :=
  match v with Some z => z | None => 0 end.

(** Subtraction of two numbers either of which may be [NaN]. *)
Definition js_sub (a b : option Z) : option Z :=
  match a, b with
  | Some x, Some y => Some (x - y)
  | _, _ => None
  end.

(** The values an [author_association] field can hold once parsed from
    JSON. *)
Inductive JsValue : Type :=
| JUndefined
| JNull
| JBool (b : bool)
| JNum (z : Z)
| JStr (s : string).

(** [SameValueZero] against a string constant, as [Array.prototype.includes]
    applies it. *)
Definition same_as_string (v : JsValue) (s : string) : bool :=
  match v with
  | JStr t => String.eqb t s
  | _ => false
  end.

Lemma digit_run_string_of_uint (d : uint) :
  digit_run (NilEmpty.string_of_uint d) = d.
Proof.
  induction d; simpl; auto; now rewrite IHd.
Qed.

Lemma to_uint_not_Nil (n : N) : N.to_uint n <> Nil.
Proof.
  intros H.
  pose proof (DecimalN.Unsigned.of_to n) as E.
  rewrite H in E. simpl in E. subst n. discriminate H.
Qed.

Lemma parse_magnitude_digits (d : uint) :
  d <> Nil ->
  parse_magnitude (NilEmpty.string_of_uint d) = Some (Z.of_N (N.of_uint d)).
Proof.
  intros Hd.
  assert (Hrun : digit_run (NilEmpty.string_of_uint d) = d)
    by apply digit_run_string_of_uint.
  destruct d as [|d|d|d|d|d|d|d|d|d|d]; try congruence;
    try (unfold parse_magnitude; cbn [NilEmpty.string_of_uint];
         cbn [NilEmpty.string_of_uint] in Hrun; rewrite Hrun; reflexivity).
  (* leading zero: the next character is a digit or the end, never x *)
  destruct d as [|d|d|d|d|d|d|d|d|d|d];
    unfold parse_magnitude; cbn [NilEmpty.string_of_uint];
    cbn [NilEmpty.string_of_uint] in Hrun; try (rewrite Hrun; reflexivity).
Qed.

Lemma skip_spaces_digits (d : uint) :
  skip_spaces (NilEmpty.string_of_uint d) = NilEmpty.string_of_uint d.
Proof.
  destruct d; reflexivity.
Qed.

Lemma parseInt_digits (d : uint) :
  d <> Nil ->
  parseInt (NilEmpty.string_of_uint d) = Some (Z.of_N (N.of_uint d)).
Proof.
  intros Hd. unfold parseInt. rewrite skip_spaces_digits.
  rewrite <- (parse_magnitude_digits d Hd).
  destruct d; try reflexivity; congruence.
Qed.

(** Reading back a printed non-negative integer gives the integer. *)
Lemma parseInt_toString (z : Z) :
  0 <= z -> parseInt (toString z) = Some z.
Proof.
  intros Hz. unfold toString.
  destruct (Z.ltb_spec z 0) as [Hneg|_]; [lia|].
  rewrite parseInt_digits by apply to_uint_not_Nil.
  rewrite DecimalN.Unsigned.of_to. now rewrite Z2N.id.
Qed.

(* ================================================================== *)
(** ** The [Map] of the host language *)
(* ================================================================== *)

(** A [Map] keyed by numbers: entries in insertion order, one entry per
    key.  [set] on a key already present replaces the value in place,
    [of_entries] is [new Map(entries)]. *)
Module JsMap.
Section WithValue.
Context {V : Type}.

Definition t : Type := list (Z * V).

Definition empty : t := [].

Fixpoint get (k : Z) (m : t) : option V :=
  match m with
  | [] => None
  | (k', v) :: rest => if k' =? k then Some v else get k rest
  end.

Definition has (k : Z) (m : t) : bool :=
  match get k m with Some _ => true | None => false end.

Fixpoint set (k : Z) (v : V) (m : t) : t :=
  match m with
  | [] => [(k, v)]
  | (k', v') :: rest =>
      if k' =? k then (k, v) :: rest else (k', v') :: set k v rest
  end.

Definition delete (k : Z) (m : t) : t :=
  filter (fun e => negb (fst e =? k)) m.

Definition size (m : t) : nat := length m.

Definition keys (m : t) : list Z := map fst m.

Definition of_entries (es : list (Z * V)) : t :=
  fold_left (fun m e => set (fst e) (snd e) m) es empty.

(** The representation invariant: no key twice. *)
Definition wf (m : t) : Prop := NoDup (keys m).

Lemma get_set_same k v m : get k (set k v m) = Some v.
Proof.
  induction m as [|[k' v'] m IH]; simpl.
  - now rewrite Z.eqb_refl.
  - destruct (Z.eqb_spec k' k) as [->|Hne]; simpl.
    + now rewrite Z.eqb_refl.
    + destruct (Z.eqb_spec k' k); [contradiction|exact IH].
Qed.

Lemma get_set_other k k' v m : k' <> k -> get k' (set k v m) = get k' m.
Proof.
  intros Hne. induction m as [|[k0 v0] m IH]; simpl.
  - destruct (Z.eqb_spec k k'); [congruence|reflexivity].
  - destruct (Z.eqb_spec k0 k) as [->|Hk]; simpl.
    + destruct (Z.eqb_spec k k'); [congruence|reflexivity].
    + destruct (Z.eqb_spec k0 k'); [reflexivity|exact IH].
Qed.

Lemma get_delete_same k m : get k (delete k m) = None.
Proof.
  induction m as [|[k' v'] m IH]; simpl; [reflexivity|].
  destruct (Z.eqb_spec k' k) as [->|Hne]; simpl; [exact IH|].
  destruct (Z.eqb_spec k' k); [contradiction|exact IH].
Qed.

Lemma get_delete_other k k' m : k' <> k -> get k' (delete k m) = get k' m.
Proof.
  intros Hne. induction m as [|[k0 v0] m IH]; simpl; [reflexivity|].
  destruct (Z.eqb_spec k0 k) as [->|Hk]; simpl.
  - destruct (Z.eqb_spec k k'); [congruence|exact IH].
  - destruct (Z.eqb_spec k0 k'); [reflexivity|exact IH].
Qed.

Lemma get_None_keys k m : get k m = None <-> ~ In k (keys m).
Proof.
  induction m as [|[k' v'] m IH]; simpl.
  - tauto.
  - destruct (Z.eqb_spec k' k) as [->|Hne].
    + split; [discriminate|]. intros H. exfalso. apply H. now left.
    + rewrite IH. split; intros H; [intros [E|E]; [congruence|auto]|tauto].
Qed.

Lemma get_In k v m : get k m = Some v -> In (k, v) m.
Proof.
  induction m as [|[k' v'] m IH]; simpl; [discriminate|].
  destruct (Z.eqb_spec k' k) as [->|Hne].
  - intros [= ->]. now left.
  - intros H. right. auto.
Qed.

Lemma In_get k v m : wf m -> In (k, v) m -> get k m = Some v.
Proof.
  unfold wf, keys. induction m as [|[k' v'] m IH]; simpl; [tauto|].
  intros Hnd [E|Hin]; inversion Hnd as [|? ? Hnotin Hnd']; subst.
  - inversion E; subst. now rewrite Z.eqb_refl.
  - destruct (Z.eqb_spec k' k) as [->|Hne].
    + exfalso. apply Hnotin. apply in_map_iff. now exists (k, v).
    + auto.
Qed.

Lemma set_absent k v m : get k m = None -> set k v m = m ++ [(k, v)].
Proof.
  induction m as [|[k' v'] m IH]; simpl; [reflexivity|].
  destruct (Z.eqb_spec k' k); [discriminate|].
  intros H. now rewrite IH.
Qed.

Lemma keys_set_present k v m :
  get k m <> None -> keys (set k v m) = keys m.
Proof.
  unfold keys. induction m as [|[k' v'] m IH]; simpl; [congruence|].
  destruct (Z.eqb_spec k' k) as [->|Hne]; simpl; [reflexivity|].
  intros H. now rewrite IH.
Qed.

Lemma size_set_present k v m :
  get k m <> None -> size (set k v m) = size m.
Proof.
  intros H. unfold size.
  rewrite <- (length_map fst (set k v m)), <- (length_map fst m).
  fold (keys (set k v m)). fold (keys m).
  now rewrite (keys_set_present k v m H).
Qed.

Lemma size_set_absent k v m :
  get k m = None -> size (set k v m) = S (size m).
Proof.
  intros H. rewrite set_absent by exact H.
  unfold size. rewrite length_app. simpl. lia.
Qed.

Lemma size_set_le k v m : (size (set k v m) <= S (size m))%nat.
Proof.
  destruct (get k m) eqn:E.
  - rewrite size_set_present by congruence. lia.
  - rewrite size_set_absent by exact E. lia.
Qed.

Lemma wf_set k v m : wf m -> wf (set k v m).
Proof.
  intros Hwf. destruct (get k m) eqn:E.
  - unfold wf. rewrite keys_set_present by congruence. exact Hwf.
  - rewrite set_absent by exact E. unfold wf, keys in *.
    rewrite map_app. simpl.
    apply NoDup_app; [exact Hwf|repeat constructor; simpl; tauto|].
    intros x Hx [<-|[]]. now apply get_None_keys in E.
Qed.

Lemma wf_delete k m : wf m -> wf (delete k m).
Proof.
  unfold wf, keys, delete. induction m as [|[k' v'] m IH]; simpl; [auto|].
  intros Hnd. inversion Hnd as [|? ? Hnotin Hnd']; subst.
  destruct (k' =? k); simpl; [auto|].
  constructor; [|auto].
  intros Hin. apply Hnotin. apply in_map_iff in Hin as [e [He Hin]].
  apply filter_In in Hin as [Hin _]. apply in_map_iff. now exists e.
Qed.

Lemma size_delete_le k m : (size (delete k m) <= size m)%nat.
Proof. apply filter_length_le. Qed.

Lemma fold_set_fresh (es acc : list (Z * V)) :
  NoDup (map fst (acc ++ es)) ->
  fold_left (fun m e => set (fst e) (snd e) m) es acc = acc ++ es.
Proof.
  revert acc. induction es as [|[k v] es IH]; intros acc Hnd; simpl.
  - now rewrite app_nil_r.
  - assert (Hfresh : get k acc = None).
    { apply get_None_keys. intros Hin.
      rewrite map_app in Hnd. simpl in Hnd.
      apply NoDup_remove_2 in Hnd. apply Hnd. apply in_or_app. now left. }
    rewrite set_absent by exact Hfresh.
    rewrite IH; rewrite <- app_assoc; simpl; [reflexivity|exact Hnd].
Qed.

(** Building a map from entries with distinct keys keeps them all, in
    order. *)
Lemma of_entries_distinct es : NoDup (map fst es) -> of_entries es = es.
Proof.
  intros Hnd. unfold of_entries, empty. now rewrite fold_set_fresh.
Qed.

End WithValue.
Arguments t : clear implicits.
End JsMap.

(* ================================================================== *)
(** ** [Array.prototype.sort] *)
(* ================================================================== *)

(** ECMA-262 fixes the result of [sort] only for a consistent comparator:
    one that splits the elements into classes of mutually equal elements and
    orders the classes totally.  That is the same as the comparator having
    the sign of the difference of a rank ([ranked_by]).  For such a
    comparator the result is ascending and stable; for any other the result
    is some permutation, chosen by the engine. *)
Section Ranking.
Context {A : Type}.

Definition ranked_by (cmp : A -> A -> Z) (key : A -> Z) (l : list A) : Prop :=
  forall a b, In a l -> In b l -> (cmp a b ?= 0) = (key a ?= key b).

Definition agree_on (cmp cmp' : A -> A -> Z) (l : list A) : Prop :=
  forall a b, In a l -> In b l -> (cmp a b ?= 0) = (cmp' a b ?= 0).

Definition by_key (key : A -> Z) : A -> A -> Z := fun a b => key a - key b.

Definition ascending (key : A -> Z) : list A -> Prop :=
  StronglySorted (fun a b => key a <= key b).

(** The elements of one rank, in their order of appearance. *)
Definition with_key (key : A -> Z) (k : Z) (l : list A) : list A :=
  filter (fun a => key a =? k) l.

Lemma ranked_agree cmp key l :
  ranked_by cmp key l -> agree_on cmp (by_key key) l.
Proof.
  intros H a b Ha Hb. unfold by_key.
  rewrite <- Z.compare_sub. exact (H a b Ha Hb).
Qed.

Lemma agree_on_incl cmp cmp' l l' :
  incl l' l -> agree_on cmp cmp' l -> agree_on cmp cmp' l'.
Proof. intros Hi H a b Ha Hb. apply H; apply Hi; assumption. Qed.

Lemma with_key_app key k l1 l2 :
  with_key key k (l1 ++ l2) = with_key key k l1 ++ with_key key k l2.
Proof. apply filter_app. Qed.

Lemma with_key_above key k l :
  Forall (fun a => k < key a) l -> with_key key k l = [].
Proof.
  induction 1 as [|a l Ha _ IH]; simpl; [reflexivity|].
  destruct (Z.eqb_spec (key a) k); [lia|exact IH].
Qed.

Lemma ascending_tail_above key a l k :
  ascending key (a :: l) -> k < key a ->
  Forall (fun x => k < key x) (a :: l).
Proof.
  intros Hs Hk. apply StronglySorted_inv in Hs as [_ Hall].
  constructor; [exact Hk|].
  eapply Forall_impl; [|exact Hall]. simpl. intros x Hx. lia.
Qed.

(** An ascending list is determined by its classes. *)
Lemma ascending_classes_unique key (l1 l2 : list A) :
  ascending key l1 -> ascending key l2 ->
  (forall k, with_key key k l1 = with_key key k l2) ->
  l1 = l2.
Proof.
  revert l2. induction l1 as [|a l1 IH]; intros l2 H1 H2 Hc.
  - destruct l2 as [|b l2]; [reflexivity|].
    specialize (Hc (key b)). simpl in Hc.
    rewrite Z.eqb_refl in Hc. discriminate Hc.
  - destruct l2 as [|b l2].
    + specialize (Hc (key a)). simpl in Hc.
      rewrite Z.eqb_refl in Hc. discriminate Hc.
    + assert (Hkey : key a = key b).
      { destruct (Z.lt_total (key a) (key b)) as [Hlt|[E|Hgt]]; [|exact E|].
        - pose proof (Hc (key a)) as Hk.
          rewrite (with_key_above key (key a) (b :: l2)) in Hk
            by (apply ascending_tail_above; assumption).
          simpl in Hk. rewrite Z.eqb_refl in Hk. discriminate Hk.
        - pose proof (Hc (key b)) as Hk.
          rewrite (with_key_above key (key b) (a :: l1)) in Hk
            by (apply ascending_tail_above; [assumption|lia]).
          simpl in Hk. rewrite Z.eqb_refl in Hk. discriminate Hk. }
      assert (Hab : a = b).
      { specialize (Hc (key a)). simpl in Hc.
        rewrite <- Hkey, Z.eqb_refl in Hc. congruence. }
      subst b. f_equal.
      apply IH.
      * now apply StronglySorted_inv in H1.
      * now apply StronglySorted_inv in H2.
      * intros k. specialize (Hc k). simpl in Hc.
        destruct (key a =? k); congruence.
Qed.

End Ranking.

Lemma Permutation_filter_same {A} (f : A -> bool) (l l' : list A) :
  Permutation l l' -> Permutation (filter f l) (filter f l').
Proof.
  induction 1 as [|x l l' _ IH|x y l|l l' l'' _ IH1 _ IH2]; simpl.
  - constructor.
  - destruct (f x); [now constructor|exact IH].
  - destruct (f x), (f y); try reflexivity. apply perm_swap.
  - now transitivity (filter f l').
Qed.

Lemma with_key_absent {A} (key : A -> Z) k (l : list A) :
  ~ In k (map key l) -> with_key key k l = [].
Proof.
  induction l as [|a l IH]; simpl; intros H; [reflexivity|].
  destruct (Z.eqb_spec (key a) k) as [Ek|Ek]; [tauto|]. apply IH. tauto.
Qed.

Lemma with_key_distinct {A} (key : A -> Z) k (l : list A) :
  NoDup (map key l) -> (length (with_key key k l) <= 1)%nat.
Proof.
  induction l as [|a l IH]; simpl; intros Hnd; [lia|].
  inversion Hnd as [|? ? Hnotin Hnd']; subst.
  destruct (Z.eqb_spec (key a) k) as [Ek|Ek]; [|auto].
  subst k. rewrite with_key_absent by exact Hnotin. simpl. lia.
Qed.

Lemma Permutation_short {A} (l l' : list A) :
  Permutation l l' -> (length l' <= 1)%nat -> l = l'.
Proof.
  intros Hp Hlen. destruct l' as [|a [|b l']]; simpl in Hlen; try lia.
  - apply Permutation_sym, Permutation_nil in Hp. exact Hp.
  - apply Permutation_sym, Permutation_length_1_inv in Hp. exact Hp.
Qed.

(** What the script may rely on, whichever engine runs it. *)
Record SortEngine : Type := {
  js_sort : forall A : Type, (A -> A -> Z) -> list A -> list A;
  js_sort_permutation :
    forall A (cmp : A -> A -> Z) l, Permutation (js_sort A cmp l) l;
  js_sort_ascending :
    forall A (cmp : A -> A -> Z) key l,
      ranked_by cmp key l -> ascending key (js_sort A cmp l);
  js_sort_stable :
    forall A (cmp : A -> A -> Z) key l,
      ranked_by cmp key l ->
      forall k, with_key key k (js_sort A cmp l) = with_key key k l
}.
Arguments js_sort E {A} cmp l : rename.

(** *** A first engine: insertion sort

    Each element, from the last to the first, is put in front of the first
    element of the sorted tail that it does not exceed. *)
Section Insertion.
Context {A : Type}.

Fixpoint insert (cmp : A -> A -> Z) (x : A) (s : list A) : list A :=
  match s with
  | [] => [x]
  | y :: s' => if cmp x y <=? 0 then x :: s else y :: insert cmp x s'
  end.

Fixpoint insertion_sort (cmp : A -> A -> Z) (l : list A) : list A :=
  match l with
  | [] => []
  | x :: l' => insert cmp x (insertion_sort cmp l')
  end.

Lemma insert_permutation cmp x s : Permutation (insert cmp x s) (x :: s).
Proof.
  induction s as [|y s IH]; simpl; [reflexivity|].
  destruct (cmp x y <=? 0); [reflexivity|].
  rewrite IH. apply perm_swap.
Qed.

Lemma insertion_sort_permutation cmp l :
  Permutation (insertion_sort cmp l) l.
Proof.
  induction l as [|x l IH]; simpl; [reflexivity|].
  rewrite insert_permutation. now constructor.
Qed.

Lemma insert_agree cmp cmp' x s :
  (forall y, In y s -> (cmp x y ?= 0) = (cmp' x y ?= 0)) ->
  insert cmp x s = insert cmp' x s.
Proof.
  induction s as [|y s IH]; intros H; simpl; [reflexivity|].
  unfold Z.leb. rewrite (H y) by now left.
  rewrite IH; [reflexivity|]. intros z Hz. apply H. now right.
Qed.

Lemma insertion_sort_agree cmp cmp' l :
  agree_on cmp cmp' l -> insertion_sort cmp l = insertion_sort cmp' l.
Proof.
  induction l as [|x l IH]; intros H; simpl; [reflexivity|].
  rewrite IH by (eapply agree_on_incl; [apply incl_tl, incl_refl|exact H]).
  apply insert_agree. intros y Hy. apply H; [now left|right].
  eapply Permutation_in; [apply insertion_sort_permutation|exact Hy].
Qed.

Lemma insert_ascending key x s :
  ascending key s -> ascending key (insert (by_key key) x s).
Proof.
  induction 1 as [|y s Hs IH Hall]; simpl.
  - repeat constructor.
  - unfold by_key at 1. destruct (Z.leb_spec (key x - key y) 0) as [Hle|Hgt].
    + constructor; [now constructor|].
      constructor; [lia|].
      eapply Forall_impl; [|exact Hall]. simpl. intros z Hz. lia.
    + constructor; [exact IH|].
      eapply Permutation_Forall;
        [symmetry; apply insert_permutation|].
      constructor; [lia|exact Hall].
Qed.

Lemma insertion_sort_ascending key l :
  ascending key (insertion_sort (by_key key) l).
Proof.
  induction l as [|x l IH]; simpl; [constructor|].
  now apply insert_ascending.
Qed.

Lemma insert_with_key key k x s :
  with_key key k (insert (by_key key) x s) = with_key key k (x :: s).
Proof.
  induction s as [|y s IH]; simpl; [reflexivity|].
  unfold by_key at 1. destruct (Z.leb_spec (key x - key y) 0) as [Hle|Hgt].
  - reflexivity.
  - simpl. rewrite IH. simpl.
    destruct (Z.eqb_spec (key x) k) as [Hx|Hx];
      destruct (Z.eqb_spec (key y) k) as [Hy|Hy]; try reflexivity; lia.
Qed.

Lemma insertion_sort_with_key key k l :
  with_key key k (insertion_sort (by_key key) l) = with_key key k l.
Proof.
  induction l as [|x l IH]; simpl; [reflexivity|].
  rewrite insert_with_key. simpl. now rewrite IH.
Qed.

End Insertion.

Definition insertion_engine : SortEngine.
Proof.
  refine {| js_sort := fun A => @insertion_sort A |}.
  - intros A cmp l. apply insertion_sort_permutation.
  - intros A cmp key l H.
    rewrite (insertion_sort_agree cmp (by_key key) l (ranked_agree _ _ _ H)).
    apply insertion_sort_ascending.
  - intros A cmp key l H k.
    rewrite (insertion_sort_agree cmp (by_key key) l (ranked_agree _ _ _ H)).
    apply insertion_sort_with_key.
Defined.

(** *** A second engine: merge sort

    The list is cut in the middle, both halves are sorted and merged; the
    merge takes from the right half only an element strictly below the head
    of the left half.  [merge_sort_fuel] recurses on a bound of the depth;
    the length of the list is always enough. *)
Section Merging.
Context {A : Type}.

Fixpoint merge (cmp : A -> A -> Z) (l1 : list A) : list A -> list A :=
  match l1 with
  | [] => fun l2 => l2
  | a :: l1' =>
      fix merge_right (l2 : list A) : list A :=
        match l2 with
        | [] => a :: l1'
        | b :: l2' =>
            if cmp b a <? 0
            then b :: merge_right l2'
            else a :: merge cmp l1' (b :: l2')
        end
  end.

Fixpoint merge_sort_fuel (cmp : A -> A -> Z) (fuel : nat) (l : list A) : list A :=
  match fuel with
  | O => l
  | S fuel' =>
      match l with
      | [] | [_] => l
      | _ =>
          let half := Nat.div2 (length l) in
          merge cmp (merge_sort_fuel cmp fuel' (firstn half l))
                    (merge_sort_fuel cmp fuel' (skipn half l))
      end
  end.

Definition merge_sort (cmp : A -> A -> Z) (l : list A) : list A :=
  merge_sort_fuel cmp (length l) l.

Lemma merge_nil_r cmp l : merge cmp l [] = l.
Proof. destruct l; reflexivity. Qed.

Lemma merge_cons cmp a l1 b l2 :
  merge cmp (a :: l1) (b :: l2) =
  if cmp b a <? 0 then b :: merge cmp (a :: l1) l2
  else a :: merge cmp l1 (b :: l2).
Proof. reflexivity. Qed.

Lemma merge_permutation cmp l1 l2 :
  Permutation (merge cmp l1 l2) (l1 ++ l2).
Proof.
  revert l2. induction l1 as [|a l1 IH1]; intros l2; [reflexivity|].
  induction l2 as [|b l2 IH2].
  - rewrite merge_nil_r, app_nil_r. reflexivity.
  - rewrite merge_cons. destruct (cmp b a <? 0).
    + rewrite IH2. simpl. apply (Permutation_middle (a :: l1) l2 b).
    + rewrite IH1. reflexivity.
Qed.

Lemma halves_permutation (l : list A) n :
  Permutation (firstn n l ++ skipn n l) l.
Proof. now rewrite firstn_skipn. Qed.

Lemma merge_sort_fuel_permutation cmp fuel l :
  Permutation (merge_sort_fuel cmp fuel l) l.
Proof.
  revert l. induction fuel as [|fuel IH]; intros l; simpl; [reflexivity|].
  destruct l as [|x [|y l]]; try reflexivity.
  rewrite merge_permutation, !IH. apply halves_permutation.
Qed.

Lemma merge_agree cmp cmp' l1 l2 :
  (forall a b, In a l1 -> In b l2 -> (cmp b a ?= 0) = (cmp' b a ?= 0)) ->
  merge cmp l1 l2 = merge cmp' l1 l2.
Proof.
  revert l2. induction l1 as [|a l1 IH1]; intros l2 H; [reflexivity|].
  induction l2 as [|b l2 IH2]; [reflexivity|].
  rewrite !merge_cons. unfold Z.ltb.
  rewrite (H a b) by now left.
  rewrite IH2 by (intros x y Hx Hy; apply H; [exact Hx|now right]).
  rewrite IH1 by (intros x y Hx Hy; apply H; [now right|exact Hy]).
  reflexivity.
Qed.

Lemma In_firstn_skipn (l : list A) n x :
  In x (firstn n l) \/ In x (skipn n l) -> In x l.
Proof.
  intros H. rewrite <- (firstn_skipn n l). apply in_or_app. exact H.
Qed.

Lemma merge_sort_fuel_agree cmp cmp' fuel l :
  agree_on cmp cmp' l ->
  merge_sort_fuel cmp fuel l = merge_sort_fuel cmp' fuel l.
Proof.
  revert l. induction fuel as [|fuel IH]; intros l H; simpl; [reflexivity|].
  destruct l as [|x [|y l]]; try reflexivity.
  set (w := x :: y :: l) in *. set (half := Nat.div2 (length w)).
  rewrite (IH (firstn half w)), (IH (skipn half w)).
  - apply merge_agree. intros a b Ha Hb.
    apply H; apply (In_firstn_skipn w half).
    + right. eapply Permutation_in;
        [apply merge_sort_fuel_permutation|exact Hb].
    + left. eapply Permutation_in;
        [apply merge_sort_fuel_permutation|exact Ha].
  - eapply agree_on_incl; [|exact H].
    intros a Ha. apply (In_firstn_skipn w half). now right.
  - eapply agree_on_incl; [|exact H].
    intros a Ha. apply (In_firstn_skipn w half). now left.
Qed.

Lemma merge_ascending key l1 l2 :
  ascending key l1 -> ascending key l2 ->
  ascending key (merge (by_key key) l1 l2).
Proof.
  intros H1. revert l2. induction H1 as [|a l1 Hs1 IH1 Hall1]; intros l2 H2;
    [exact H2|].
  induction H2 as [|b l2 Hs2 IH2 Hall2].
  - rewrite merge_nil_r. now constructor.
  - rewrite merge_cons. unfold by_key at 1.
    destruct (Z.ltb_spec (key b - key a) 0) as [Hlt|Hge].
    + constructor; [exact IH2|].
      eapply Permutation_Forall; [symmetry; apply merge_permutation|].
      apply Forall_app. split; [|exact Hall2].
      constructor; [lia|].
      eapply Forall_impl; [|exact Hall1]. simpl. intros z Hz. lia.
    + constructor; [apply IH1; now constructor|].
      eapply Permutation_Forall; [symmetry; apply merge_permutation|].
      apply Forall_app. split; [exact Hall1|].
      constructor; [lia|].
      eapply Forall_impl; [|exact Hall2]. simpl. intros z Hz. lia.
Qed.

Lemma merge_with_key key k l1 l2 :
  ascending key l1 ->
  with_key key k (merge (by_key key) l1 l2) =
  with_key key k l1 ++ with_key key k l2.
Proof.
  intros H1. revert l2. induction H1 as [|a l1 Hs1 IH1 Hall1]; intros l2;
    [reflexivity|].
  induction l2 as [|b l2 IH2].
  - rewrite merge_nil_r, app_nil_r. reflexivity.
  - rewrite merge_cons. unfold by_key at 1.
    destruct (Z.ltb_spec (key b - key a) 0) as [Hlt|Hge].
    + change (with_key key k (b :: merge (by_key key) (a :: l1) l2))
        with (if key b =? k
              then b :: with_key key k (merge (by_key key) (a :: l1) l2)
              else with_key key k (merge (by_key key) (a :: l1) l2)).
      change (with_key key k (b :: l2))
        with (if key b =? k then b :: with_key key k l2
              else with_key key k l2).
      rewrite IH2. destruct (Z.eqb_spec (key b) k) as [Hb|Hb]; [|reflexivity].
      rewrite (with_key_above key k (a :: l1)); [reflexivity|].
      apply ascending_tail_above; [now constructor|lia].
    + change (with_key key k (a :: merge (by_key key) l1 (b :: l2)))
        with (if key a =? k
              then a :: with_key key k (merge (by_key key) l1 (b :: l2))
              else with_key key k (merge (by_key key) l1 (b :: l2))).
      change (with_key key k (a :: l1))
        with (if key a =? k then a :: with_key key k l1
              else with_key key k l1).
      rewrite IH1. destruct (key a =? k); reflexivity.
Qed.

Lemma div2_halves (n : nat) :
  (2 <= n -> 1 <= Nat.div2 n /\ Nat.div2 n < n)%nat.
Proof.
  intros Hn. pose proof (Nat.div2_odd n) as E.
  destruct (Nat.odd n); simpl in E; lia.
Qed.

Lemma merge_sort_fuel_ascending key fuel l :
  (length l <= S fuel)%nat ->
  ascending key (merge_sort_fuel (by_key key) fuel l).
Proof.
  revert l. induction fuel as [|fuel IH]; intros l Hlen; simpl.
  - destruct l as [|x [|y l]]; simpl in Hlen; try lia; repeat constructor.
  - destruct l as [|x [|y l]]; try (repeat constructor).
    set (w := x :: y :: l) in *.
    destruct (div2_halves (length w)) as [Hlo Hhi]; [simpl; lia|].
    apply merge_ascending; apply IH.
    + rewrite length_firstn. lia.
    + rewrite length_skipn. lia.
Qed.

Lemma merge_sort_fuel_with_key key k fuel l :
  (length l <= S fuel)%nat ->
  with_key key k (merge_sort_fuel (by_key key) fuel l) = with_key key k l.
Proof.
  revert l. induction fuel as [|fuel IH]; intros l Hlen; simpl; [reflexivity|].
  destruct l as [|x [|y l]]; try reflexivity.
  set (w := x :: y :: l) in *.
  destruct (div2_halves (length w)) as [Hlo Hhi]; [simpl; lia|].
  rewrite merge_with_key.
  - rewrite !IH.
    + rewrite <- with_key_app. now rewrite firstn_skipn.
    + rewrite length_skipn. lia.
    + rewrite length_firstn. lia.
  - apply merge_sort_fuel_ascending. rewrite length_firstn. lia.
Qed.

End Merging.

Definition merge_engine : SortEngine.
Proof.
  refine {| js_sort := fun A => @merge_sort A |}.
  - intros A cmp l. apply merge_sort_fuel_permutation.
  - intros A cmp key l H. unfold merge_sort.
    rewrite (merge_sort_fuel_agree cmp (by_key key) _ l (ranked_agree _ _ _ H)).
    apply merge_sort_fuel_ascending. lia.
  - intros A cmp key l H k. unfold merge_sort.
    rewrite (merge_sort_fuel_agree cmp (by_key key) _ l (ranked_agree _ _ _ H)).
    apply merge_sort_fuel_with_key. lia.
Defined.

(** *** A third engine: binary insertion after a first run

    The scheme of TimSort on a short array.  The longest run at the front
    (non-descending, or strictly descending and then reversed) is the sorted
    prefix to start from; each further element is inserted into the sorted
    prefix at the position a binary search finds for it: the search goes left
    of the middle element when the new element compares below it, right of it
    otherwise. *)
Section BinaryInsertion.
Context {A : Type}.

Fixpoint search (cmp : A -> A -> Z) (x : A) (p : list A) (fuel left right : nat) : nat :=
  match fuel with
  | O => left
  | S fuel' =>
      if (left <? right)%nat then
        let mid := (left + Nat.div2 (right - left))%nat in
        if cmp x (nth mid p x) <? 0
        then search cmp x p fuel' left mid
        else search cmp x p fuel' (S mid) right
      else left
  end.

Definition binary_insert (cmp : A -> A -> Z) (p : list A) (x : A) : list A :=
  let pos := search cmp x p (length p) 0 (length p) in
  firstn pos p ++ x :: skipn pos p.

Fixpoint ascending_run (cmp : A -> A -> Z) (prev : A) (l : list A) : list A * list A :=
  match l with
  | [] => ([], [])
  | x :: l' =>
      if cmp x prev <? 0 then ([], l)
      else let (run, rest) := ascending_run cmp x l' in (x :: run, rest)
  end.

Fixpoint descending_run (cmp : A -> A -> Z) (prev : A) (l : list A) : list A * list A :=
  match l with
  | [] => ([], [])
  | x :: l' =>
      if cmp x prev <? 0
      then let (run, rest) := descending_run cmp x l' in (x :: run, rest)
      else ([], l)
  end.

Definition count_and_make_run (cmp : A -> A -> Z) (l : list A) : list A * list A :=
  match l with
  | a :: b :: l' =>
      if cmp b a <? 0
      then let (run, rest) := descending_run cmp b l' in
           (List.rev (a :: b :: run), rest)
      else let (run, rest) := ascending_run cmp b l' in
           (a :: b :: run, rest)
  | _ => (l, [])
  end.

Definition binary_insertion_sort (cmp : A -> A -> Z) (l : list A) : list A :=
  let (run, rest) := count_and_make_run cmp l in
  fold_left (binary_insert cmp) rest run.

(** The result is a permutation, whatever the comparator. *)
Lemma binary_insert_permutation cmp p x :
  Permutation (binary_insert cmp p x) (x :: p).
Proof.
  unfold binary_insert.
  set (pos := search cmp x p (length p) 0 (length p)).
  rewrite <- (firstn_skipn pos p) at 3.
  symmetry. apply Permutation_middle.
Qed.

Lemma fold_insert_permutation cmp rest :
  forall p, Permutation (fold_left (binary_insert cmp) rest p) (p ++ rest).
Proof.
  induction rest as [|x rest IH]; intros p; simpl.
  - now rewrite app_nil_r.
  - rewrite IH, binary_insert_permutation. apply Permutation_middle.
Qed.

Lemma ascending_run_split cmp l :
  forall prev, fst (ascending_run cmp prev l) ++ snd (ascending_run cmp prev l) = l.
Proof.
  induction l as [|x l IH]; intros prev; simpl; [reflexivity|].
  destruct (cmp x prev <? 0); [reflexivity|].
  specialize (IH x). destruct (ascending_run cmp x l) as [run rest].
  simpl in *. now rewrite IH.
Qed.

Lemma descending_run_split cmp l :
  forall prev, fst (descending_run cmp prev l) ++ snd (descending_run cmp prev l) = l.
Proof.
  induction l as [|x l IH]; intros prev; simpl; [reflexivity|].
  destruct (cmp x prev <? 0); [|reflexivity].
  specialize (IH x). destruct (descending_run cmp x l) as [run rest].
  simpl in *. now rewrite IH.
Qed.

Lemma count_and_make_run_permutation cmp l :
  Permutation (fst (count_and_make_run cmp l) ++ snd (count_and_make_run cmp l)) l.
Proof.
  unfold count_and_make_run. destruct l as [|a [|b l]]; try reflexivity.
  destruct (cmp b a <? 0).
  - pose proof (descending_run_split cmp l b) as H.
    destruct (descending_run cmp b l) as [run rest]. cbn [fst snd] in *.
    rewrite <- Permutation_rev. simpl. now rewrite H.
  - pose proof (ascending_run_split cmp l b) as H.
    destruct (ascending_run cmp b l) as [run rest]. cbn [fst snd] in *.
    simpl. now rewrite H.
Qed.

Lemma binary_insertion_sort_permutation cmp l :
  Permutation (binary_insertion_sort cmp l) l.
Proof.
  unfold binary_insertion_sort.
  pose proof (count_and_make_run_permutation cmp l) as H.
  destruct (count_and_make_run cmp l) as [run rest]. cbn [fst snd] in H.
  now rewrite fold_insert_permutation.
Qed.

(** The result depends on the comparator only through the signs it gives
    on the elements of the list. *)
Lemma search_agree cmp cmp' x p :
  (forall y, In y (x :: p) -> (cmp x y ?= 0) = (cmp' x y ?= 0)) ->
  forall fuel left right,
    search cmp x p fuel left right = search cmp' x p fuel left right.
Proof.
  intros H. induction fuel as [|fuel IH]; intros left right; simpl; [reflexivity|].
  destruct (left <? right)%nat; [|reflexivity].
  unfold Z.ltb. rewrite H.
  - now rewrite !IH.
  - destruct (nth_in_or_default (left + Nat.div2 (right - left)) p x) as [Hin| ->];
      [now right|now left].
Qed.

Lemma binary_insert_agree cmp cmp' p x :
  agree_on cmp cmp' (x :: p) ->
  binary_insert cmp p x = binary_insert cmp' p x.
Proof.
  intros H. unfold binary_insert. rewrite (search_agree cmp cmp'); [reflexivity|].
  intros y Hy. apply H; [now left|exact Hy].
Qed.

Lemma fold_insert_agree cmp cmp' rest :
  forall p, agree_on cmp cmp' (p ++ rest) ->
            fold_left (binary_insert cmp) rest p
            = fold_left (binary_insert cmp') rest p.
Proof.
  induction rest as [|x rest IH]; intros p H; simpl; [reflexivity|].
  rewrite (binary_insert_agree cmp cmp').
  - apply IH. eapply agree_on_incl; [|exact H].
    intros y Hy. apply in_app_or in Hy as [Hy|Hy].
    + apply (Permutation_in _ (binary_insert_permutation cmp' p x)) in Hy.
      destruct Hy as [<-|Hy]; apply in_or_app; [right; now left|now left].
    + apply in_or_app. right. now right.
  - eapply agree_on_incl; [|exact H].
    intros y [<-|Hy]; apply in_or_app; [right; now left|now left].
Qed.

Lemma ascending_run_agree cmp cmp' l :
  forall prev, agree_on cmp cmp' (prev :: l) ->
               ascending_run cmp prev l = ascending_run cmp' prev l.
Proof.
  induction l as [|x l IH]; intros prev H; simpl; [reflexivity|].
  unfold Z.ltb. rewrite (H x prev) by (simpl; auto).
  rewrite IH; [reflexivity|].
  eapply agree_on_incl; [|exact H]. intros y Hy. now right.
Qed.

Lemma descending_run_agree cmp cmp' l :
  forall prev, agree_on cmp cmp' (prev :: l) ->
               descending_run cmp prev l = descending_run cmp' prev l.
Proof.
  induction l as [|x l IH]; intros prev H; simpl; [reflexivity|].
  unfold Z.ltb. rewrite (H x prev) by (simpl; auto).
  rewrite IH; [reflexivity|].
  eapply agree_on_incl; [|exact H]. intros y Hy. now right.
Qed.

Lemma count_and_make_run_agree cmp cmp' l :
  agree_on cmp cmp' l -> count_and_make_run cmp l = count_and_make_run cmp' l.
Proof.
  intros H. unfold count_and_make_run. destruct l as [|a [|b l]]; try reflexivity.
  unfold Z.ltb. rewrite (H b a) by (simpl; auto).
  assert (H' : agree_on cmp cmp' (b :: l))
    by (eapply agree_on_incl; [|exact H]; intros y Hy; now right).
  now rewrite (ascending_run_agree cmp cmp' l b H'),
              (descending_run_agree cmp cmp' l b H').
Qed.

Lemma binary_insertion_sort_agree cmp cmp' l :
  agree_on cmp cmp' l ->
  binary_insertion_sort cmp l = binary_insertion_sort cmp' l.
Proof.
  intros H. unfold binary_insertion_sort.
  rewrite (count_and_make_run_agree cmp cmp' l H).
  pose proof (count_and_make_run_permutation cmp' l) as Hp.
  destruct (count_and_make_run cmp' l) as [run rest]. cbn [fst snd] in Hp.
  apply fold_insert_agree. eapply agree_on_incl; [|exact H].
  intros y Hy. eapply Permutation_in; [exact Hp|exact Hy].
Qed.

(** With a ranking for comparator: the search finds the end of the
    elements that do not exceed the new one. *)
Lemma ascending_from_nth key (p : list A) d :
  ascending key p ->
  forall mid, (mid < length p)%nat ->
    Forall (fun y => key (nth mid p d) <= key y) (skipn mid p)
    /\ Forall (fun y => key y <= key (nth mid p d)) (firstn (S mid) p).
Proof.
  induction 1 as [|a p Hs IH Hall]; intros mid Hmid; simpl in Hmid; [lia|].
  destruct mid as [|mid].
  - simpl. split.
    + constructor; [lia|exact Hall].
    + repeat constructor. lia.
  - destruct (IH mid) as [H1 H2]; [lia|]. split; [exact H1|].
    change (firstn (S (S mid)) (a :: p)) with (a :: firstn (S mid) p).
    constructor; [|exact H2]. cbn [nth].
    rewrite Forall_forall in Hall. apply Hall. apply nth_In. lia.
Qed.

Lemma div2_below n : (0 < n -> Nat.div2 n < n)%nat.
Proof. apply Nat.lt_div2. Qed.

Lemma search_bounds key x (p : list A) :
  ascending key p ->
  forall fuel left right,
    (right - left <= fuel)%nat -> (left <= right)%nat -> (right <= length p)%nat ->
    Forall (fun y => key y <= key x) (firstn left p) ->
    Forall (fun y => key x < key y) (skipn right p) ->
    let pos := search (by_key key) x p fuel left right in
    Forall (fun y => key y <= key x) (firstn pos p)
    /\ Forall (fun y => key x < key y) (skipn pos p).
Proof.
  intros Hasc. induction fuel as [|fuel IH];
    intros left right Hfuel Hle Hlen Hl Hr; simpl.
  - assert (left = right) by lia. subst. now split.
  - destruct (Nat.ltb_spec left right) as [Hlt|Hge].
    + set (mid := (left + Nat.div2 (right - left))%nat).
      assert (Hmid : (left <= mid /\ mid < right)%nat).
      { assert (Hhalf : (Nat.div2 (right - left) < right - left)%nat)
          by (apply div2_below; lia).
        unfold mid. revert Hhalf.
        generalize (Nat.div2 (right - left)). intros half Hhalf. lia. }
      destruct (ascending_from_nth key p x Hasc mid) as [Hup Hdown]; [lia|].
      destruct (Z.ltb_spec (by_key key x (nth mid p x)) 0) as [Hbelow|Habove];
        unfold by_key in *.
      * apply IH; try lia; [exact Hl|].
        eapply Forall_impl; [|exact Hup]. simpl. intros y Hy. lia.
      * apply IH; try lia; [|exact Hr].
        eapply Forall_impl; [|exact Hdown]. simpl. intros y Hy. lia.
    + assert (left = right) by lia. subst. now split.
Qed.

Lemma ascending_insert_middle key (l1 l2 : list A) x :
  ascending key (l1 ++ l2) ->
  Forall (fun y => key y <= key x) l1 ->
  Forall (fun y => key x < key y) l2 ->
  ascending key (l1 ++ x :: l2).
Proof.
  induction l1 as [|a l1 IH]; simpl; intros Hs H1 H2.
  - constructor; [exact Hs|].
    eapply Forall_impl; [|exact H2]. simpl. intros y Hy. lia.
  - apply StronglySorted_inv in Hs as [Hs Hall].
    inversion H1 as [|? ? Ha H1']; subst.
    constructor; [now apply IH|].
    apply Forall_app in Hall as [Hall1 Hall2].
    apply Forall_app. split; [exact Hall1|]. constructor; [exact Ha|exact Hall2].
Qed.

Lemma binary_insert_bounds key (p : list A) x :
  ascending key p ->
  let pos := search (by_key key) x p (length p) 0 (length p) in
  Forall (fun y => key y <= key x) (firstn pos p)
  /\ Forall (fun y => key x < key y) (skipn pos p).
Proof.
  intros Hasc. apply search_bounds; try lia; [exact Hasc|constructor|].
  rewrite skipn_all. constructor.
Qed.

Lemma binary_insert_ascending key (p : list A) x :
  ascending key p -> ascending key (binary_insert (by_key key) p x).
Proof.
  intros Hasc. destruct (binary_insert_bounds key p x Hasc) as [H1 H2].
  unfold binary_insert. apply ascending_insert_middle; [|exact H1|exact H2].
  now rewrite firstn_skipn.
Qed.

Lemma binary_insert_with_key key k (p : list A) x :
  ascending key p ->
  with_key key k (binary_insert (by_key key) p x) = with_key key k (p ++ [x]).
Proof.
  intros Hasc. destruct (binary_insert_bounds key p x Hasc) as [_ H2].
  unfold binary_insert.
  set (pos := search (by_key key) x p (length p) 0 (length p)) in *.
  assert (Hp : with_key key k p
               = with_key key k (firstn pos p) ++ with_key key k (skipn pos p))
    by (rewrite <- with_key_app; now rewrite firstn_skipn).
  assert (Hx : with_key key k [x] = if key x =? k then [x] else [])
    by reflexivity.
  change (x :: skipn pos p) with ([x] ++ skipn pos p).
  rewrite !with_key_app, Hp, Hx, <- app_assoc. f_equal.
  destruct (Z.eqb_spec (key x) k) as [Hk|Hk].
  - subst k. now rewrite (with_key_above key (key x) _ H2).
  - simpl. now rewrite app_nil_r.
Qed.

Lemma fold_insert_ascending key rest :
  forall p : list A, ascending key p ->
    ascending key (fold_left (binary_insert (by_key key)) rest p).
Proof.
  induction rest as [|x rest IH]; intros p Hasc; simpl; [exact Hasc|].
  apply IH. now apply binary_insert_ascending.
Qed.

Lemma fold_insert_with_key key k rest :
  forall p : list A, ascending key p ->
    with_key key k (fold_left (binary_insert (by_key key)) rest p)
    = with_key key k (p ++ rest).
Proof.
  induction rest as [|x rest IH]; intros p Hasc; simpl.
  - now rewrite app_nil_r.
  - rewrite IH by now apply binary_insert_ascending.
    rewrite with_key_app, binary_insert_with_key by exact Hasc.
    rewrite <- with_key_app, <- app_assoc. reflexivity.
Qed.

Lemma ascending_run_ascending key l :
  forall prev : A, ascending key (prev :: fst (ascending_run (by_key key) prev l)).
Proof.
  induction l as [|x l IH]; intros prev; simpl; [repeat constructor|].
  unfold by_key at 1. destruct (Z.ltb_spec (key x - key prev) 0) as [Hlt|Hge];
    [repeat constructor|].
  specialize (IH x). destruct (ascending_run (by_key key) x l) as [run rest].
  cbn [fst] in *. constructor; [exact IH|].
  apply StronglySorted_inv in IH as [_ Hall].
  constructor; [lia|].
  eapply Forall_impl; [|exact Hall]. simpl. intros y Hy. lia.
Qed.

(** Strictly descending. *)
Definition descending (key : A -> Z) : list A -> Prop :=
  StronglySorted (fun a b => key b < key a).

Lemma descending_run_descending key l :
  forall prev : A, descending key (prev :: fst (descending_run (by_key key) prev l)).
Proof.
  induction l as [|x l IH]; intros prev; simpl; [repeat constructor|].
  unfold by_key at 1. destruct (Z.ltb_spec (key x - key prev) 0) as [Hlt|Hge];
    [|repeat constructor].
  specialize (IH x). destruct (descending_run (by_key key) x l) as [run rest].
  cbn [fst] in *. constructor; [exact IH|].
  apply StronglySorted_inv in IH as [_ Hall].
  constructor; [lia|].
  eapply Forall_impl; [|exact Hall]. simpl. intros y Hy. lia.
Qed.

Lemma descending_distinct key (l : list A) :
  descending key l -> NoDup (map key l).
Proof.
  induction 1 as [|a l Hs IH Hall]; simpl; constructor; [|exact IH].
  intros Hin. apply in_map_iff in Hin as [y [Hy Hin]].
  rewrite Forall_forall in Hall. specialize (Hall y Hin). lia.
Qed.

Lemma ascending_snoc key (l : list A) x :
  ascending key l -> Forall (fun y => key y <= key x) l -> ascending key (l ++ [x]).
Proof.
  intros Hs Hall. apply ascending_insert_middle; [|exact Hall|constructor].
  now rewrite app_nil_r.
Qed.

Lemma descending_rev_ascending key (l : list A) :
  descending key l -> ascending key (List.rev l).
Proof.
  induction 1 as [|a l Hs IH Hall]; simpl; [constructor|].
  apply ascending_snoc; [exact IH|].
  apply Forall_rev. eapply Forall_impl; [|exact Hall]. simpl. intros y Hy. lia.
Qed.

Lemma descending_rev_with_key key k (l : list A) :
  descending key l -> with_key key k (List.rev l) = with_key key k l.
Proof.
  intros Hd. apply Permutation_short.
  - unfold with_key. apply Permutation_filter_same. symmetry. apply Permutation_rev.
  - apply with_key_distinct. now apply descending_distinct.
Qed.

Lemma count_and_make_run_ranked key (l : list A) :
  ascending key (fst (count_and_make_run (by_key key) l))
  /\ forall k,
       with_key key k (fst (count_and_make_run (by_key key) l)
                      ++ snd (count_and_make_run (by_key key) l))
       = with_key key k l.
Proof.
  unfold count_and_make_run.
  destruct l as [|a [|b l]]; try (split; [repeat constructor|reflexivity]).
  destruct (Z.ltb_spec (by_key key b a) 0) as [Hlt|Hge];
    [unfold by_key in Hlt|unfold by_key in Hge].
  - pose proof (descending_run_split (by_key key) l b) as Hsplit.
    pose proof (descending_run_descending key l b) as Hdesc.
    destruct (descending_run (by_key key) b l) as [run rest]. cbn [fst snd] in *.
    assert (Hd : descending key (a :: b :: run)).
    { constructor; [exact Hdesc|].
      apply StronglySorted_inv in Hdesc as [_ Hall].
      constructor; [lia|].
      eapply Forall_impl; [|exact Hall]. simpl. intros y Hy. lia. }
    split; [now apply descending_rev_ascending|].
    intros k. rewrite with_key_app, (descending_rev_with_key key k _ Hd).
    rewrite <- with_key_app. simpl. now rewrite Hsplit.
  - pose proof (ascending_run_split (by_key key) l b) as Hsplit.
    pose proof (ascending_run_ascending key l b) as Hasc.
    destruct (ascending_run (by_key key) b l) as [run rest]. cbn [fst snd] in *.
    split.
    + constructor; [exact Hasc|].
      apply StronglySorted_inv in Hasc as [_ Hall].
      constructor; [lia|].
      eapply Forall_impl; [|exact Hall]. simpl. intros y Hy. lia.
    + intros k. simpl. now rewrite Hsplit.
Qed.

Lemma binary_insertion_sort_ascending key (l : list A) :
  ascending key (binary_insertion_sort (by_key key) l).
Proof.
  unfold binary_insertion_sort.
  destruct (count_and_make_run_ranked key l) as [Hasc _].
  destruct (count_and_make_run (by_key key) l) as [run rest]. cbn [fst] in Hasc.
  now apply fold_insert_ascending.
Qed.

Lemma binary_insertion_sort_with_key key k (l : list A) :
  with_key key k (binary_insertion_sort (by_key key) l) = with_key key k l.
Proof.
  unfold binary_insertion_sort.
  destruct (count_and_make_run_ranked key l) as [Hasc Hkeys].
  destruct (count_and_make_run (by_key key) l) as [run rest]. cbn [fst snd] in *.
  rewrite fold_insert_with_key by exact Hasc. apply Hkeys.
Qed.

End BinaryInsertion.

Definition binary_insertion_engine : SortEngine.
Proof.
  refine {| js_sort := fun A => @binary_insertion_sort A |}.
  - intros A cmp l. apply binary_insertion_sort_permutation.
  - intros A cmp key l H.
    rewrite (binary_insertion_sort_agree cmp (by_key key) l (ranked_agree _ _ _ H)).
    apply binary_insertion_sort_ascending.
  - intros A cmp key l H k.
    rewrite (binary_insertion_sort_agree cmp (by_key key) l (ranked_agree _ _ _ H)).
    apply binary_insertion_sort_with_key.
Defined.

(** With a ranked comparator every engine returns the same list. *)
Lemma js_sort_ranked (E : SortEngine) {A} (cmp : A -> A -> Z) key l :
  ranked_by cmp key l ->
  js_sort E cmp l = insertion_sort (by_key key) l.
Proof.
  intros H. apply (ascending_classes_unique key).
  - now apply js_sort_ascending.
  - apply insertion_sort_ascending.
  - intros k. rewrite (js_sort_stable E A cmp key l H).
    now rewrite insertion_sort_with_key.
Qed.

Lemma js_sort_length (E : SortEngine) {A} (cmp : A -> A -> Z) l :
  length (js_sort E cmp l) = length l.
Proof. apply Permutation_length, js_sort_permutation. Qed.

(* ================================================================== *)
(** ** The data of the script *)
(* ================================================================== *)

(** What the script keeps about a pull request ([processedData], and the
    object [fetchPRDetails] returns).  [created_at] and [user] are carried
    along and never inspected. *)
Record PRData : Type := mkPRData {
  number : Z;
  author_association : JsValue;
  created_at : string;
  user : string
}.

(** A value of [this.cache]. *)
Record CacheEntry : Type := mkCacheEntry {
  data : PRData;
  timestamp : Z
}.

(** The badge [createContributorBadge] builds. *)
Inductive Badge : Type :=
| BadgeNew (title : string)
| BadgeExisting (title : string).

(** A row of the listing ([.js-navigation-item, .js-issue-row]): the [href]
    of each of its anchors in document order, its [data-original-index]
    attribute, its badge, and the rest of its content. *)
Record Row : Type := mkRow {
  row_links : list string;
  original_index : option string;
  badge : option Badge;
  row_content : string
}.

(** The container of the listing (the first match of the three selectors of
    [applySorting]), with its [data-original-order] attribute and its rows in
    display order. *)
Record Container : Type := mkContainer {
  has_original_order : bool;
  rows : list Row
}.

(** The page: the anchors before the listing, the listing, the anchors after
    it. *)
Record Document : Type := mkDocument {
  links_before : list string;
  container : option Container;
  links_after : list string
}.

(** A request sent to the remote service. *)
Inductive Request : Type :=
| RestGet (prNumber : Z)
| GraphQLPost (prNumbers : list Z).

(** The instance of [PRSorter] together with the part of the browser it
    reads and writes. *)
Record State : Type := mkState {
  prData : JsMap.t PRData;
  sortOrder : string;
  githubToken : option string;
  cache : JsMap.t CacheEntry;
  location_href : string;
  page : Document;
  clock : Z;
  storage_available : bool;
  stored_order : option string;
  stored_cache : option (list (Z * CacheEntry));
  requests : list Request;
  console : list string
}.

Definition with_prData (m : JsMap.t PRData) (s : State) : State :=
  mkState m (sortOrder s) (githubToken s) (cache s) (location_href s) (page s)
          (clock s) (storage_available s) (stored_order s) (stored_cache s)
          (requests s) (console s).

Definition with_sortOrder (o : string) (s : State) : State :=
  mkState (prData s) o (githubToken s) (cache s) (location_href s) (page s)
          (clock s) (storage_available s) (stored_order s) (stored_cache s)
          (requests s) (console s).

Definition with_cache (c : JsMap.t CacheEntry) (s : State) : State :=
  mkState (prData s) (sortOrder s) (githubToken s) c (location_href s) (page s)
          (clock s) (storage_available s) (stored_order s) (stored_cache s)
          (requests s) (console s).

Definition with_page (d : Document) (s : State) : State :=
  mkState (prData s) (sortOrder s) (githubToken s) (cache s) (location_href s) d
          (clock s) (storage_available s) (stored_order s) (stored_cache s)
          (requests s) (console s).

Definition with_clock (t : Z) (s : State) : State :=
  mkState (prData s) (sortOrder s) (githubToken s) (cache s) (location_href s)
          (page s) t (storage_available s) (stored_order s) (stored_cache s)
          (requests s) (console s).

Definition with_stored_order (o : option string) (s : State) : State :=
  mkState (prData s) (sortOrder s) (githubToken s) (cache s) (location_href s)
          (page s) (clock s) (storage_available s) o (stored_cache s)
          (requests s) (console s).

Definition with_stored_cache (c : option (list (Z * CacheEntry))) (s : State) : State :=
  mkState (prData s) (sortOrder s) (githubToken s) (cache s) (location_href s)
          (page s) (clock s) (storage_available s) (stored_order s) c
          (requests s) (console s).

Definition with_requests (r : list Request) (s : State) : State :=
  mkState (prData s) (sortOrder s) (githubToken s) (cache s) (location_href s)
          (page s) (clock s) (storage_available s) (stored_order s)
          (stored_cache s) r (console s).

Definition with_console (l : list string) (s : State) : State :=
  mkState (prData s) (sortOrder s) (githubToken s) (cache s) (location_href s)
          (page s) (clock s) (storage_available s) (stored_order s)
          (stored_cache s) (requests s) l.

(** [this.log], for the lines that report a failure; the informational
    lines of the script are not kept, and a line is kept without the sign
    that opens it in the script. *)
Definition log (line : string) (s : State) : State :=
  with_console (console s ++ [line]) s.

(** A credential is present when [this.githubToken] is truthy. *)
Definition authenticated (s : State) : bool :=
  match githubToken s with
  | Some t => negb (String.eqb t "")
  | None => false
  end.

(** The result of an [async] method: it returns or it throws an [Error]
    with a message. *)
Inductive Outcome (A : Type) : Type :=
| Returned (a : A)
| Thrown (message : string).
Arguments Returned {A} a.
Arguments Thrown {A} message.

(* ================================================================== *)
(** ** The classifier *)
(* ================================================================== *)

Definition newContributorStatuses : list string :=
  ["FIRST_TIMER"; "FIRST_TIME_CONTRIBUTOR"; "NONE"].

Definition getContributorPriority (authorAssociation : JsValue) : Z :=
  if existsb (same_as_string authorAssociation) newContributorStatuses
  then 1 else 2.

(* ================================================================== *)
(** ** The cache *)
(* ================================================================== *)

Definition cacheExpiry : Z := 30 * 60 * 1000.

Section Program.
Variable E : SortEngine.

(** The comparator of [saveCacheToStorage]: most recent first. *)
Definition newest_first (a b : Z * CacheEntry) : Z :=
  timestamp (snd b) - timestamp (snd a).

Definition saveCacheToStorage (s : State) : State :=
  if storage_available s then
    let entries := cache s in
    if (200 <? length entries)%nat then
      let kept := firstn 150 (js_sort E newest_first entries) in
      with_stored_cache (Some kept) (with_cache (JsMap.of_entries kept) s)
    else with_stored_cache (Some entries) s
  else s.

Definition getFromCache (prNumber : Z) (s : State) : option PRData * State :=
  match JsMap.get prNumber (cache s) with
  | Some cached =>
      if clock s - timestamp cached <? cacheExpiry
      then (Some (data cached), s)
      else (None, saveCacheToStorage
                    (with_cache (JsMap.delete prNumber (cache s)) s))
  | None => (None, s)
  end.

Definition setCache (prNumber : Z) (d : PRData) (s : State) : State :=
  saveCacheToStorage
    (with_cache (JsMap.set prNumber (mkCacheEntry d (clock s)) (cache s)) s).

Definition expired (now : Z) (e : Z * CacheEntry) : bool :=
  cacheExpiry <=? now - timestamp (snd e).

Definition clearExpiredCache (s : State) : State :=
  let kept := filter (fun e => negb (expired (clock s) e)) (cache s) in
  let deletedCount := (length (cache s) - length kept)%nat in
  if (0 <? deletedCount)%nat
  then saveCacheToStorage (with_cache kept s)
  else s.

(* ================================================================== *)
(** ** The remote service *)
(* ================================================================== *)

(** The body of a REST answer: [response.json()] fails (or the parsed value
    has no properties to read) with the error's message, or it yields the
    three fields [fetchPRDetails] copies. *)
Inductive RestBody : Type :=
| RestBodyError (message : string)
| RestBodyJson (association : JsValue) (created user : string).

(** The answer to [fetch] of one pull request: the promise rejects with an
    error message, or it resolves to a response. *)
Inductive RestReply : Type :=
| RestRejected (message : string)
| RestResponse (status : Z) (statusText : string) (body : RestBody).

(** One sub-result of the aggregated query. *)
Record GraphQLNode : Type := mkGraphQLNode {
  node_number : Z;
  authorAssociation : JsValue;
  createdAt : string;
  author : string
}.

(** [result.data] of the aggregated answer: missing (reading
    [.repository] throws, with the host's message), a null repository
    (reading an alias of it throws), or the sub-results by position, [None]
    where the alias [pr<index>] is null or absent. *)
Inductive GraphQLData : Type :=
| DataMissing (message : string)
| RepositoryNull (message : string)
| Repository (nodes : list (option GraphQLNode)).

(** The parsed body of the aggregated answer; [errors] is the JSON text of
    a truthy [result.errors]. *)
Inductive GraphQLBody : Type :=
| GraphQLBodyError (message : string)
| GraphQLResult (errors : option string) (result_data : GraphQLData).

Inductive GraphQLReply : Type :=
| GraphQLRejected (message : string)
| GraphQLResponse (status : Z) (statusText : string) (body : GraphQLBody).

(** The network: the answer to the n-th request of the session and the time
    it takes to arrive. *)
Record Net : Type := mkNet {
  rest_reply : nat -> Z -> RestReply;
  graphql_reply : nat -> list Z -> GraphQLReply;
  latency : nat -> Z
}.

Variable net : Net.

(** [response.ok]. *)
Definition response_ok (status : Z) : bool :=
  (200 <=? status) && (status <=? 299).

(** [await fetch(...)]: the request is logged and the clock moves on. *)
Definition send (r : Request) (s : State) : State :=
  with_clock (clock s + latency net (length (requests s)))
             (with_requests (requests s ++ [r]) s).

Definition rate_limit_message : string :=
  "GitHub API rate limit exceeded (403). Add a GitHub token for unlimited requests.".

Definition fetchPRDetails (prNumber : Z) (s : State) : Outcome PRData * State :=
  let reply := rest_reply net (length (requests s)) prNumber in
  let s1 := send (RestGet prNumber) s in
  match reply with
  | RestRejected message => (Thrown message, s1)
  | RestResponse status statusText body =>
      if negb (response_ok status) then
        if status =? 403
        then (Thrown rate_limit_message, s1)
        else (Thrown ("GitHub API error: " ++ toString status ++ " - " ++ statusText), s1)
      else
        match body with
        | RestBodyError message => (Thrown message, s1)
        | RestBodyJson association created usr =>
            (Returned (mkPRData prNumber association created usr), s1)
        end
  end.

Definition rest_abort_message : string :=
  "GitHub API rate limit exceeded. Please add a GitHub token for unlimited requests.".

(** The delay between two requests when there is no credential. *)
Definition pause (s : State) : State :=
  if authenticated s then s else with_clock (clock s + 500) s.

Fixpoint fetchPRDataREST (prNumbers : list Z) (s : State) : Outcome unit * State :=
  match prNumbers with
  | [] => (Returned tt, s)
  | prNumber :: rest =>
      let (cached, s1) := getFromCache prNumber s in
      match cached with
      | Some d =>
          fetchPRDataREST rest (with_prData (JsMap.set prNumber d (prData s1)) s1)
      | None =>
          let (fetched, s2) := fetchPRDetails prNumber s1 in
          match fetched with
          | Returned d =>
              let s3 := with_prData (JsMap.set prNumber d (prData s2)) s2 in
              fetchPRDataREST rest (pause (setCache prNumber d s3))
          | Thrown message =>
              let s3 := log ("Failed to fetch data for PR #" ++ toString prNumber
                             ++ ": " ++ message) s2 in
              if includes message "403"
              then (Thrown rest_abort_message,
                    log "Hit GitHub rate limit. Stopping API requests." s3)
              else fetchPRDataREST rest s3
          end
      end
  end.

(** The loop that commits the sub-results of the aggregated answer. *)
Fixpoint commit_nodes (prNumbers : list Z) (index : nat)
         (nodes : list (option GraphQLNode)) (s : State) : State :=
  match prNumbers with
  | [] => s
  | prNumber :: rest =>
      let s' :=
        match nth index nodes None with
        | Some node =>
            let processedData :=
              mkPRData (node_number node) (authorAssociation node)
                       (createdAt node) (author node) in
            setCache prNumber processedData
              (with_prData (JsMap.set prNumber processedData (prData s)) s)
        | None => s
        end in
      commit_nodes rest (S index) nodes s'
  end.

Definition fetchPRDataGraphQL (prNumbers : list Z) (s : State) : Outcome unit * State :=
  let reply := graphql_reply net (length (requests s)) prNumbers in
  let s1 := send (GraphQLPost prNumbers) s in
  match reply with
  | GraphQLRejected message => (Thrown message, s1)
  | GraphQLResponse status statusText body =>
      if negb (response_ok status) then
        (Thrown ("GraphQL API error: " ++ toString status ++ " - " ++ statusText), s1)
      else
        match body with
        | GraphQLBodyError message => (Thrown message, s1)
        | GraphQLResult (Some errors) _ => (Thrown ("GraphQL errors: " ++ errors), s1)
        | GraphQLResult None (DataMissing message) => (Thrown message, s1)
        | GraphQLResult None (RepositoryNull message) =>
            match prNumbers with
            | [] => (Returned tt, s1)
            | _ :: _ => (Thrown message, s1)
            end
        | GraphQLResult None (Repository nodes) =>
            (Returned tt, commit_nodes prNumbers 0 nodes s1)
        end
  end.

(* ================================================================== *)
(** ** From the page to the identifiers *)
(* ================================================================== *)

(** The first match of [/\/pull\/(\d+)/] in a string: its captured
    digits. *)
Fixpoint match_pull (s : string) : option string :=
  match s with
  | EmptyString => None
  | String _ rest =>
      if String.prefix "/pull/" s then
        match take_digits (String.substring 6 (String.length s - 6) s) with
        | EmptyString => match_pull rest
        | digits => Some digits
        end
      else match_pull rest
  end.

(** [extractPRNumber] of an anchor, given by its [href]; [None] as argument
    is a null element, [None] as result is [null]. *)
Definition extractPRNumber (prElement : option string) : option Z :=
  match prElement with
  | Some href =>
      if String.eqb href "" then None
      else match match_pull href with
           | Some digits => parseInt digits
           | None => None
           end
  | None => None
  end.

(** [querySelectorAll('a[href*="/pull/"]')] on a list of anchors. *)
Definition pull_links (anchors : list string) : list string :=
  filter (fun href => includes href "/pull/") anchors.

(** The anchors of the page in document order. *)
Definition anchors_of (d : Document) : list string :=
  links_before d
  ++ match container d with
     | Some c => concat (map row_links (rows c))
     | None => []
     end
  ++ links_after d.

Definition maxPRs (s : State) : nat :=
  if authenticated s then 50%nat else 10%nat.

(** A number is kept by [.filter(num => num)] unless it is [null] or 0. *)
Definition truthy_number (n : option Z) : option Z :=
  match n with
  | Some z => if z =? 0 then None else Some z
  | None => None
  end.

Fixpoint keep_numbers (l : list (option Z)) : list Z :=
  match l with
  | [] => []
  | n :: rest =>
      match truthy_number n with
      | Some z => z :: keep_numbers rest
      | None => keep_numbers rest
      end
  end.

(** [allPRNumbers] of [fetchPRData]. *)
Definition allPRNumbers (s : State) : list Z :=
  let prElements := pull_links (anchors_of (page s)) in
  let limitedElements := firstn (maxPRs s) prElements in
  keep_numbers (map (fun el => extractPRNumber (Some el)) limitedElements).

(** The loop "load cached data first". *)
Fixpoint load_cached (prNumbers : list Z) (s : State) : State :=
  match prNumbers with
  | [] => s
  | prNumber :: rest =>
      if JsMap.has prNumber (prData s) then load_cached rest s
      else
        let (cached, s1) := getFromCache prNumber s in
        match cached with
        | Some d => load_cached rest (with_prData (JsMap.set prNumber d (prData s1)) s1)
        | None => load_cached rest s1
        end
  end.

Definition fetchPRData (s : State) : Outcome unit * State :=
  let s0 := clearExpiredCache s in
  let numbers := allPRNumbers s0 in
  let s1 := load_cached numbers s0 in
  let prNumbersToFetch := filter (fun num => negb (JsMap.has num (prData s1))) numbers in
  match prNumbersToFetch with
  | [] => (Returned tt, s1)
  | _ :: _ =>
      if authenticated s1 && (3 <? length prNumbersToFetch)%nat then
        match fetchPRDataGraphQL prNumbersToFetch s1 with
        | (Returned tt, s2) => (Returned tt, s2)
        | (Thrown message, s2) =>
            fetchPRDataREST prNumbersToFetch
              (log ("GraphQL failed, falling back to REST API: " ++ message) s2)
        end
      else fetchPRDataREST prNumbersToFetch s1
  end.

(* ================================================================== *)
(** ** Reordering the listing *)
(* ================================================================== *)

(** [row.querySelector('a[href*="/pull/"]')]. *)
Definition first_pull_link (r : Row) : option string :=
  head (pull_links (row_links r)).

Definition row_number (r : Row) : option Z :=
  extractPRNumber (first_pull_link r).

(** [this.prData.get(n)] where [n] may be [null]. *)
Definition record_of (s : State) (n : option Z) : option PRData :=
  match n with
  | Some k => JsMap.get k (prData s)
  | None => None
  end.

(** The tier of a row whose record is known. *)
Definition tier_of (s : State) (r : Row) : option Z :=
  option_map (fun d => getContributorPriority (author_association d))
             (record_of s (row_number r)).

(** The comparator of [applySorting]. *)
Definition tier_comparator (s : State) (a b : Row) : Z :=
  match record_of s (row_number a), record_of s (row_number b) with
  | Some dataA, Some dataB =>
      let priorityA := getContributorPriority (author_association dataA) in
      let priorityB := getContributorPriority (author_association dataB) in
      if String.eqb (sortOrder s) "new-first"
      then priorityA - priorityB
      else priorityB - priorityA
  | _, _ => 0
  end.

Definition set_original_index (v : string) (r : Row) : Row :=
  mkRow (row_links r) (Some v) (badge r) (row_content r).

Definition set_badge (b : Badge) (r : Row) : Row :=
  mkRow (row_links r) (original_index r) (Some b) (row_content r).

(** [prElements.forEach((el, index) => el.setAttribute(..., index.toString()))],
    counting from [index]. *)
Fixpoint stamp_from (index : nat) (prElements : list Row) : list Row :=
  match prElements with
  | [] => []
  | el :: rest =>
      set_original_index (toString (Z.of_nat index)) el :: stamp_from (S index) rest
  end.

(** String concatenation applied to a parsed JSON value. *)
Definition js_to_string (v : JsValue) : string :=
  match v with
  | JUndefined => "undefined"
  | JNull => "null"
  | JBool true => "true"
  | JBool false => "false"
  | JNum z => toString z
  | JStr t => t
  end.

Definition createContributorBadge (authorAssociation : JsValue) : Badge :=
  if existsb (same_as_string authorAssociation) newContributorStatuses
  then BadgeNew ("New contributor (" ++ js_to_string authorAssociation ++ ")")
  else BadgeExisting ("Existing contributor (" ++ js_to_string authorAssociation ++ ")").

(** What [addContributorBadges] does to one row. *)
Definition add_badge (s : State) (r : Row) : Row :=
  match record_of s (row_number r), badge r, first_pull_link r with
  | Some d, None, Some _ => set_badge (createContributorBadge (author_association d)) r
  | _, _, _ => r
  end.

Definition set_rows (l : list Row) (c : Container) (s : State) : State :=
  with_page (mkDocument (links_before (page s))
                        (Some (mkContainer (has_original_order c) l))
                        (links_after (page s))) s.

Definition applySorting (s : State) : State :=
  match container (page s) with
  | None => s
  | Some c =>
      match rows c with
      | [] => s
      | _ :: _ =>
          let stamped :=
            if has_original_order c then c
            else mkContainer true (stamp_from 0 (rows c)) in
          let sortedElements := js_sort E (tier_comparator s) (rows stamped) in
          set_rows (map (add_badge s) sortedElements) stamped s
      end
  end.

(** [el.getAttribute('data-original-index') || '0']. *)
Definition original_index_or_0 (r : Row) : string :=
  match original_index r with
  | Some v => if String.eqb v "" then "0" else v
  | None => "0"
  end.

(** The comparator of [restoreDefaultOrder]. *)
Definition index_comparator (a b : Row) : Z :=
  nan_to_zero (js_sub (parseInt (original_index_or_0 a))
                      (parseInt (original_index_or_0 b))).

Definition restoreDefaultOrder (s : State) : State :=
  match container (page s) with
  | None => s
  | Some c => set_rows (js_sort E index_comparator (rows c)) c s
  end.

(* ================================================================== *)
(** ** The trigger *)
(* ================================================================== *)

(** What [sendResponse] is called with. *)
Record Response : Type := mkResponse {
  success : bool;
  message : string
}.

Definition saveSortPreference (s : State) : State :=
  if storage_available s then with_stored_order (Some (sortOrder s)) s else s.

Definition handleSortRequest (order : string) (s : State) : Response * State :=
  if negb (includes (location_href s) "github.com")
     || negb (includes (location_href s) "/pulls")
  then (mkResponse false "Not on a GitHub pull requests page", s)
  else
    let s1 := saveSortPreference (with_sortOrder order s) in
    if String.eqb order "default" then
      (mkResponse true "Restored to default order", restoreDefaultOrder s1)
    else
      match fetchPRData s1 with
      | (Returned tt, s2) =>
          let sortLabel :=
            if String.eqb order "new-first" then "new contributors"
            else "existing contributors" in
          (mkResponse true ("Sorted by " ++ sortLabel ++ " successfully!"),
           applySorting s2)
      | (Thrown msg, s2) =>
          (mkResponse false ("Error sorting PRs: " ++ msg),
           log ("Error in handleSortRequest: " ++ msg) s2)
      end.

End Program.

(* ================================================================== *)
(** ** Facts about the cache *)
(* ================================================================== *)

(** A sequence of [put]s, each with the time at which it happens. *)
Definition put_all (E : SortEngine) (ops : list (Z * (Z * PRData))) (s : State) : State :=
  fold_left (fun st op => setCache E (fst (snd op)) (snd (snd op)) (with_clock (fst op) st))
            ops s.

(** A decidable form of [NoDup] on numbers, for concrete maps. *)
Fixpoint distinct_numbers (l : list Z) : bool :=
  match l with
  | [] => true
  | k :: rest => negb (existsb (Z.eqb k) rest) && distinct_numbers rest
  end.

Lemma distinct_numbers_NoDup (l : list Z) :
  distinct_numbers l = true -> NoDup l.
Proof.
  induction l as [|k l IH]; simpl; intros H; constructor.
  - apply andb_prop in H as [H _]. intros Hin.
    apply negb_true_iff in H.
    assert (Hex : existsb (Z.eqb k) l = true)
      by (apply existsb_exists; exists k; split; [exact Hin|apply Z.eqb_refl]).
    congruence.
  - apply andb_prop in H as [_ H]. auto.
Qed.

Lemma of_entries_size_le {V} (es : list (Z * V)) :
  (JsMap.size (JsMap.of_entries es) <= length es)%nat.
Proof.
  unfold JsMap.of_entries.
  assert (G : forall acc : JsMap.t V,
             (JsMap.size (fold_left (fun m e => JsMap.set (fst e) (snd e) m) es acc)
              <= JsMap.size acc + length es)%nat).
  { induction es as [|e es IH]; intros acc; simpl; [lia|].
    specialize (IH (JsMap.set (fst e) (snd e) acc)).
    pose proof (JsMap.size_set_le (fst e) (snd e) acc). lia. }
  apply (G JsMap.empty).
Qed.

Lemma of_entries_get {V} (es : list (Z * V)) k :
  ~ In k (map fst es) -> JsMap.get k (JsMap.of_entries es) = None.
Proof.
  unfold JsMap.of_entries.
  assert (G : forall acc : JsMap.t V,
             ~ In k (map fst es) -> JsMap.get k acc = None ->
             JsMap.get k (fold_left (fun m e => JsMap.set (fst e) (snd e) m) es acc) = None).
  { induction es as [|e es IH]; intros acc Hk Hacc; simpl in *; [exact Hacc|].
    apply IH; [tauto|].
    rewrite JsMap.get_set_other; [exact Hacc|]. intros ->. tauto. }
  intros Hk. now apply G.
Qed.

Lemma ascending_app_le {A} (key : A -> Z) (l1 l2 : list A) a b :
  ascending key (l1 ++ l2) -> In a l1 -> In b l2 -> key a <= key b.
Proof.
  induction l1 as [|x l1 IH]; simpl; intros Hs Ha Hb; [destruct Ha|].
  apply StronglySorted_inv in Hs as [Hs Hall].
  destruct Ha as [->|Ha]; [|now apply IH].
  rewrite Forall_forall in Hall. apply Hall. apply in_or_app. now right.
Qed.

(** The comparator of the eviction is a ranking: by age. *)
Lemma newest_first_ranked (entries : list (Z * CacheEntry)) :
  ranked_by newest_first (fun e => - timestamp (snd e)) entries.
Proof.
  intros a b _ _. unfold newest_first.
  rewrite <- Z.compare_sub. now rewrite Z.compare_opp.
Qed.

Section CacheFacts.
Variable E : SortEngine.

Lemma save_without_storage s :
  storage_available s = false -> saveCacheToStorage E s = s.
Proof. intros H. unfold saveCacheToStorage. now rewrite H. Qed.

Lemma save_small s :
  (JsMap.size (cache s) <= 200)%nat -> cache (saveCacheToStorage E s) = cache s.
Proof.
  intros H. unfold saveCacheToStorage, JsMap.size in *.
  destruct (storage_available s); [|reflexivity].
  destruct (Nat.ltb_spec 200 (length (cache s))); [lia|reflexivity].
Qed.

Lemma save_large s :
  storage_available s = true -> (200 < JsMap.size (cache s))%nat ->
  cache (saveCacheToStorage E s) =
  JsMap.of_entries (firstn 150 (js_sort E newest_first (cache s))).
Proof.
  intros Hst H. unfold saveCacheToStorage, JsMap.size in *. rewrite Hst.
  destruct (Nat.ltb_spec 200 (length (cache s))); [reflexivity|lia].
Qed.

(** Nothing but the cache and its stored copy is touched by a save. *)
Lemma save_prData s : prData (saveCacheToStorage E s) = prData s.
Proof.
  unfold saveCacheToStorage. destruct (storage_available s); [|reflexivity].
  destruct (200 <? length (cache s))%nat; reflexivity.
Qed.

Lemma save_requests s : requests (saveCacheToStorage E s) = requests s.
Proof.
  unfold saveCacheToStorage. destruct (storage_available s); [|reflexivity].
  destruct (200 <? length (cache s))%nat; reflexivity.
Qed.

Lemma save_clock_eq s : clock (saveCacheToStorage E s) = clock s.
Proof.
  unfold saveCacheToStorage. destruct (storage_available s); [|reflexivity].
  destruct (200 <? length (cache s))%nat; reflexivity.
Qed.

Lemma save_storage s :
  storage_available (saveCacheToStorage E s) = storage_available s.
Proof.
  unfold saveCacheToStorage. destruct (storage_available s) eqn:H; [|exact H].
  destruct (200 <? length (cache s))%nat; exact H.
Qed.

Lemma save_token s : githubToken (saveCacheToStorage E s) = githubToken s.
Proof.
  unfold saveCacheToStorage. destruct (storage_available s); [|reflexivity].
  destruct (200 <? length (cache s))%nat; reflexivity.
Qed.

Lemma save_page s : page (saveCacheToStorage E s) = page s.
Proof.
  unfold saveCacheToStorage. destruct (storage_available s); [|reflexivity].
  destruct (200 <? length (cache s))%nat; reflexivity.
Qed.

Lemma save_console s : console (saveCacheToStorage E s) = console s.
Proof.
  unfold saveCacheToStorage. destruct (storage_available s); [|reflexivity].
  destruct (200 <? length (cache s))%nat; reflexivity.
Qed.

Lemma save_sortOrder s : sortOrder (saveCacheToStorage E s) = sortOrder s.
Proof.
  unfold saveCacheToStorage. destruct (storage_available s); [|reflexivity].
  destruct (200 <? length (cache s))%nat; reflexivity.
Qed.

Lemma save_authenticated s :
  authenticated (saveCacheToStorage E s) = authenticated s.
Proof. unfold authenticated. now rewrite save_token. Qed.

Lemma save_bound s :
  storage_available s = true ->
  (JsMap.size (cache (saveCacheToStorage E s)) <= 200)%nat.
Proof.
  intros Hst.
  destruct (Nat.le_gt_cases (JsMap.size (cache s)) 200) as [Hle|Hgt].
  - now rewrite save_small.
  - rewrite save_large by assumption.
    etransitivity; [apply of_entries_size_le|].
    pose proof (firstn_le_length 150 (js_sort E newest_first (cache s))). lia.
Qed.

Lemma save_clock t s :
  cache (saveCacheToStorage E (with_clock t s)) = cache (saveCacheToStorage E s).
Proof.
  unfold saveCacheToStorage.
  change (storage_available (with_clock t s)) with (storage_available s).
  change (cache (with_clock t s)) with (cache s).
  destruct (storage_available s); [|reflexivity].
  destruct (200 <? length (cache s))%nat; reflexivity.
Qed.

Lemma kept_distinct (c : JsMap.t CacheEntry) :
  JsMap.wf c -> NoDup (map fst (firstn 150 (js_sort E newest_first c))).
Proof.
  intros Hwf.
  assert (Hnd : NoDup (map fst (js_sort E newest_first c))).
  { eapply Permutation_NoDup; [|exact Hwf].
    apply Permutation_map. symmetry. apply js_sort_permutation. }
  rewrite <- (firstn_skipn 150 (js_sort E newest_first c)), map_app in Hnd.
  now apply NoDup_app_remove_r in Hnd.
Qed.

(** What the eviction keeps, once it is triggered. *)
Lemma save_large_kept s :
  storage_available s = true -> JsMap.wf (cache s) ->
  (200 < JsMap.size (cache s))%nat ->
  cache (saveCacheToStorage E s) = firstn 150 (js_sort E newest_first (cache s)).
Proof.
  intros Hst Hwf Hgt. rewrite save_large by assumption.
  apply JsMap.of_entries_distinct, kept_distinct, Hwf.
Qed.

Lemma save_wf s : JsMap.wf (cache s) -> JsMap.wf (cache (saveCacheToStorage E s)).
Proof.
  intros Hwf.
  destruct (storage_available s) eqn:Hst;
    [|now rewrite save_without_storage].
  destruct (Nat.le_gt_cases (JsMap.size (cache s)) 200) as [Hle|Hgt].
  - now rewrite save_small.
  - rewrite save_large_kept by assumption. now apply kept_distinct.
Qed.

Lemma setCache_prData k d s : prData (setCache E k d s) = prData s.
Proof. unfold setCache. now rewrite save_prData. Qed.

Lemma setCache_requests k d s : requests (setCache E k d s) = requests s.
Proof. unfold setCache. now rewrite save_requests. Qed.

Lemma setCache_clock k d s : clock (setCache E k d s) = clock s.
Proof. unfold setCache. now rewrite save_clock_eq. Qed.

Lemma setCache_storage k d s :
  storage_available (setCache E k d s) = storage_available s.
Proof. unfold setCache. now rewrite save_storage. Qed.

Lemma setCache_authenticated k d s :
  authenticated (setCache E k d s) = authenticated s.
Proof. unfold setCache. now rewrite save_authenticated. Qed.

Lemma setCache_page k d s : page (setCache E k d s) = page s.
Proof. unfold setCache. now rewrite save_page. Qed.

Lemma setCache_bound k d s :
  storage_available s = true ->
  (JsMap.size (cache (setCache E k d s)) <= 200)%nat.
Proof. intros Hst. unfold setCache. now apply save_bound. Qed.

Lemma setCache_wf k d s :
  JsMap.wf (cache s) -> JsMap.wf (cache (setCache E k d s)).
Proof.
  intros Hwf. unfold setCache. apply save_wf. cbn. now apply JsMap.wf_set.
Qed.

Lemma put_all_storage ops s :
  storage_available (put_all E ops s) = storage_available s.
Proof.
  revert s. induction ops as [|op ops IH]; intros s; [reflexivity|].
  unfold put_all in *. simpl. rewrite IH. now rewrite setCache_storage.
Qed.

Lemma put_all_snoc ops op s :
  put_all E (ops ++ [op]) s =
  setCache E (fst (snd op)) (snd (snd op)) (with_clock (fst op) (put_all E ops s)).
Proof. unfold put_all. now rewrite fold_left_app. Qed.

Lemma put_all_bound ops s :
  storage_available s = true -> ops <> [] ->
  (JsMap.size (cache (put_all E ops s)) <= 200)%nat.
Proof.
  intros Hst Hne.
  destruct (exists_last Hne) as (ops' & op & ->).
  rewrite put_all_snoc. apply setCache_bound. cbn.
  now rewrite put_all_storage.
Qed.

End CacheFacts.

(** C2, as the script has it.  Capacity of the cache.  The eviction is
    part of [saveCacheToStorage] and runs only where the browser storage is
    available.  Where it is:
    after a put, and after any non-empty sequence of puts, the cache holds at
    most 200 entries; a cache of more than 200 entries is cut by the eviction
    to exactly 150 of its entries, each of them at least as recent as every
    entry it drops, whatever the clock says about their age; a cache of at
    most 200 entries is left as it is. *)
Theorem cache_capacity (E : SortEngine) (s : State) :
  storage_available s = true ->
  JsMap.wf (cache s) ->
  (forall k d, (JsMap.size (cache (setCache E k d s)) <= 200)%nat)
  /\ (forall ops, ops <> [] -> (JsMap.size (cache (put_all E ops s)) <= 200)%nat)
  /\ ((200 < JsMap.size (cache s))%nat ->
      let kept := cache (saveCacheToStorage E s) in
      JsMap.size kept = 150%nat
      /\ incl kept (cache s)
      /\ (forall e e', In e kept -> In e' (cache s) -> ~ In e' kept ->
                       timestamp (snd e') <= timestamp (snd e))
      /\ (forall now, cache (saveCacheToStorage E (with_clock now s)) = kept))
  /\ ((JsMap.size (cache s) <= 200)%nat ->
      cache (saveCacheToStorage E s) = cache s).
Proof.
  intros Hst Hwf. split; [|split; [|split]].
  - intros k d. now apply setCache_bound.
  - intros ops Hne. now apply put_all_bound.
  - intros Hgt. cbv zeta. rewrite save_large_kept by assumption.
    set (sorted := js_sort E newest_first (cache s)).
    assert (Hperm : Permutation sorted (cache s)) by apply js_sort_permutation.
    assert (Hlen : length sorted = length (cache s))
      by now apply Permutation_length.
    assert (Hin : forall e, In e (firstn 150 sorted) -> In e sorted).
    { intros e He. rewrite <- (firstn_skipn 150 sorted).
      apply in_or_app. now left. }
    repeat split.
    + unfold JsMap.size in *. rewrite length_firstn. lia.
    + intros e He. eapply Permutation_in; [exact Hperm|]. now apply Hin.
    + intros e e' He He' Hout.
      assert (Hs' : In e' (skipn 150 sorted)).
      { assert (H0 : In e' sorted)
          by (eapply Permutation_in; [symmetry; exact Hperm|exact He']).
        rewrite <- (firstn_skipn 150 sorted) in H0.
        apply in_app_or in H0 as [H0|H0]; [contradiction|exact H0]. }
      pose proof (js_sort_ascending E _ newest_first _ (cache s)
                    (newest_first_ranked (cache s))) as Hasc.
      fold sorted in Hasc. rewrite <- (firstn_skipn 150 sorted) in Hasc.
      pose proof (ascending_app_le _ _ _ e e' Hasc He Hs'). simpl in *. lia.
    + intros now. rewrite save_clock. now apply save_large_kept.
  - apply save_small.
Qed.

(* ================================================================== *)
(** ** Sample inputs *)
(* ================================================================== *)

Definition sample_record (n : Z) (association : string) : PRData :=
  mkPRData n (JStr association) "2024-05-01T10:00:00Z" "octocat".

(** [count] cache entries for the pull requests 1, 2, ..., stored at the
    times given by [stored_at]. *)
Definition sample_cache (count : nat) (stored_at : Z -> Z) : JsMap.t CacheEntry :=
  map (fun i => (Z.of_nat i,
                 mkCacheEntry (sample_record (Z.of_nat i) "MEMBER")
                              (stored_at (Z.of_nat i))))
      (seq 1 count).

Definition empty_page : Document := mkDocument [] None [].

Definition listing_url : string := "https://github.com/octo/repo/pulls".

(** A session whose cache holds 201 entries, stored one millisecond apart. *)
Definition overfull_session : State :=
  mkState JsMap.empty "default" None (sample_cache 201 (fun i => 1000 + i))
          listing_url empty_page 5000 true None None [] [].

(** A session whose 200 cache entries carry a time stamp that lies ahead of
    the clock (they were stored before the clock was set back). *)
Definition skewed_session : State :=
  mkState JsMap.empty "default" None (sample_cache 200 (fun _ => 2000000))
          listing_url empty_page 1000000 true None None [] [].

Lemma cache_capacity_witness :
  storage_available overfull_session = true
  /\ JsMap.wf (cache overfull_session)
  /\ (JsMap.size (cache (saveCacheToStorage insertion_engine overfull_session)) = 150)%nat.
Proof.
  assert (Hst : storage_available overfull_session = true) by reflexivity.
  assert (Hwf : JsMap.wf (cache overfull_session))
    by (apply distinct_numbers_NoDup; vm_compute; reflexivity).
  split; [exact Hst|split; [exact Hwf|]].
  destruct (cache_capacity insertion_engine overfull_session Hst Hwf)
    as (_ & _ & Hevict & _).
  apply Hevict. vm_compute. lia.
Defined.

(** A session without browser storage whose cache holds 200 entries. *)
Definition offline_session : State :=
  mkState JsMap.empty "default" None (sample_cache 200 (fun i => 1000 + i))
          listing_url empty_page 5000 false None None [] [].

(** C2, as the claim words it, fails: it states the bound for every put.
    Without the browser storage [saveCacheToStorage] does nothing, so a put
    of a new identifier into a cache of 200 entries leaves 201 entries, and
    nothing cuts them back. *)
Lemma capacity_without_storage :
  let put := setCache insertion_engine 201 (sample_record 201 "NONE") offline_session in
  storage_available offline_session = false
  /\ JsMap.size (cache offline_session) = 200%nat
  /\ JsMap.size (cache put) = 201%nat
  /\ JsMap.size (cache (saveCacheToStorage insertion_engine put)) = 201%nat
  /\ JsMap.size (cache (saveCacheToStorage merge_engine put)) = 201%nat
  /\ JsMap.size (cache (saveCacheToStorage binary_insertion_engine put)) = 201%nat.
Proof.
  vm_compute. repeat split.
Qed.

(* ================================================================== *)
(** ** The classifier *)
(* ================================================================== *)

(** C9. The classifier is a total function of the association value: it
    answers 1 exactly on the three strings FIRST_TIMER,
    FIRST_TIME_CONTRIBUTOR and NONE, and 2 on every other value, strings and
    non-strings alike; being a function, it answers the same on the same
    input. *)
Theorem classifier_tiers (v : JsValue) :
  (getContributorPriority v = 1 <->
     (v = JStr "FIRST_TIMER" \/ v = JStr "FIRST_TIME_CONTRIBUTOR" \/ v = JStr "NONE"))
  /\ (getContributorPriority v = 2 <->
        ~ (v = JStr "FIRST_TIMER" \/ v = JStr "FIRST_TIME_CONTRIBUTOR" \/ v = JStr "NONE"))
  /\ (forall v', v' = v -> getContributorPriority v' = getContributorPriority v).
Proof.
  assert (Hdec : (v = JStr "FIRST_TIMER" \/ v = JStr "FIRST_TIME_CONTRIBUTOR" \/ v = JStr "NONE")
                 /\ getContributorPriority v = 1
                 \/ ~ (v = JStr "FIRST_TIMER" \/ v = JStr "FIRST_TIME_CONTRIBUTOR" \/ v = JStr "NONE")
                    /\ getContributorPriority v = 2).
  { unfold getContributorPriority, newContributorStatuses. simpl.
    destruct v as [| |b|z|t]; simpl;
      try (right; split; [intros [H|[H|H]]; discriminate H|reflexivity]).
    destruct (String.eqb_spec t "FIRST_TIMER") as [->|H1]; [left; tauto|].
    destruct (String.eqb_spec t "FIRST_TIME_CONTRIBUTOR") as [->|H2]; [left; tauto|].
    destruct (String.eqb_spec t "NONE") as [->|H3]; [left; tauto|].
    right. split; [|reflexivity]. intros [H|[H|H]]; congruence. }
  split; [|split].
  - destruct Hdec as [[H ->]|[H ->]]; split; intros; try tauto; discriminate.
  - destruct Hdec as [[H ->]|[H ->]]; split; intros; try tauto; discriminate.
  - intros v' ->. reflexivity.
Qed.

(* ================================================================== *)
(** ** Reading the cache after a put *)
(* ================================================================== *)

(** The put of [r] under [i] is kept when it is still in the cache once
    the eviction of that put has run. *)
Definition put_kept (E : SortEngine) (i : Z) (r : PRData) (s : State) : Prop :=
  JsMap.get i (cache (setCache E i r s)) = Some (mkCacheEntry r (clock s)).

(** Every other entry of the cache is strictly older than the clock. *)
Definition others_older (i : Z) (s : State) : Prop :=
  forall k e, In (k, e) (cache s) -> k <> i -> timestamp e < clock s.

Lemma In_set_other {V} (k k' : Z) (v v' : V) (m : JsMap.t V) :
  In (k', v') (JsMap.set k v m) -> k' <> k -> In (k', v') m.
Proof.
  induction m as [|[k0 v0] m IH]; simpl; intros H Hne.
  - destruct H as [H|[]]. congruence.
  - destruct (Z.eqb_spec k0 k) as [->|Hk].
    + destruct H as [H|H]; [congruence|now right].
    + destruct H as [H|H]; [now left|right; auto].
Qed.

Section GetAfterPut.
Variable E : SortEngine.

Lemma save_get_None i s :
  JsMap.get i (cache s) = None ->
  JsMap.get i (cache (saveCacheToStorage E s)) = None.
Proof.
  intros Hnone.
  destruct (storage_available s) eqn:Hst;
    [|now rewrite save_without_storage].
  destruct (Nat.le_gt_cases (JsMap.size (cache s)) 200) as [Hle|Hgt].
  - now rewrite save_small.
  - rewrite save_large by assumption. apply of_entries_get.
    intros Hin. apply JsMap.get_None_keys in Hnone. apply Hnone.
    apply in_map_iff in Hin as [e [He Hin]].
    apply in_map_iff. exists e. split; [exact He|].
    eapply Permutation_in; [apply (js_sort_permutation E)|].
    rewrite <- (firstn_skipn 150 (js_sort E newest_first (cache s))).
    apply in_or_app. left. exact Hin.
Qed.

(** Whatever is found under [i] after the put is the entry just put. *)
Lemma setCache_get i r s e :
  JsMap.wf (cache s) ->
  JsMap.get i (cache (setCache E i r s)) = Some e ->
  e = mkCacheEntry r (clock s).
Proof.
  intros Hwf. unfold setCache.
  set (s0 := with_cache (JsMap.set i (mkCacheEntry r (clock s)) (cache s)) s).
  assert (Hwf0 : JsMap.wf (cache s0)) by now apply JsMap.wf_set.
  assert (Hget0 : JsMap.get i (cache s0) = Some (mkCacheEntry r (clock s)))
    by apply JsMap.get_set_same.
  destruct (storage_available s0) eqn:Hst;
    [|rewrite save_without_storage by exact Hst; congruence].
  destruct (Nat.le_gt_cases (JsMap.size (cache s0)) 200) as [Hle|Hgt].
  - rewrite save_small by exact Hle. congruence.
  - rewrite save_large_kept by assumption. intros Hget.
    apply JsMap.get_In in Hget.
    assert (Hin : In (i, e) (cache s0)).
    { eapply Permutation_in; [apply (js_sort_permutation E)|].
      rewrite <- (firstn_skipn 150 (js_sort E newest_first (cache s0))).
      apply in_or_app. left. exact Hget. }
    apply (JsMap.In_get _ _ _ Hwf0) in Hin. congruence.
Qed.

Lemma put_kept_small i r s :
  (JsMap.size (cache s) < 200)%nat -> put_kept E i r s.
Proof.
  intros Hlt. unfold put_kept, setCache. rewrite save_small.
  - apply JsMap.get_set_same.
  - change (JsMap.size (JsMap.set i (mkCacheEntry r (clock s)) (cache s)) <= 200)%nat.
    pose proof (JsMap.size_set_le i (mkCacheEntry r (clock s)) (cache s)). lia.
Qed.

Lemma put_kept_without_storage i r s :
  storage_available s = false -> put_kept E i r s.
Proof.
  intros Hst. unfold put_kept, setCache.
  rewrite save_without_storage by exact Hst. apply JsMap.get_set_same.
Qed.

(** The most recent entry is the first one the eviction keeps. *)
Lemma put_kept_newest i r s :
  JsMap.wf (cache s) -> others_older i s -> put_kept E i r s.
Proof.
  intros Hwf Hold. unfold put_kept, setCache.
  set (new := mkCacheEntry r (clock s)).
  set (s0 := with_cache (JsMap.set i new (cache s)) s).
  assert (Hwf0 : JsMap.wf (cache s0)) by now apply JsMap.wf_set.
  assert (Hget0 : JsMap.get i (cache s0) = Some new) by apply JsMap.get_set_same.
  destruct (storage_available s0) eqn:Hst;
    [|rewrite save_without_storage by exact Hst; exact Hget0].
  destruct (Nat.le_gt_cases (JsMap.size (cache s0)) 200) as [Hle|Hgt].
  - rewrite save_small by exact Hle. exact Hget0.
  - rewrite save_large_kept by assumption.
    set (sorted := js_sort E newest_first (cache s0)).
    assert (Hperm : Permutation sorted (cache s0)) by apply js_sort_permutation.
    assert (Hasc : ascending (fun e => - timestamp (snd e)) sorted)
      by (apply js_sort_ascending, newest_first_ranked).
    assert (Hnew : In (i, new) sorted).
    { eapply Permutation_in; [symmetry; exact Hperm|]. now apply JsMap.get_In. }
    apply JsMap.In_get; [apply kept_distinct; exact Hwf0|]. fold sorted.
    destruct sorted as [|[k e] rest] eqn:Hsorted; [destruct Hnew|].
    simpl. left.
    destruct (Z.eq_dec k i) as [->|Hk].
    + f_equal.
      assert (Hin : In (i, e) (cache s0))
        by (eapply Permutation_in; [exact Hperm|now left]).
      apply (JsMap.In_get _ _ _ Hwf0) in Hin. congruence.
    + exfalso.
      assert (Hin : In (k, e) (cache s0))
        by (eapply Permutation_in; [exact Hperm|now left]).
      apply In_set_other in Hin; [|exact Hk].
      pose proof (Hold k e Hin Hk) as Hlt.
      destruct Hnew as [Heq|Hrest]; [congruence|].
      apply StronglySorted_inv in Hasc as [_ Hall].
      rewrite Forall_forall in Hall. specialize (Hall _ Hrest).
      simpl in Hall. lia.
Qed.

Lemma getFromCache_fresh i e s :
  JsMap.get i (cache s) = Some e ->
  clock s - timestamp e < cacheExpiry ->
  getFromCache E i s = (Some (data e), s).
Proof.
  intros Hget Hage. unfold getFromCache. rewrite Hget.
  destruct (Z.ltb_spec (clock s - timestamp e) cacheExpiry); [reflexivity|lia].
Qed.

Lemma getFromCache_expired i e s :
  JsMap.get i (cache s) = Some e ->
  cacheExpiry <= clock s - timestamp e ->
  getFromCache E i s =
  (None, saveCacheToStorage E (with_cache (JsMap.delete i (cache s)) s)).
Proof.
  intros Hget Hage. unfold getFromCache. rewrite Hget.
  destruct (Z.ltb_spec (clock s - timestamp e) cacheExpiry); [lia|reflexivity].
Qed.

Lemma getFromCache_absent i s :
  JsMap.get i (cache s) = None -> getFromCache E i s = (None, s).
Proof. intros Hget. unfold getFromCache. now rewrite Hget. Qed.

End GetAfterPut.

(** C3, as the script has it.  A put is kept unless its own eviction drops
    it, and it is kept whenever the cache held fewer than 200 entries, or
    the storage is not available, or every other entry is strictly older
    than the put.  A kept put is read back unchanged, and without any change
    of the state, as long as its age is below the 30 minutes.  From the
    moment the age reaches 30 minutes a read answers absence and leaves no
    entry under the identifier; a read of an identifier without entry answers
    absence and changes nothing, so every later read answers absence too.
    [getFromCache] is a total function: there is no failure to model. *)
Theorem cache_get_after_put (E : SortEngine) (s : State) (i : Z) (r : PRData) :
  JsMap.wf (cache s) ->
  let s1 := setCache E i r s in
  (((JsMap.size (cache s) < 200)%nat \/ storage_available s = false
    \/ others_older i s) -> put_kept E i r s)
  /\ (put_kept E i r s ->
      forall now, now - clock s < cacheExpiry ->
        getFromCache E i (with_clock now s1) = (Some r, with_clock now s1))
  /\ (forall now, cacheExpiry <= now - clock s ->
        fst (getFromCache E i (with_clock now s1)) = None
        /\ JsMap.get i (cache (snd (getFromCache E i (with_clock now s1)))) = None)
  /\ (forall s', JsMap.get i (cache s') = None ->
        getFromCache E i s' = (None, s')).
Proof.
  intros Hwf s1. split; [|split; [|split]].
  - intros [H|[H|H]].
    + now apply put_kept_small.
    + now apply put_kept_without_storage.
    + now apply put_kept_newest.
  - intros Hkept now Hage.
    apply (getFromCache_fresh E i (mkCacheEntry r (clock s))); assumption.
  - intros now Hage.
    destruct (JsMap.get i (cache (with_clock now s1))) as [e|] eqn:Hget.
    + assert (He : e = mkCacheEntry r (clock s))
        by (apply (setCache_get E i r s e Hwf); exact Hget).
      rewrite (getFromCache_expired E i e) by (subst e; assumption).
      split; [reflexivity|]. simpl. apply save_get_None.
      apply JsMap.get_delete_same.
    + rewrite getFromCache_absent by exact Hget. split; [reflexivity|exact Hget].
  - intros s' Hnone. now apply getFromCache_absent.
Qed.

Lemma cache_get_after_put_witness :
  JsMap.wf (cache overfull_session)
  /\ fst (getFromCache insertion_engine 7
            (with_clock (clock overfull_session + cacheExpiry)
               (setCache insertion_engine 7 (sample_record 7 "NONE")
                         overfull_session))) = None.
Proof.
  assert (Hwf : JsMap.wf (cache overfull_session))
    by (apply distinct_numbers_NoDup; vm_compute; reflexivity).
  split; [exact Hwf|].
  apply (cache_get_after_put insertion_engine overfull_session 7
           (sample_record 7 "NONE") Hwf).
  lia.
Defined.

(** C3, as the claim words it, fails: a put made while 200 entries carry a
    later time stamp is dropped by its own eviction, and the read that
    follows at once, at age 0, answers absence. *)
Lemma fresh_put_evicted :
  let r := sample_record 201 "NONE" in
  let s1 := setCache insertion_engine 201 r skewed_session in
  clock s1 - clock skewed_session < cacheExpiry
  /\ fst (getFromCache insertion_engine 201 s1) = None
  /\ fst (getFromCache insertion_engine 201 s1) <> Some r.
Proof.
  vm_compute. split; [reflexivity|split; [reflexivity|discriminate]].
Qed.

(* ================================================================== *)
(** ** Restoring the original order *)
(* ================================================================== *)

(** The rows of the listing, in display order. *)
Definition listing (s : State) : list Row :=
  match container (page s) with
  | Some c => rows c
  | None => []
  end.

(** What a row is, apart from the stamp and the badge the script adds. *)
Definition item (r : Row) : list string * string :=
  (row_links r, row_content r).

(** The original position a row is stamped with, as [restoreDefaultOrder]
    reads it. *)
Definition stamp_key (r : Row) : option Z := parseInt (original_index_or_0 r).

Definition position (r : Row) : Z := nan_to_zero (stamp_key r).

(** The stamps of a list of rows are the positions [base], [base + 1], ... *)
Definition stamped_from (base : nat) (l : list Row) : Prop :=
  map stamp_key l = map (fun j => Some (Z.of_nat j)) (seq base (length l)).

Lemma position_of_stamp r j : stamp_key r = Some j -> position r = j.
Proof. unfold position. now intros ->. Qed.

Lemma stamped_positions base l :
  stamped_from base l -> map position l = map Z.of_nat (seq base (length l)).
Proof.
  unfold stamped_from. revert base. induction l as [|r l IH]; intros base H; simpl in *;
    [reflexivity|].
  injection H as Hr Hl. f_equal; [now apply position_of_stamp|now apply IH].
Qed.

Lemma stamped_ascending base l : stamped_from base l -> ascending position l.
Proof.
  intros H. apply stamped_positions in H. revert base H.
  induction l as [|r l IH]; intros base H; simpl in *; constructor.
  - injection H as _ Hl. now apply (IH (S base)).
  - injection H as Hr Hl. apply Forall_forall. intros x Hx.
    assert (Hin : In (position x) (map position l)) by now apply in_map.
    rewrite Hl in Hin. apply in_map_iff in Hin as [j [Hj Hin]].
    apply in_seq in Hin. lia.
Qed.

Lemma stamped_distinct base l : stamped_from base l -> NoDup (map position l).
Proof.
  intros H. rewrite (stamped_positions base l H).
  apply Injective_map_NoDup; [|apply seq_NoDup].
  intros a b. apply Nat2Z.inj.
Qed.

Lemma stamped_defined base l r :
  stamped_from base l -> In r l -> stamp_key r <> None.
Proof.
  unfold stamped_from. intros H Hr.
  assert (Hin : In (stamp_key r) (map stamp_key l)) by now apply in_map.
  rewrite H in Hin. apply in_map_iff in Hin as [j [Hj _]]. congruence.
Qed.

(** On rows whose stamp reads as a number the comparator of the restore is
    the ranking by that number. *)
Lemma index_comparator_ranked (l : list Row) :
  (forall r, In r l -> stamp_key r <> None) ->
  ranked_by index_comparator position l.
Proof.
  intros Hdef a b Ha Hb. unfold index_comparator, position.
  fold (stamp_key a). fold (stamp_key b).
  destruct (stamp_key a) as [ia|] eqn:Ea; [|now apply Hdef in Ha].
  destruct (stamp_key b) as [ib|] eqn:Eb; [|now apply Hdef in Hb].
  simpl. now rewrite <- Z.compare_sub.
Qed.

(** Sorting any arrangement of stamped rows by the stamp gives them back in
    the order of the stamps. *)
Lemma restore_sorted (E : SortEngine) (l l0 : list Row) base :
  stamped_from base l0 -> Permutation l l0 ->
  js_sort E index_comparator l = l0.
Proof.
  intros Hst Hperm.
  assert (Hranked : ranked_by index_comparator position l).
  { apply index_comparator_ranked. intros r Hr.
    apply (stamped_defined base l0); [exact Hst|].
    eapply Permutation_in; [exact Hperm|exact Hr]. }
  apply (ascending_classes_unique position).
  - now apply js_sort_ascending.
  - now apply (stamped_ascending base).
  - intros k. rewrite (js_sort_stable E _ _ _ _ Hranked).
    apply Permutation_short.
    + apply Permutation_filter_same, Hperm.
    + apply with_key_distinct. now apply (stamped_distinct base).
Qed.

Lemma toString_not_empty (z : Z) : 0 <= z -> toString z <> "".
Proof.
  intros Hz H. pose proof (parseInt_toString z Hz) as P.
  rewrite H in P. discriminate P.
Qed.

Lemma stamp_key_set (r : Row) (j : nat) :
  stamp_key (set_original_index (toString (Z.of_nat j)) r) = Some (Z.of_nat j).
Proof.
  unfold stamp_key, original_index_or_0. simpl.
  destruct (String.eqb_spec (toString (Z.of_nat j)) "") as [H|_].
  - now apply toString_not_empty in H; [|lia].
  - apply parseInt_toString. lia.
Qed.

Lemma stamp_from_length base l : length (stamp_from base l) = length l.
Proof. revert base. induction l; intros; simpl; auto. Qed.

Lemma stamp_from_stamped base l : stamped_from base (stamp_from base l).
Proof.
  unfold stamped_from. revert base.
  induction l as [|r l IH]; intros base; simpl; [reflexivity|].
  rewrite stamp_key_set. f_equal. apply IH.
Qed.

Lemma stamp_from_items base l : map item (stamp_from base l) = map item l.
Proof. revert base. induction l; intros; simpl; [|f_equal]; auto. Qed.

Lemma add_badge_stamp s r : stamp_key (add_badge s r) = stamp_key r.
Proof.
  unfold add_badge.
  destruct (record_of s (row_number r)), (badge r), (first_pull_link r); reflexivity.
Qed.

Lemma add_badge_index s r : original_index (add_badge s r) = original_index r.
Proof.
  unfold add_badge.
  destruct (record_of s (row_number r)), (badge r), (first_pull_link r); reflexivity.
Qed.

Lemma add_badge_item s r : item (add_badge s r) = item r.
Proof.
  unfold add_badge.
  destruct (record_of s (row_number r)), (badge r), (first_pull_link r); reflexivity.
Qed.

Lemma add_badge_items s l : map item (map (add_badge s) l) = map item l.
Proof.
  rewrite map_map. apply map_ext. intros r. apply add_badge_item.
Qed.

Lemma add_badge_stamped s base l :
  stamped_from base l -> stamped_from base (map (add_badge s) l).
Proof.
  unfold stamped_from. intros H. rewrite map_map, length_map.
  rewrite <- H. apply map_ext. intros r. apply add_badge_stamp.
Qed.

(** The rows a container is sorted from: stamped now, unless it carries the
    mark of an earlier stamping. *)
Definition rows_to_sort (c : Container) : list Row :=
  if has_original_order c then rows c else stamp_from 0 (rows c).

Section Restore.
Variable E : SortEngine.

Lemma applySorting_listing s c :
  container (page s) = Some c ->
  listing (applySorting E s) =
  map (add_badge s) (js_sort E (tier_comparator s) (rows_to_sort c)).
Proof.
  intros Hc. unfold applySorting, listing, rows_to_sort. rewrite Hc.
  destruct (rows c) as [|r l] eqn:Hrows.
  - rewrite Hc, Hrows.
    assert (Hnil : js_sort E (tier_comparator s)
                     (if has_original_order c then [] else stamp_from 0 []) = []).
    { apply Permutation_nil. symmetry.
      destruct (has_original_order c); apply js_sort_permutation. }
    now rewrite Hnil.
  - simpl. destruct (has_original_order c); simpl; now rewrite ?Hrows.
Qed.

Lemma applySorting_mark s c :
  container (page s) = Some c -> rows c <> [] ->
  exists c', container (page (applySorting E s)) = Some c'
             /\ has_original_order c' = true.
Proof.
  intros Hc Hne. unfold applySorting. rewrite Hc.
  destruct (rows c) as [|r l]; [congruence|].
  eexists. split; [reflexivity|].
  simpl. destruct (has_original_order c) eqn:Hmark; [exact Hmark|reflexivity].
Qed.

Lemma applySorting_empty s c :
  container (page s) = Some c -> rows c = [] -> applySorting E s = s.
Proof. intros Hc Hrows. unfold applySorting. now rewrite Hc, Hrows. Qed.

Lemma applySorting_permutation s c :
  container (page s) = Some c ->
  Permutation (listing (applySorting E s)) (map (add_badge s) (rows_to_sort c)).
Proof.
  intros Hc. rewrite (applySorting_listing s c Hc).
  apply Permutation_map, js_sort_permutation.
Qed.

Lemma restoreDefaultOrder_listing s :
  listing (restoreDefaultOrder E s) = js_sort E index_comparator (listing s).
Proof.
  unfold restoreDefaultOrder, listing.
  destruct (container (page s)) as [c|] eqn:Hc; simpl.
  - reflexivity.
  - rewrite Hc. symmetry. apply Permutation_nil. symmetry.
    apply js_sort_permutation.
Qed.

Lemma listing_same_page s s' : page s' = page s -> listing s' = listing s.
Proof. unfold listing. now intros ->. Qed.

(** Restoring any arrangement of stamped rows. *)
Lemma restore_listing s l0 :
  stamped_from 0 l0 -> Permutation (listing s) l0 ->
  listing (restoreDefaultOrder E s) = l0.
Proof.
  intros Hst Hperm. rewrite restoreDefaultOrder_listing.
  now apply (restore_sorted E _ _ 0).
Qed.

End Restore.

(** C1. Let the container be unmarked, so that the first [applySorting]
    stamps all its rows together.  Then [restoreDefaultOrder] after that
    [applySorting], under any sort order and any records, shows the rows in
    their original order: the very rows, each with its stamp and its badge.
    The stamps are the original positions 0, 1, 2, ..., and the restored
    listing is ascending in them.  A later [applySorting], whatever the order
    and the records then, leaves every stamp as it is: each row keeps its
    stamp, and the restore after it shows the original order again. *)
Theorem restore_after_sort (E : SortEngine) (s : State) (c : Container) :
  container (page s) = Some c ->
  has_original_order c = false ->
  let original := map (add_badge s) (stamp_from 0 (rows c)) in
  forall s1, page s1 = page (applySorting E s) ->
  listing (restoreDefaultOrder E s1) = original
  /\ map item (listing (restoreDefaultOrder E s1)) = map item (rows c)
  /\ map stamp_key original
     = map (fun j => Some (Z.of_nat j)) (seq 0 (length (rows c)))
  /\ ascending position (listing (restoreDefaultOrder E s1))
  /\ Permutation (map (fun r => (item r, original_index r))
                      (listing (applySorting E s1)))
                 (map (fun r => (item r, original_index r)) original)
  /\ (forall s2, page s2 = page (applySorting E s1) ->
        listing (restoreDefaultOrder E s2) = map (add_badge s1) original).
Proof.
  intros Hc Hflag original s1 Hpage.
  assert (Hst : stamped_from 0 original)
    by apply add_badge_stamped, stamp_from_stamped.
  assert (Hl1 : Permutation (listing s1) original).
  { rewrite (listing_same_page _ _ Hpage).
    rewrite (applySorting_permutation E s c Hc).
    unfold rows_to_sort. now rewrite Hflag. }
  assert (Hrestore : listing (restoreDefaultOrder E s1) = original)
    by now apply restore_listing.
  (* the container that the second sort finds *)
  assert (Hsecond : Permutation (listing (applySorting E s1))
                                (map (add_badge s1) original)).
  { destruct (rows c) as [|r0 l0] eqn:Hrows.
    - (* nothing to sort: the page is untouched *)
      assert (Hs1 : page s1 = page s)
        by (rewrite Hpage; now rewrite (applySorting_empty E s c Hc Hrows)).
      assert (Hc1 : container (page s1) = Some c) by now rewrite Hs1.
      rewrite (applySorting_empty E s1 c Hc1 Hrows).
      unfold listing. rewrite Hc1, Hrows. subst original. constructor.
    - destruct (applySorting_mark E s c Hc) as (c1 & Hc1 & Hmark);
        [congruence|].
      rewrite <- Hpage in Hc1.
      rewrite (applySorting_permutation E s1 c1 Hc1).
      apply Permutation_map. unfold rows_to_sort. rewrite Hmark.
      unfold listing in Hl1. now rewrite Hc1 in Hl1. }
  split; [exact Hrestore|split; [|split; [|split; [|split]]]].
  - rewrite Hrestore. subst original.
    now rewrite add_badge_items, stamp_from_items.
  - unfold stamped_from in Hst. rewrite Hst. subst original.
    now rewrite length_map, stamp_from_length.
  - rewrite Hrestore. now apply (stamped_ascending 0).
  - rewrite (Permutation_map _ Hsecond). rewrite map_map.
    erewrite map_ext; [reflexivity|].
    intros r. simpl. now rewrite add_badge_item, add_badge_index.
  - intros s2 Hpage2. apply restore_listing.
    + now apply add_badge_stamped.
    + now rewrite (listing_same_page _ _ Hpage2).
Qed.

(** A row of the sample listing: one link to the pull request. *)
Definition sample_row (n : Z) (content : string) : Row :=
  mkRow [("https://github.com/octo/repo/pull/" ++ toString n)%string] None None content.

(** Eight rows: a member, a first contribution, a pull request without
    record, then five more first contributions. *)
Definition sample_rows : list Row :=
  [ sample_row 1 "member";
    sample_row 2 "newcomer a";
    sample_row 3 "unknown";
    sample_row 4 "newcomer b";
    sample_row 5 "newcomer c";
    sample_row 6 "newcomer d";
    sample_row 7 "newcomer e";
    sample_row 8 "newcomer f" ].

Definition sample_listing : Document :=
  mkDocument [] (Some (mkContainer false sample_rows)) [].

(** The records of all the pull requests but the third are known. *)
Definition sample_records : JsMap.t PRData :=
  [ (1, sample_record 1 "MEMBER");
    (2, sample_record 2 "FIRST_TIMER");
    (4, sample_record 4 "NONE");
    (5, sample_record 5 "FIRST_TIME_CONTRIBUTOR");
    (6, sample_record 6 "NONE");
    (7, sample_record 7 "FIRST_TIMER");
    (8, sample_record 8 "NONE") ].

Definition sample_session : State :=
  mkState sample_records "new-first" None JsMap.empty
          listing_url sample_listing 5000 true None None [] [].

Lemma restore_after_sort_witness :
  container (page sample_session) = Some (mkContainer false sample_rows)
  /\ has_original_order (mkContainer false sample_rows) = false
  /\ map item (listing (restoreDefaultOrder merge_engine
                          (applySorting merge_engine sample_session)))
     = map item sample_rows.
Proof.
  split; [reflexivity|split; [reflexivity|]].
  apply (restore_after_sort merge_engine sample_session
           (mkContainer false sample_rows) eq_refl eq_refl
           (applySorting merge_engine sample_session) eq_refl).
Defined.

(* ================================================================== *)
(** ** Stability of the reordering *)
(* ================================================================== *)

(** The record of a row is available. *)
Definition available (s : State) (r : Row) : bool :=
  match record_of s (row_number r) with Some _ => true | None => false end.

(** A row of tier [t]. *)
Definition has_tier (s : State) (t : Z) (r : Row) : bool :=
  match tier_of s r with Some t' => t' =? t | None => false end.

(** The rank the comparator of [applySorting] sorts by, where the records
    are available: the tier, or its opposite when existing contributors come
    first. *)
Definition sort_rank (s : State) (t : Z) : Z :=
  if String.eqb (sortOrder s) "new-first" then t else - t.

Definition sort_key (s : State) (r : Row) : Z :=
  match tier_of s r with Some t => sort_rank s t | None => 0 end.

Lemma tier_comparator_unavailable s a b :
  available s a = false \/ available s b = false -> tier_comparator s a b = 0.
Proof.
  unfold available, tier_comparator.
  destruct (record_of s (row_number a)), (record_of s (row_number b));
    intros [H|H]; try discriminate H; reflexivity.
Qed.

Lemma tier_comparator_ranked s l :
  (forall r, In r l -> available s r = true) ->
  ranked_by (tier_comparator s) (sort_key s) l.
Proof.
  intros Hav a b Ha Hb. apply Hav in Ha, Hb.
  unfold available in Ha, Hb. unfold tier_comparator, sort_key, tier_of, sort_rank.
  destruct (record_of s (row_number a)); [|discriminate].
  destruct (record_of s (row_number b)); [|discriminate].
  simpl. destruct (String.eqb (sortOrder s) "new-first").
  - now rewrite <- Z.compare_sub.
  - rewrite <- Z.compare_sub. now rewrite Z.compare_opp.
Qed.

Lemma tier_comparator_flat s l :
  (forall a b, In a l -> In b l -> available s a = true -> available s b = true ->
               tier_of s a = tier_of s b) ->
  ranked_by (tier_comparator s) (fun _ => 0) l.
Proof.
  intros Hsame a b Ha Hb. specialize (Hsame a b Ha Hb).
  unfold available, tier_of in Hsame. unfold tier_comparator.
  destruct (record_of s (row_number a)); [|reflexivity].
  destruct (record_of s (row_number b)); [|reflexivity].
  simpl in Hsame. specialize (Hsame eq_refl eq_refl). injection Hsame as ->.
  destruct (String.eqb (sortOrder s) "new-first"); now rewrite Z.sub_diag.
Qed.

(** A comparator that answers 0 throughout leaves the list as it is. *)
Lemma js_sort_flat (E : SortEngine) {A} (cmp : A -> A -> Z) l :
  ranked_by cmp (fun _ => 0) l -> js_sort E cmp l = l.
Proof.
  intros H. pose proof (js_sort_stable E A cmp _ l H 0) as Hst.
  unfold with_key in Hst. simpl in Hst.
  assert (Hall : forall l' : list A, filter (fun _ => true) l' = l')
    by (induction l'; simpl; congruence).
  now rewrite !Hall in Hst.
Qed.

Lemma has_tier_rank s t r :
  available s r = true -> has_tier s t r = (sort_key s r =? sort_rank s t).
Proof.
  unfold available, has_tier, sort_key, tier_of, sort_rank.
  destruct (record_of s (row_number r)) as [d|]; [|discriminate]. intros _. simpl.
  destruct (String.eqb (sortOrder s) "new-first"); [reflexivity|].
  set (p := getContributorPriority (author_association d)).
  destruct (Z.eqb_spec p t), (Z.eqb_spec (- p) (- t)); try reflexivity; lia.
Qed.

Lemma has_tier_filter s t l :
  (forall r, In r l -> available s r = true) ->
  filter (has_tier s t) l = with_key (sort_key s) (sort_rank s t) l.
Proof.
  intros Hav. unfold with_key. apply filter_ext_in.
  intros r Hr. apply has_tier_rank. now apply Hav.
Qed.

Lemma tier_of_links s r r' : row_links r' = row_links r -> tier_of s r' = tier_of s r.
Proof.
  intros H. unfold tier_of, row_number, first_pull_link. now rewrite H.
Qed.

Lemma add_badge_links s r : row_links (add_badge s r) = row_links r.
Proof.
  unfold add_badge.
  destruct (record_of s (row_number r)), (badge r), (first_pull_link r); reflexivity.
Qed.

Lemma filter_map_invariant {A} (p : A -> bool) (f : A -> A) l :
  (forall x, p (f x) = p x) -> filter p (map f l) = map f (filter p l).
Proof.
  intros H. induction l as [|x l IH]; simpl; [reflexivity|].
  rewrite H. destruct (p x); simpl; now rewrite IH.
Qed.

Lemma stamp_from_filter_items (p : Row -> bool) base l :
  (forall v r, p (set_original_index v r) = p r) ->
  map item (filter p (stamp_from base l)) = map item (filter p l).
Proof.
  intros H. revert base. induction l as [|r l IH]; intros base; simpl; [reflexivity|].
  rewrite H. destruct (p r); simpl; now rewrite IH.
Qed.

Lemma stamp_from_all (P : Row -> Prop) base l :
  (forall v r, P r -> P (set_original_index v r)) ->
  (forall r, In r l -> P r) -> forall r, In r (stamp_from base l) -> P r.
Proof.
  intros H. revert base. induction l as [|x l IH]; intros base Hall r Hr; simpl in *;
    [destruct Hr|].
  destruct Hr as [<-|Hr]; [apply H, Hall; now left|].
  apply (IH (S base)); [|exact Hr]. intros y Hy. apply Hall. now right.
Qed.

Lemma rows_to_sort_items c : map item (rows_to_sort c) = map item (rows c).
Proof.
  unfold rows_to_sort. destruct (has_original_order c); [reflexivity|].
  apply stamp_from_items.
Qed.

Lemma rows_to_sort_filter_items (p : Row -> bool) c :
  (forall v r, p (set_original_index v r) = p r) ->
  map item (filter p (rows_to_sort c)) = map item (filter p (rows c)).
Proof.
  intros H. unfold rows_to_sort. destruct (has_original_order c); [reflexivity|].
  now apply stamp_from_filter_items.
Qed.

Lemma rows_to_sort_all (P : Row -> Prop) c :
  (forall v r, P r -> P (set_original_index v r)) ->
  (forall r, In r (rows c) -> P r) -> forall r, In r (rows_to_sort c) -> P r.
Proof.
  intros H Hall. unfold rows_to_sort. destruct (has_original_order c); [exact Hall|].
  now apply stamp_from_all.
Qed.

Lemma ascending_map_invariant {A} (key : A -> Z) (f : A -> A) l :
  (forall x, key (f x) = key x) -> ascending key l -> ascending key (map f l).
Proof.
  intros H. induction 1 as [|a l Hs IH Hall]; simpl; constructor; [exact IH|].
  apply Forall_map. eapply Forall_impl; [|exact Hall].
  simpl. intros x Hx. now rewrite !H.
Qed.

Lemma available_stamp s v r :
  available s (set_original_index v r) = available s r.
Proof. reflexivity. Qed.

Lemma has_tier_stamp s t v r :
  has_tier s t (set_original_index v r) = has_tier s t r.
Proof. reflexivity. Qed.

Lemma has_tier_badge s t r : has_tier s t (add_badge s r) = has_tier s t r.
Proof.
  unfold has_tier. now rewrite (tier_of_links s r (add_badge s r) (add_badge_links s r)).
Qed.

Lemma sort_key_badge s r : sort_key s (add_badge s r) = sort_key s r.
Proof.
  unfold sort_key. now rewrite (tier_of_links s r (add_badge s r) (add_badge_links s r)).
Qed.

(** What the reordering does where its comparator is a ranking.  The
    comparator of [applySorting] answers 0
    as soon as the record of one of the two rows is unavailable, and the
    listing after [applySorting] holds the same items as before.  When the
    record of every row is available the reordering is a stable sort by tier:
    the listing comes out ascending in the rank of the order in force, and
    the rows of each tier keep their relative order.  When the available
    records all have the same tier (or none is available), nothing moves. *)
Theorem sort_stability (E : SortEngine) (s : State) (c : Container) :
  container (page s) = Some c ->
  let before := rows c in
  let after := listing (applySorting E s) in
  (forall a b, available s a = false \/ available s b = false ->
               tier_comparator s a b = 0)
  /\ Permutation (map item after) (map item before)
  /\ ((forall r, In r before -> available s r = true) ->
      ascending (sort_key s) after
      /\ forall t, map item (filter (has_tier s t) after)
                   = map item (filter (has_tier s t) before))
  /\ ((forall a b, In a before -> In b before ->
                   available s a = true -> available s b = true ->
                   tier_of s a = tier_of s b) ->
      map item after = map item before).
Proof.
  intros Hc before after. subst before.
  assert (Hafter : after = map (add_badge s)
                     (js_sort E (tier_comparator s) (rows_to_sort c)))
    by now apply applySorting_listing.
  split; [apply tier_comparator_unavailable|split; [|split]].
  - rewrite Hafter, add_badge_items, <- (rows_to_sort_items c).
    apply Permutation_map, js_sort_permutation.
  - intros Hav.
    assert (Hav' : forall r, In r (rows_to_sort c) -> available s r = true).
    { apply (rows_to_sort_all (fun r => available s r = true)); [|exact Hav].
      intros v r Hr. now rewrite available_stamp. }
    pose proof (tier_comparator_ranked s _ Hav') as Hranked.
    split.
    + rewrite Hafter. apply ascending_map_invariant; [apply sort_key_badge|].
      now apply js_sort_ascending.
    + intros t. rewrite Hafter.
      rewrite filter_map_invariant by apply has_tier_badge.
      rewrite add_badge_items.
      rewrite has_tier_filter.
      * rewrite (js_sort_stable E _ _ _ _ Hranked).
        rewrite <- has_tier_filter by exact Hav'.
        apply rows_to_sort_filter_items. intros v r. apply has_tier_stamp.
      * intros r Hr. apply Hav'.
        eapply Permutation_in; [apply (js_sort_permutation E)|exact Hr].
  - intros Hsame.
    assert (Hsame' : forall a b, In a (rows_to_sort c) -> In b (rows_to_sort c) ->
                       available s a = true -> available s b = true ->
                       tier_of s a = tier_of s b).
    { intros a b Ha. revert b.
      apply (rows_to_sort_all
               (fun a => forall b, In b (rows_to_sort c) ->
                  available s a = true -> available s b = true ->
                  tier_of s a = tier_of s b) c); [auto| |exact Ha].
      clear a Ha. intros a Ha b.
      apply (rows_to_sort_all
               (fun b => available s a = true -> available s b = true ->
                  tier_of s a = tier_of s b) c); [auto|].
      intros b' Hb'. now apply Hsame. }
    rewrite Hafter, add_badge_items.
    rewrite (js_sort_flat E _ _ (tier_comparator_flat s _ Hsame')).
    apply rows_to_sort_items.
Qed.

(** Three rows whose records are all known. *)
Definition known_rows : list Row :=
  [ sample_row 1 "member"; sample_row 2 "newcomer a"; sample_row 4 "newcomer b" ].

Definition known_session : State :=
  mkState sample_records "new-first" None JsMap.empty listing_url
          (mkDocument [] (Some (mkContainer false known_rows)) [])
          5000 true None None [] [].

Lemma sort_stability_witness :
  container (page known_session) = Some (mkContainer false known_rows)
  /\ map item (filter (has_tier known_session 1)
                      (listing (applySorting merge_engine known_session)))
     = map item (filter (has_tier known_session 1) known_rows).
Proof.
  split; [reflexivity|].
  apply (sort_stability merge_engine known_session
           (mkContainer false known_rows) eq_refl).
  intros r [<-|[<-|[<-|[]]]]; reflexivity.
Defined.

(** A network without the aggregated service on which the request for the
    pull request 3 fails in transit; the others are answered, the first pull
    request being by a member and the others first contributions. *)
Definition flaky_net : Net :=
  mkNet (fun _ n => if n =? 3 then RestRejected "Failed to fetch"
                    else RestResponse 200 "OK"
                           (RestBodyJson
                              (JStr (if n =? 1 then "MEMBER" else "FIRST_TIMER"))
                              "2024-05-01T10:00:00Z" "octocat"))
        (fun _ _ => GraphQLRejected "Failed to fetch")
        (fun _ => 120).

(** The first visit to the sample listing: no credential, no record, an
    empty cache. *)
Definition first_visit : State :=
  mkState JsMap.empty "default" None JsMap.empty
          listing_url sample_listing 5000 true None None [] [].

(** C6 on a failing input.  On a first visit to the sample listing the
    request for the third pull request fails, which the fetch logs and
    passes over, so the sort for new contributors first runs with that one
    record unavailable and answers success.  The comparator then ties the
    row without record with the member and with the newcomers, although the
    member compares above the newcomers: it is not a ranking, and the host
    sort is free in what it returns.  Under each of the three engines the
    member ends up ahead of newcomers.  Binary insertion returns newcomer e
    before newcomer d and the merge sort returns newcomer b after all the
    other newcomers, so that rows of one tier have changed their relative
    order, and the row without record has newcomers on its other side. *)
Theorem tier_sort_defeated :
  let run E := handleSortRequest E flaky_net "new-first" first_visit in
  let shown E := map row_content (listing (snd (run E))) in
  map row_content (listing first_visit)
  = ["member"; "newcomer a"; "unknown"; "newcomer b"; "newcomer c"; "newcomer d";
     "newcomer e"; "newcomer f"]
  /\ map (tier_of (snd (run insertion_engine))) (listing first_visit)
     = [Some 2; Some 1; None; Some 1; Some 1; Some 1; Some 1; Some 1]
  /\ console (snd (run insertion_engine))
     = ["Failed to fetch data for PR #3: Failed to fetch"]
  /\ fst (run insertion_engine)
     = mkResponse true "Sorted by new contributors successfully!"
  /\ fst (run merge_engine) = fst (run insertion_engine)
  /\ fst (run binary_insertion_engine) = fst (run insertion_engine)
  /\ shown insertion_engine
     = ["newcomer a"; "member"; "unknown"; "newcomer b"; "newcomer c";
        "newcomer d"; "newcomer e"; "newcomer f"]
  /\ shown merge_engine
     = ["newcomer a"; "newcomer c"; "newcomer d"; "newcomer e"; "newcomer f";
        "member"; "unknown"; "newcomer b"]
  /\ shown binary_insertion_engine
     = ["newcomer a"; "newcomer b"; "newcomer c"; "newcomer e"; "member";
        "unknown"; "newcomer d"; "newcomer f"].
Proof.
  vm_compute. repeat split.
Qed.

(* ================================================================== *)
(** ** The identifiers of a page *)
(* ================================================================== *)

(** The identifiers that a sequence of references embeds: each reference
    gives its identifier, or nothing when it embeds none or embeds 0; the
    order is the order of the references and nothing is merged. *)
Definition identifiers_of (refs : list string) : list Z :=
  flat_map (fun ref =>
              match extractPRNumber (Some ref) with
              | Some n => if n =? 0 then [] else [n]
              | None => []
              end) refs.

(** The number of references that are read: [maxPRs] under the name the
    specification gives it. *)
Definition maxCount (s : State) : nat :=
  if authenticated s then 50%nat else 10%nat.

Arguments extractPRNumber : simpl never.

Lemma keep_numbers_identifiers (refs : list string) :
  keep_numbers (map (fun el => extractPRNumber (Some el)) refs) = identifiers_of refs.
Proof.
  induction refs as [|ref refs IH]; simpl; [reflexivity|].
  unfold truthy_number. destruct (extractPRNumber (Some ref)) as [n|]; [|exact IH].
  destruct (n =? 0); simpl; now rewrite IH.
Qed.

Lemma identifiers_of_length (refs : list string) :
  (length (identifiers_of refs) <= length refs)%nat.
Proof.
  induction refs as [|ref refs IH]; simpl; [lia|].
  rewrite length_app.
  destruct (extractPRNumber (Some ref)) as [n|]; [destruct (n =? 0)|]; simpl; lia.
Qed.

Lemma identifiers_of_In (refs : list string) n :
  In n (identifiers_of refs) <->
  n <> 0 /\ exists ref, In ref refs /\ extractPRNumber (Some ref) = Some n.
Proof.
  unfold identifiers_of. rewrite in_flat_map. split.
  - intros (ref & Hin & Hn).
    destruct (extractPRNumber (Some ref)) as [m|] eqn:Hm; [|destruct Hn].
    destruct (Z.eqb_spec m 0) as [Hz|Hz]; [destruct Hn|].
    destruct Hn as [<-|[]]. split; [exact Hz|]. now exists ref.
  - intros (Hz & ref & Hin & Hm). exists ref. split; [exact Hin|].
    rewrite Hm. destruct (Z.eqb_spec n 0); [contradiction|now left].
Qed.

Lemma hex_of_nonneg c v : hex_of c = Some v -> 0 <= v.
Proof.
  destruct c as [[] [] [] [] [] [] [] []]; intros H; cbv in H;
    first [discriminate H | injection H as <-; lia].
Qed.

Lemma hex_run_nonneg s acc n :
  (forall a, acc = Some a -> 0 <= a) -> hex_run acc s = Some n -> 0 <= n.
Proof.
  revert acc. induction s as [|c s IH]; intros acc Hacc; cbn [hex_run].
  - intros H. now apply Hacc.
  - destruct (hex_of c) as [v|] eqn:Hv; [|intros H; now apply Hacc].
    apply IH. intros a Ha. apply hex_of_nonneg in Hv.
    assert (Ea : a = 16 * match acc with Some a1 => a1 | None => 0 end + v)
      by congruence.
    rewrite Ea. destruct acc as [a0|]; [specialize (Hacc a0 eq_refl)|]; lia.
Qed.

Lemma parse_magnitude_nonneg s n : parse_magnitude s = Some n -> 0 <= n.
Proof.
  assert (Hdec : match digit_run s with
                 | Nil => None
                 | d => Some (Z.of_N (N.of_uint d))
                 end = Some n -> 0 <= n).
  { destruct (digit_run s); intros [= <-]; lia. }
  assert (Hhex : forall rest, hex_run None rest = Some n -> 0 <= n).
  { intros rest. apply hex_run_nonneg. discriminate. }
  unfold parse_magnitude.
  destruct s as [|c s]; [exact Hdec|].
  destruct s as [|c' s]; [destruct c as [[] [] [] [] [] [] [] []]; exact Hdec|].
  destruct c as [[] [] [] [] [] [] [] []]; try exact Hdec;
    destruct c' as [[] [] [] [] [] [] [] []]; solve [exact Hdec | apply Hhex].
Qed.

Lemma parseInt_digit_head c rest :
  is_digit c = true -> parseInt (String c rest) = parse_magnitude (String c rest).
Proof.
  destruct c as [[] [] [] [] [] [] [] []]; try discriminate; reflexivity.
Qed.

Lemma take_digits_head s :
  take_digits s = "" \/ exists c rest, take_digits s = String c rest /\ is_digit c = true.
Proof.
  destruct s as [|c s]; simpl; [now left|].
  destruct (is_digit c) eqn:Hc; [right; eauto|now left].
Qed.

Lemma match_pull_digits s digits :
  match_pull s = Some digits ->
  exists c rest, digits = String c rest /\ is_digit c = true.
Proof.
  induction s as [|c s IH]; cbn [match_pull]; [discriminate|].
  destruct (String.prefix "/pull/" (String c s)); [|exact IH].
  match goal with |- context [take_digits ?x] =>
    destruct (take_digits_head x) as [He|(c0 & rest & He & Hc0)]; rewrite He
  end.
  - exact IH.
  - intros [= <-]. eauto.
Qed.

(** An identifier read off a reference is never negative. *)
Lemma extractPRNumber_nonneg el n : extractPRNumber el = Some n -> 0 <= n.
Proof.
  unfold extractPRNumber. destruct el as [href|]; [|discriminate].
  destruct (String.eqb href ""); [discriminate|].
  destruct (match_pull href) as [digits|] eqn:Hm; [|discriminate].
  apply match_pull_digits in Hm as (c & rest & -> & Hc).
  rewrite parseInt_digit_head by exact Hc. apply parse_magnitude_nonneg.
Qed.

(** C5, as the script has it.  The identifiers of a page are those embedded
    in its first [maxCount] references, 50 with a credential and 10 without,
    in the order of the references and with repetitions kept; a reference that
    embeds no identifier (or the identifier 0) contributes nothing, and
    nothing fails.  So there are at most [maxCount] identifiers, each is a
    positive number read off one of those references, and the identifiers of
    two sequences of references put end to end are those of the first followed
    by those of the second. *)
Theorem identifier_extraction (s : State) :
  let refs := pull_links (anchors_of (page s)) in
  allPRNumbers s = identifiers_of (firstn (maxCount s) refs)
  /\ (maxCount s = if authenticated s then 50%nat else 10%nat)
  /\ (length (allPRNumbers s) <= maxCount s)%nat
  /\ (forall n, In n (allPRNumbers s) <->
        0 < n /\ exists ref, In ref (firstn (maxCount s) refs)
                             /\ extractPRNumber (Some ref) = Some n)
  /\ (forall l1 l2, identifiers_of (l1 ++ l2) = identifiers_of l1 ++ identifiers_of l2)
  /\ (forall ref, identifiers_of [ref] = []
                  \/ exists n, 0 < n /\ identifiers_of [ref] = [n]
                               /\ extractPRNumber (Some ref) = Some n).
Proof.
  intros refs.
  assert (Hall : allPRNumbers s = identifiers_of (firstn (maxCount s) refs)).
  { unfold allPRNumbers. apply keep_numbers_identifiers. }
  split; [exact Hall|split; [reflexivity|split; [|split; [|split]]]].
  - rewrite Hall. etransitivity; [apply identifiers_of_length|].
    apply firstn_le_length.
  - intros n. rewrite Hall, identifiers_of_In. split.
    + intros (Hz & ref & Hin & Hn). split; [|now exists ref].
      apply extractPRNumber_nonneg in Hn. lia.
    + intros (Hpos & ref & Hin & Hn). split; [lia|now exists ref].
  - intros l1 l2. unfold identifiers_of. apply flat_map_app.
  - intros ref. unfold identifiers_of. simpl.
    destruct (extractPRNumber (Some ref)) as [n|] eqn:Hn; [|now left].
    destruct (Z.eqb_spec n 0) as [Hz|Hz]; [now left|].
    right. exists n. split; [|split; reflexivity].
    apply extractPRNumber_nonneg in Hn. lia.
Qed.

(** A page on which the same pull request is linked twice (its title and
    its comment count), before another pull request. *)
Definition repeated_links : Document :=
  mkDocument [ "https://github.com/octo/repo/pull/7";
               "https://github.com/octo/repo/pull/7#partial-pull-merging";
               "https://github.com/octo/repo/pull/new";
               "https://github.com/octo/repo/pull/8" ]
             None [].

Definition repeated_session : State :=
  mkState JsMap.empty "default" None JsMap.empty listing_url repeated_links
          5000 true None None [] [].

(** C5, as the claim words it, fails: an identifier linked twice comes out
    twice. *)
Lemma identifiers_repeat :
  allPRNumbers repeated_session = [7; 7; 8]
  /\ ~ NoDup (allPRNumbers repeated_session).
Proof.
  assert (H : allPRNumbers repeated_session = [7; 7; 8]) by (vm_compute; reflexivity).
  split; [exact H|]. rewrite H. intros Hnd.
  inversion Hnd as [|? ? Hnotin _]; subst. apply Hnotin. now left.
Qed.

(* ================================================================== *)
(** ** What a fetch leaves alone *)
(* ================================================================== *)

(** A request concerns an identifier. *)
Definition mentions (id : Z) (q : Request) : bool :=
  match q with
  | RestGet n => n =? id
  | GraphQLPost ns => existsb (Z.eqb id) ns
  end.

(** From [s] to [s'] the record kept under [id] is the same and no request
    about [id] has been sent. *)
Definition untouched (id : Z) (s s' : State) : Prop :=
  JsMap.get id (prData s') = JsMap.get id (prData s)
  /\ exists sent, requests s' = requests s ++ sent
                  /\ Forall (fun q => mentions id q = false) sent.

Lemma untouched_refl id s : untouched id s s.
Proof.
  split; [reflexivity|]. exists []. split; [now rewrite app_nil_r|constructor].
Qed.

Lemma untouched_trans id s1 s2 s3 :
  untouched id s1 s2 -> untouched id s2 s3 -> untouched id s1 s3.
Proof.
  intros [H1 (q1 & R1 & F1)] [H2 (q2 & R2 & F2)]. split; [congruence|].
  exists (q1 ++ q2). split.
  - now rewrite R2, R1, app_assoc.
  - apply Forall_app. now split.
Qed.

(** A step that changes neither the records nor the log of requests. *)
Lemma untouched_same id s s' :
  prData s' = prData s -> requests s' = requests s -> untouched id s s'.
Proof.
  intros Hp Hr. split; [now rewrite Hp|].
  exists []. split; [now rewrite app_nil_r|constructor].
Qed.

Lemma untouched_set id k d s :
  k <> id -> untouched id s (with_prData (JsMap.set k d (prData s)) s).
Proof.
  intros Hk. split.
  - simpl. apply JsMap.get_set_other. congruence.
  - exists []. split; [simpl; now rewrite app_nil_r|constructor].
Qed.

Section FetchFacts.
Variable E : SortEngine.
Variable net : Net.

Lemma getFromCache_prData k s : prData (snd (getFromCache E k s)) = prData s.
Proof.
  unfold getFromCache. destruct (JsMap.get k (cache s)) as [e|]; [|reflexivity].
  destruct (clock s - timestamp e <? cacheExpiry); [reflexivity|].
  simpl. now rewrite save_prData.
Qed.

Lemma getFromCache_requests k s : requests (snd (getFromCache E k s)) = requests s.
Proof.
  unfold getFromCache. destruct (JsMap.get k (cache s)) as [e|]; [|reflexivity].
  destruct (clock s - timestamp e <? cacheExpiry); [reflexivity|].
  simpl. now rewrite save_requests.
Qed.

Lemma getFromCache_authenticated k s :
  authenticated (snd (getFromCache E k s)) = authenticated s.
Proof.
  unfold getFromCache. destruct (JsMap.get k (cache s)) as [e|]; [|reflexivity].
  destruct (clock s - timestamp e <? cacheExpiry); [reflexivity|].
  simpl. now rewrite save_authenticated.
Qed.

Lemma getFromCache_untouched id k s : untouched id s (snd (getFromCache E k s)).
Proof.
  apply untouched_same; [apply getFromCache_prData|apply getFromCache_requests].
Qed.

Lemma setCache_untouched id k d s : untouched id s (setCache E k d s).
Proof.
  apply untouched_same; [apply setCache_prData|apply setCache_requests].
Qed.

Lemma pause_untouched id s : untouched id s (pause s).
Proof. unfold pause. destruct (authenticated s); now apply untouched_same. Qed.

Lemma log_untouched id line s : untouched id s (log line s).
Proof. now apply untouched_same. Qed.

Lemma send_untouched id q s :
  mentions id q = false -> untouched id s (send net q s).
Proof.
  intros Hq. split; [reflexivity|].
  exists [q]. split; [reflexivity|]. now repeat constructor.
Qed.

Lemma fetchPRDetails_state k s :
  snd (fetchPRDetails net k s) = send net (RestGet k) s.
Proof.
  unfold fetchPRDetails.
  destruct (rest_reply net (length (requests s)) k) as [m|status text body];
    [reflexivity|].
  destruct (negb (response_ok status)); [destruct (status =? 403); reflexivity|].
  destruct body; reflexivity.
Qed.

Lemma clearExpiredCache_prData s : prData (clearExpiredCache E s) = prData s.
Proof.
  unfold clearExpiredCache.
  match goal with |- context [if ?b then _ else _] => destruct b end;
    [now rewrite save_prData|reflexivity].
Qed.

Lemma clearExpiredCache_requests s : requests (clearExpiredCache E s) = requests s.
Proof.
  unfold clearExpiredCache.
  match goal with |- context [if ?b then _ else _] => destruct b end;
    [now rewrite save_requests|reflexivity].
Qed.

Lemma fetchPRDataREST_untouched id prNumbers :
  ~ In id prNumbers ->
  forall s, untouched id s (snd (fetchPRDataREST E net prNumbers s)).
Proof.
  induction prNumbers as [|k rest IH]; intros Hid s; [apply untouched_refl|].
  assert (Hk : k <> id) by (intros ->; apply Hid; now left).
  assert (Hrest : ~ In id rest) by (intros H; apply Hid; now right).
  cbn [fetchPRDataREST].
  pose proof (getFromCache_untouched id k s) as U1.
  destruct (getFromCache E k s) as [cached s1]. cbn [snd] in U1.
  destruct cached as [d|].
  - eapply untouched_trans; [exact U1|].
    eapply untouched_trans; [apply (untouched_set id k d s1 Hk)|].
    now apply IH.
  - pose proof (fetchPRDetails_state k s1) as Hs2.
    destruct (fetchPRDetails net k s1) as [fetched s2]. cbn [snd] in Hs2.
    assert (U2 : untouched id s s2).
    { eapply untouched_trans; [exact U1|]. rewrite Hs2.
      apply send_untouched. simpl. now apply Z.eqb_neq. }
    destruct fetched as [d|msg].
    + eapply untouched_trans; [exact U2|].
      eapply untouched_trans; [apply (untouched_set id k d s2 Hk)|].
      eapply untouched_trans; [apply setCache_untouched|].
      eapply untouched_trans; [apply pause_untouched|].
      now apply IH.
    + eapply untouched_trans; [exact U2|].
      eapply untouched_trans; [apply log_untouched|].
      destruct (includes msg "403").
      * apply log_untouched.
      * now apply IH.
Qed.

Lemma commit_nodes_untouched id nodes prNumbers :
  ~ In id prNumbers ->
  forall index s, untouched id s (commit_nodes E prNumbers index nodes s).
Proof.
  induction prNumbers as [|k rest IH]; intros Hid index s; [apply untouched_refl|].
  assert (Hk : k <> id) by (intros ->; apply Hid; now left).
  assert (Hrest : ~ In id rest) by (intros H; apply Hid; now right).
  cbn [commit_nodes].
  destruct (nth index nodes None) as [node|]; [|now apply IH].
  eapply untouched_trans; [|now apply IH].
  eapply untouched_trans; [|apply setCache_untouched].
  now apply untouched_set.
Qed.

Lemma fetchPRDataGraphQL_untouched id prNumbers s :
  ~ In id prNumbers ->
  untouched id s (snd (fetchPRDataGraphQL E net prNumbers s)).
Proof.
  intros Hid.
  assert (Hsend : untouched id s (send net (GraphQLPost prNumbers) s)).
  { apply send_untouched. simpl.
    destruct (existsb (Z.eqb id) prNumbers) eqn:Hex; [|reflexivity].
    apply existsb_exists in Hex as (x & Hx & Heq).
    apply Z.eqb_eq in Heq. subst x. contradiction. }
  unfold fetchPRDataGraphQL.
  destruct (graphql_reply net (length (requests s)) prNumbers)
    as [m|status text body]; [exact Hsend|].
  destruct (negb (response_ok status)); [exact Hsend|].
  destruct body as [m|[errors|] [m|m|nodes]]; try exact Hsend.
  - destruct prNumbers; exact Hsend.
  - cbn [snd]. eapply untouched_trans; [exact Hsend|].
    now apply commit_nodes_untouched.
Qed.

Lemma load_cached_untouched id prNumbers :
  forall s, JsMap.get id (prData s) <> None ->
            untouched id s (load_cached E prNumbers s).
Proof.
  induction prNumbers as [|k rest IH]; intros s Hid; [apply untouched_refl|].
  cbn [load_cached]. unfold JsMap.has.
  destruct (JsMap.get k (prData s)) eqn:Hk; [now apply IH|].
  assert (Hne : k <> id) by congruence.
  pose proof (getFromCache_untouched id k s) as U1.
  destruct (getFromCache E k s) as [cached s1]. cbn [snd] in U1.
  assert (Hid1 : JsMap.get id (prData s1) <> None)
    by (destruct U1 as [-> _]; exact Hid).
  destruct cached as [d|].
  - pose proof (untouched_set id k d s1 Hne) as U2.
    eapply untouched_trans; [exact U1|].
    eapply untouched_trans; [exact U2|].
    apply IH. destruct U2 as [-> _]. exact Hid1.
  - eapply untouched_trans; [exact U1|]. now apply IH.
Qed.

Lemma fetchPRData_untouched id s :
  JsMap.get id (prData s) <> None ->
  untouched id s (snd (fetchPRData E net s)).
Proof.
  intros Hid. unfold fetchPRData.
  set (s0 := clearExpiredCache E s).
  assert (U0 : untouched id s s0)
    by (apply untouched_same;
        [apply clearExpiredCache_prData|apply clearExpiredCache_requests]).
  assert (Hid0 : JsMap.get id (prData s0) <> None)
    by (destruct U0 as [-> _]; exact Hid).
  set (numbers := allPRNumbers s0).
  pose proof (load_cached_untouched id numbers s0 Hid0) as U1.
  set (s1 := load_cached E numbers s0) in *.
  assert (Hid1 : JsMap.get id (prData s1) <> None)
    by (destruct U1 as [-> _]; exact Hid0).
  set (todo := filter (fun num => negb (JsMap.has num (prData s1))) numbers).
  assert (Hout : ~ In id todo).
  { unfold todo. intros Hin. apply filter_In in Hin as [_ Hhas].
    unfold JsMap.has in Hhas.
    destruct (JsMap.get id (prData s1)); [discriminate|congruence]. }
  assert (U01 : untouched id s s1) by (eapply untouched_trans; eassumption).
  destruct todo as [|k rest] eqn:Htodo; [exact U01|].
  destruct (authenticated s1 && (3 <? length (k :: rest))%nat).
  - pose proof (fetchPRDataGraphQL_untouched id (k :: rest) s1 Hout) as U2.
    destruct (fetchPRDataGraphQL E net (k :: rest) s1) as [[[]|msg] s2];
      cbn [snd] in U2.
    + eapply untouched_trans; eassumption.
    + eapply untouched_trans; [exact U01|].
      eapply untouched_trans; [exact U2|].
      eapply untouched_trans; [apply log_untouched|].
      now apply fetchPRDataREST_untouched.
  - eapply untouched_trans; [exact U01|].
    now apply fetchPRDataREST_untouched.
Qed.

End FetchFacts.

(** C10. An identifier whose record is in [prData] is not fetched again:
    whatever the cache holds for it (a fresh entry, an expired one, none)
    and whatever the clock says, [fetchPRData] leaves the record in [prData]
    as it is and sends no request that names the identifier. *)
Theorem known_record_reused (E : SortEngine) (net : Net) (s : State) (id : Z) (r : PRData) :
  JsMap.get id (prData s) = Some r ->
  forall (c : JsMap.t CacheEntry) (now : Z),
    let s' := snd (fetchPRData E net (with_clock now (with_cache c s))) in
    JsMap.get id (prData s') = Some r
    /\ exists sent, requests s' = requests s ++ sent
                    /\ Forall (fun q => mentions id q = false) sent.
Proof.
  intros Hid c now s'.
  destruct (fetchPRData_untouched E net id (with_clock now (with_cache c s)))
    as [Hget Hsent].
  - change (JsMap.get id (prData s) <> None). congruence.
  - split; [|exact Hsent]. fold s' in Hget. rewrite Hget. exact Hid.
Qed.

(** A network on which every request succeeds. *)
Definition healthy_net : Net :=
  mkNet (fun _ _ => RestResponse 200 "OK"
                      (RestBodyJson (JStr "CONTRIBUTOR") "2024-05-01T10:00:00Z" "octocat"))
        (fun _ ns => GraphQLResponse 200 "OK"
                       (GraphQLResult None
                          (Repository
                             (map (fun n => Some (mkGraphQLNode n (JStr "MEMBER")
                                                    "2024-05-01T10:00:00Z" "octocat"))
                                  ns))))
        (fun _ => 120).

(** Five pull requests on a page. *)
Definition five_links : Document :=
  mkDocument [ "https://github.com/octo/repo/pull/1";
               "https://github.com/octo/repo/pull/2";
               "https://github.com/octo/repo/pull/3";
               "https://github.com/octo/repo/pull/4";
               "https://github.com/octo/repo/pull/5" ]
             None [].

(** A session without credential that already holds the record of the
    pull request 2. *)
Definition returning_session : State :=
  mkState [(2, sample_record 2 "NONE")] "new-first" None JsMap.empty
          listing_url five_links 5000 true None None [] [].

Lemma known_record_reused_witness :
  JsMap.get 2 (prData returning_session) = Some (sample_record 2 "NONE")
  /\ JsMap.get 2 (prData (snd (fetchPRData insertion_engine healthy_net
                                (with_clock 99999999
                                   (with_cache (sample_cache 3 (fun _ => 0))
                                               returning_session)))))
     = Some (sample_record 2 "NONE").
Proof.
  split; [reflexivity|].
  apply (known_record_reused insertion_engine healthy_net returning_session 2
           (sample_record 2 "NONE") eq_refl).
Defined.

(* ================================================================== *)
(** ** Failure of the batch *)
(* ================================================================== *)

(** The aggregated answer is a failure: the transport failed, the status is
    not a success, the body cannot be read, it carries an error payload, or
    it carries no data to read the sub-results from. *)
Definition batch_failure (prNumbers : list Z) (reply : GraphQLReply) : bool :=
  match reply with
  | GraphQLRejected _ => true
  | GraphQLResponse status _ body =>
      negb (response_ok status)
      || match body with
         | GraphQLBodyError _ => true
         | GraphQLResult (Some _) _ => true
         | GraphQLResult None (DataMissing _) => true
         | GraphQLResult None (RepositoryNull _) =>
             match prNumbers with [] => false | _ :: _ => true end
         | GraphQLResult None (Repository _) => false
         end
  end.

(** The identifiers [fetchPRData] finds outstanding, and the state in which
    it starts to fetch them. *)
Definition ready (E : SortEngine) (s : State) : State :=
  load_cached E (allPRNumbers (clearExpiredCache E s)) (clearExpiredCache E s).

Definition outstanding (E : SortEngine) (s : State) : list Z :=
  filter (fun num => negb (JsMap.has num (prData (ready E s))))
         (allPRNumbers (clearExpiredCache E s)).

Lemma fetchPRDataGraphQL_failure (E : SortEngine) (net : Net) prNumbers s :
  batch_failure prNumbers (graphql_reply net (length (requests s)) prNumbers) = true ->
  exists msg,
    fetchPRDataGraphQL E net prNumbers s
    = (Thrown msg, send net (GraphQLPost prNumbers) s).
Proof.
  unfold batch_failure, fetchPRDataGraphQL.
  destruct (graphql_reply net (length (requests s)) prNumbers)
    as [m|status text body]; [eauto|].
  destruct (negb (response_ok status)); [eauto|]. simpl.
  destruct body as [m|[errors|] [m|m|nodes]]; eauto; try discriminate.
  destruct prNumbers; [discriminate|eauto].
Qed.

(** C7. When the batch is chosen (a credential and more than three
    outstanding identifiers) and its answer is a failure, the batch throws
    before it commits anything: the records, the cache and its stored copy are
    those from before the request.  [fetchPRData] then runs the sequential
    strategy over the very list of outstanding identifiers the batch was given,
    from that state. *)
Theorem batch_failure_falls_back (E : SortEngine) (net : Net) (s : State) :
  let s1 := ready E s in
  let ids := outstanding E s in
  authenticated s1 = true ->
  (3 < length ids)%nat ->
  batch_failure ids (graphql_reply net (length (requests s1)) ids) = true ->
  exists msg s2,
    fetchPRDataGraphQL E net ids s1 = (Thrown msg, s2)
    /\ prData s2 = prData s1
    /\ cache s2 = cache s1
    /\ stored_cache s2 = stored_cache s1
    /\ requests s2 = requests s1 ++ [GraphQLPost ids]
    /\ fetchPRData E net s
       = fetchPRDataREST E net ids
           (log ("GraphQL failed, falling back to REST API: " ++ msg) s2).
Proof.
  intros s1 ids Hauth Hlen Hfail.
  destruct (fetchPRDataGraphQL_failure E net ids s1 Hfail) as [msg Hthrow].
  exists msg, (send net (GraphQLPost ids) s1).
  split; [exact Hthrow|]. repeat split.
  unfold fetchPRData. fold (ready E s). fold s1.
  change (filter (fun num => negb (JsMap.has num (prData s1)))
                 (allPRNumbers (clearExpiredCache E s))) with ids.
  destruct ids as [|k rest] eqn:Hids; [simpl in Hlen; lia|].
  rewrite Hauth.
  destruct (Nat.ltb_spec 3 (length (k :: rest))) as [_|Hge]; [|lia].
  cbn [andb]. now rewrite Hthrow.
Qed.

(** A network whose aggregated endpoint cannot be reached. *)
Definition batch_down_net : Net :=
  mkNet (rest_reply healthy_net)
        (fun _ _ => GraphQLRejected "Failed to fetch")
        (fun _ => 120).

(** A session with a credential and five pull requests, none known. *)
Definition authenticated_session : State :=
  mkState JsMap.empty "new-first" (Some "ghp_0123456789") JsMap.empty
          listing_url five_links 5000 true None None [] [].

Lemma batch_failure_falls_back_witness :
  authenticated (ready insertion_engine authenticated_session) = true
  /\ (3 < length (outstanding insertion_engine authenticated_session))%nat
  /\ exists msg s2,
       fetchPRData insertion_engine batch_down_net authenticated_session
       = fetchPRDataREST insertion_engine batch_down_net [1; 2; 3; 4; 5]
           (log ("GraphQL failed, falling back to REST API: " ++ msg) s2).
Proof.
  assert (Hauth : authenticated (ready insertion_engine authenticated_session) = true)
    by reflexivity.
  assert (Hlen : (3 < length (outstanding insertion_engine authenticated_session))%nat)
    by (vm_compute; lia).
  split; [exact Hauth|split; [exact Hlen|]].
  destruct (batch_failure_falls_back insertion_engine batch_down_net
              authenticated_session Hauth Hlen eq_refl)
    as (msg & s2 & _ & _ & _ & _ & _ & Hrest).
  exists msg, s2. exact Hrest.
Defined.

(* ================================================================== *)
(** ** The sequential strategy *)
(* ================================================================== *)

Section Sequential.
Variable E : SortEngine.
Variable net : Net.

(** A cache hit costs no request. *)
Lemma rest_cache_hit k rest s d s1 :
  getFromCache E k s = (Some d, s1) ->
  fetchPRDataREST E net (k :: rest) s
  = fetchPRDataREST E net rest (with_prData (JsMap.set k d (prData s1)) s1).
Proof. intros H. cbn [fetchPRDataREST]. now rewrite H. Qed.

(** A fetched record goes to [prData] and to the cache, and the loop goes
    on. *)
Lemma rest_success_commits k rest s s1 d s2 :
  getFromCache E k s = (None, s1) ->
  fetchPRDetails net k s1 = (Returned d, s2) ->
  fetchPRDataREST E net (k :: rest) s
  = fetchPRDataREST E net rest
      (pause (setCache E k d (with_prData (JsMap.set k d (prData s2)) s2))).
Proof. intros H1 H2. cbn [fetchPRDataREST]. now rewrite H1, H2. Qed.

(** A status 403 stops the loop: the rest of the list is not visited, the
    failure that reaches the caller names the rate limit, and the state is the
    one the request left, but for two lines in the console. *)
Lemma rest_rate_limit_aborts k rest s s1 statusText body :
  getFromCache E k s = (None, s1) ->
  rest_reply net (length (requests s1)) k = RestResponse 403 statusText body ->
  fetchPRDataREST E net (k :: rest) s
  = (Thrown rest_abort_message,
     log "Hit GitHub rate limit. Stopping API requests."
         (log ("Failed to fetch data for PR #" ++ toString k ++ ": "
               ++ rate_limit_message)
              (send net (RestGet k) s1))).
Proof.
  intros H1 H2. cbn [fetchPRDataREST]. rewrite H1.
  unfold fetchPRDetails. rewrite H2.
  change (negb (response_ok 403)) with true. cbv iota.
  change (403 =? 403) with true. cbv iota.
  replace (includes rate_limit_message "403") with true by (vm_compute; reflexivity).
  reflexivity.
Qed.

(** A failure whose message does not contain 403 is logged and the loop
    goes on with the next identifier. *)
Lemma rest_other_failure_continues k rest s s1 msg s2 :
  getFromCache E k s = (None, s1) ->
  fetchPRDetails net k s1 = (Thrown msg, s2) ->
  includes msg "403" = false ->
  fetchPRDataREST E net (k :: rest) s
  = fetchPRDataREST E net rest
      (log ("Failed to fetch data for PR #" ++ toString k ++ ": " ++ msg) s2).
Proof. intros H1 H2 H3. cbn [fetchPRDataREST]. now rewrite H1, H2, H3. Qed.

(** The records in [prData] under other identifiers survive the loop,
    however it ends. *)
Lemma rest_keeps_records prNumbers s id d :
  ~ In id prNumbers ->
  JsMap.get id (prData s) = Some d ->
  JsMap.get id (prData (snd (fetchPRDataREST E net prNumbers s))) = Some d.
Proof.
  intros Hid Hget.
  destruct (fetchPRDataREST_untouched E net id prNumbers Hid s) as [-> _].
  exact Hget.
Qed.

End Sequential.

(** A network on which the second pull request is answered by a gateway
    error whose status text quotes the status 403 of a server behind it. *)
Definition gateway_error_net : Net :=
  mkNet (fun _ n => if n =? 2
                    then RestResponse 502 "Bad Gateway (upstream 403)" (RestBodyError "")
                    else rest_reply healthy_net 0%nat n)
        (graphql_reply healthy_net)
        (fun _ => 120).

(** The same network with the plain status text. *)
Definition plain_gateway_error_net : Net :=
  mkNet (fun _ n => if n =? 2
                    then RestResponse 502 "Bad Gateway" (RestBodyError "")
                    else rest_reply healthy_net 0%nat n)
        (graphql_reply healthy_net)
        (fun _ => 120).

(** A session without credential and without any record. *)
Definition anonymous_session : State :=
  mkState JsMap.empty "new-first" None JsMap.empty
          listing_url five_links 5000 true None None [] [].

(** C4 on a failing input.  The second of three requests fails with status
    502; it is not a rate-limit signal.  With the plain status text the
    failure is logged and the third pull request is fetched.  With a status
    text that happens to contain the characters 403 the loop stops as if the
    rate limit had been hit: the caller gets the rate-limit failure and the
    third pull request is never requested. *)
Theorem gateway_error_taken_for_rate_limit :
  let plain := fetchPRDataREST insertion_engine plain_gateway_error_net
                               [1; 2; 3] anonymous_session in
  let quoted := fetchPRDataREST insertion_engine gateway_error_net
                                [1; 2; 3] anonymous_session in
  fst plain = Returned tt
  /\ requests (snd plain) = [RestGet 1; RestGet 2; RestGet 3]
  /\ JsMap.keys (prData (snd plain)) = [1; 3]
  /\ fst quoted = Thrown rest_abort_message
  /\ requests (snd quoted) = [RestGet 1; RestGet 2]
  /\ JsMap.keys (prData (snd quoted)) = [1]
  /\ JsMap.keys (cache (snd quoted)) = [1].
Proof.
  vm_compute. repeat split.
Qed.

(* ================================================================== *)
(** ** The trigger *)
(* ================================================================== *)

Lemma restoreDefaultOrder_frame (E : SortEngine) (s : State) :
  requests (restoreDefaultOrder E s) = requests s
  /\ prData (restoreDefaultOrder E s) = prData s
  /\ cache (restoreDefaultOrder E s) = cache s.
Proof.
  unfold restoreDefaultOrder. destruct (container (page s)); repeat split.
Qed.

Lemma saveSortPreference_frame (s : State) :
  requests (saveSortPreference s) = requests s
  /\ prData (saveSortPreference s) = prData s
  /\ cache (saveSortPreference s) = cache s.
Proof.
  unfold saveSortPreference. destruct (storage_available s); repeat split.
Qed.

Lemma handleSortRequest_default (E : SortEngine) (net : Net) (s : State) :
  includes (location_href s) "github.com" = true ->
  includes (location_href s) "/pulls" = true ->
  handleSortRequest E net "default" s
  = (mkResponse true "Restored to default order",
     restoreDefaultOrder E (saveSortPreference (with_sortOrder "default" s))).
Proof.
  intros H1 H2. unfold handleSortRequest. rewrite H1, H2. reflexivity.
Qed.


(* ================================================================== *)
(** * Further properties of the script *)
(* ================================================================== *)

(** ** Sweeping the cache *)

Lemma set_In {V} (k : Z) (v : V) (m : JsMap.t V) e :
  In e (JsMap.set k v m) -> e = (k, v) \/ In e m.
Proof.
  induction m as [|[k0 v0] m IH]; simpl.
  - intros [<-|[]]. now left.
  - destruct (k0 =? k); simpl.
    + intros [<-|H]; [now left|right; now right].
    + intros [<-|H]; [right; now left|].
      destruct (IH H) as [->|H']; [now left|right; now right].
Qed.

Lemma of_entries_In {V} (es : list (Z * V)) e :
  In e (JsMap.of_entries es) -> In e es.
Proof.
  unfold JsMap.of_entries.
  assert (G : forall acc : JsMap.t V,
             In e (fold_left (fun m x => JsMap.set (fst x) (snd x) m) es acc) ->
             In e acc \/ In e es).
  { induction es as [|[k v] es IH]; intros acc H; simpl in *; [now left|].
    apply IH in H as [H|H]; [|right; now right].
    apply set_In in H as [->|H]; [right; now left|now left]. }
  intros H. apply G in H as [[]|H]. exact H.
Qed.

Lemma get_filter {V} (p : Z * V -> bool) (k : Z) (v : V) (m : JsMap.t V) :
  JsMap.get k m = Some v -> p (k, v) = true ->
  JsMap.get k (filter p m) = Some v.
Proof.
  induction m as [|[k0 v0] m IH]; simpl; [discriminate|].
  destruct (Z.eqb_spec k0 k) as [->|Hne].
  - intros [= ->] Hp. rewrite Hp. simpl. now rewrite Z.eqb_refl.
  - intros Hget Hp. destruct (p (k0, v0)); simpl; [|auto].
    destruct (Z.eqb_spec k0 k); [contradiction|auto].
Qed.

(** The entries of the cache that have not reached the 30 minutes. *)
Definition fresh_entries (s : State) : JsMap.t CacheEntry :=
  filter (fun e => negb (expired (clock s) e)) (cache s).

Lemma save_incl (E : SortEngine) (s : State) :
  incl (cache (saveCacheToStorage E s)) (cache s).
Proof.
  destruct (storage_available s) eqn:Hst;
    [|rewrite save_without_storage by exact Hst; apply incl_refl].
  destruct (Nat.le_gt_cases (JsMap.size (cache s)) 200) as [Hle|Hgt].
  - rewrite save_small by exact Hle. apply incl_refl.
  - rewrite save_large by assumption. intros e He.
    apply of_entries_In in He.
    eapply Permutation_in; [apply (js_sort_permutation E)|].
    rewrite <- (firstn_skipn 150 (js_sort E newest_first (cache s))).
    apply in_or_app. now left.
Qed.

Lemma fresh_entries_all (s : State) :
  (length (cache s) - length (fresh_entries s) = 0)%nat -> fresh_entries s = cache s.
Proof.
  intros H. unfold fresh_entries in *.
  pose proof (filter_length_le (fun e => negb (expired (clock s) e)) (cache s)) as Hle.
  apply forallb_filter_id, filter_length_forallb. lia.
Qed.

Lemma clearExpiredCache_cases (E : SortEngine) (s : State) :
  clearExpiredCache E s = s /\ fresh_entries s = cache s
  \/ clearExpiredCache E s = saveCacheToStorage E (with_cache (fresh_entries s) s).
Proof.
  unfold clearExpiredCache. fold (fresh_entries s).
  destruct (Nat.ltb_spec 0 (length (cache s) - length (fresh_entries s))) as [Hlt|Hge].
  - now right.
  - left. split; [reflexivity|]. apply fresh_entries_all. lia.
Qed.

Lemma clearExpiredCache_small (E : SortEngine) (s : State) :
  (JsMap.size (cache s) <= 200)%nat \/ storage_available s = false ->
  cache (clearExpiredCache E s) = fresh_entries s.
Proof.
  intros Hsmall.
  destruct (clearExpiredCache_cases E s) as [[-> Hall]| ->]; [now rewrite Hall|].
  destruct Hsmall as [Hle|Hst].
  - apply save_small.
    change (length (fresh_entries s) <= 200)%nat.
    pose proof (filter_length_le (fun e => negb (expired (clock s) e)) (cache s)).
    unfold fresh_entries, JsMap.size in *. lia.
  - now rewrite save_without_storage.
Qed.

Lemma clearExpiredCache_clock (E : SortEngine) (s : State) :
  clock (clearExpiredCache E s) = clock s.
Proof.
  destruct (clearExpiredCache_cases E s) as [[-> _]| ->];
    [reflexivity|now rewrite save_clock_eq].
Qed.

(** X1. After [clearExpiredCache] no entry of the cache has reached the 30
    minutes, and every entry was in the cache before.  When the cache held at
    most 200 entries, or the storage is not available, the sweep keeps exactly
    the entries below 30 minutes, in their order.  The clock, the records and
    the log of requests are not touched. *)
Theorem sweep_leaves_fresh (E : SortEngine) (s : State) :
  let s' := clearExpiredCache E s in
  (forall k e, In (k, e) (cache s') ->
               clock s - timestamp e < cacheExpiry /\ In (k, e) (cache s))
  /\ (((JsMap.size (cache s) <= 200)%nat \/ storage_available s = false) ->
      cache s' = fresh_entries s)
  /\ clock s' = clock s /\ prData s' = prData s /\ requests s' = requests s.
Proof.
  intros s'.
  assert (Hfresh : forall k e, In (k, e) (fresh_entries s) ->
                     clock s - timestamp e < cacheExpiry /\ In (k, e) (cache s)).
  { intros k e Hin. apply filter_In in Hin as [Hin Hp]. split; [|exact Hin].
    unfold expired in Hp. simpl in Hp. apply negb_true_iff in Hp.
    apply Z.leb_gt in Hp. exact Hp. }
  split; [|split; [|split; [|split]]].
  - intros k e Hin. apply Hfresh. subst s'.
    destruct (clearExpiredCache_cases E s) as [[Heq Hall]|Heq]; rewrite Heq in Hin.
    + now rewrite Hall.
    + apply save_incl in Hin. exact Hin.
  - apply clearExpiredCache_small.
  - apply clearExpiredCache_clock.
  - apply clearExpiredCache_prData.
  - apply clearExpiredCache_requests.
Qed.

(** ** Reading the cache *)

(** X2. [getFromCache] serves a record only from an entry that has not
    reached the 30 minutes, and then it changes nothing.  When it answers
    absence, no entry is left under the identifier; and, the cache holding at
    most 200 entries, the entries under the other identifiers are as
    before. *)
Theorem cache_read_sound (E : SortEngine) (k : Z) (s : State) :
  let res := fst (getFromCache E k s) in
  let s' := snd (getFromCache E k s) in
  (forall d, res = Some d ->
     s' = s /\ exists e, JsMap.get k (cache s) = Some e /\ data e = d
                         /\ clock s - timestamp e < cacheExpiry)
  /\ (res = None -> JsMap.get k (cache s') = None)
  /\ (res = None -> (JsMap.size (cache s) <= 200)%nat ->
      forall k', k' <> k -> JsMap.get k' (cache s') = JsMap.get k' (cache s)).
Proof.
  intros res s'. subst res s'.
  destruct (JsMap.get k (cache s)) as [e|] eqn:Hget.
  - destruct (Z.lt_ge_cases (clock s - timestamp e) cacheExpiry) as [Hf|Hx].
    + rewrite (getFromCache_fresh E k e s Hget Hf). cbn [fst snd].
      split; [|split; discriminate].
      intros d [= <-]. split; [reflexivity|]. now exists e.
    + rewrite (getFromCache_expired E k e s Hget Hx). cbn [fst snd].
      split; [discriminate|]. split.
      * intros _. apply save_get_None. apply JsMap.get_delete_same.
      * intros _ Hsize k' Hk'. rewrite save_small.
        -- now apply JsMap.get_delete_other.
        -- pose proof (JsMap.size_delete_le k (cache s)).
           change (JsMap.size (JsMap.delete k (cache s)) <= 200)%nat. lia.
  - rewrite (getFromCache_absent E k s Hget). cbn [fst snd].
    split; [discriminate|]. split; [intros _; exact Hget|reflexivity].
Qed.

(** ** What a fetch never touches *)

(** The part of the state that belongs to the user and the page: the order
    in force, the credential, the address, the page, the availability of the
    storage and the stored order. *)
Definition settings (s : State) :
  string * option string * string * Document * bool * option string :=
  (sortOrder s, githubToken s, location_href s, page s, storage_available s,
   stored_order s).

Lemma settings_fields s s' :
  settings s' = settings s ->
  sortOrder s' = sortOrder s /\ githubToken s' = githubToken s
  /\ location_href s' = location_href s /\ page s' = page s
  /\ storage_available s' = storage_available s
  /\ stored_order s' = stored_order s /\ authenticated s' = authenticated s.
Proof.
  unfold settings, authenticated. intros H. injection H as H1 H2 H3 H4 H5 H6.
  rewrite H2. repeat split; assumption.
Qed.

Lemma allPRNumbers_settings s s' :
  settings s' = settings s -> allPRNumbers s' = allPRNumbers s.
Proof.
  intros H. apply settings_fields in H as (_ & _ & _ & Hp & _ & _ & Ha).
  unfold allPRNumbers, maxPRs. now rewrite Hp, Ha.
Qed.

Section Frames.
Variable E : SortEngine.
Variable net : Net.

Lemma save_settings s : settings (saveCacheToStorage E s) = settings s.
Proof.
  unfold settings, saveCacheToStorage.
  destruct (storage_available s) eqn:Hst; [|now rewrite Hst].
  destruct (200 <? length (cache s))%nat; cbn [sortOrder githubToken location_href
    page storage_available stored_order with_stored_cache with_cache];
    now rewrite Hst.
Qed.

Lemma getFromCache_settings k s : settings (snd (getFromCache E k s)) = settings s.
Proof.
  unfold getFromCache. destruct (JsMap.get k (cache s)) as [e|]; [|reflexivity].
  destruct (clock s - timestamp e <? cacheExpiry); [reflexivity|].
  cbn [snd]. now rewrite save_settings.
Qed.

Lemma setCache_settings k d s : settings (setCache E k d s) = settings s.
Proof. unfold setCache. now rewrite save_settings. Qed.

Lemma pause_settings s : settings (pause s) = settings s.
Proof. unfold pause. now destruct (authenticated s). Qed.

Lemma clearExpiredCache_settings s : settings (clearExpiredCache E s) = settings s.
Proof.
  destruct (clearExpiredCache_cases E s) as [[-> _]| ->]; [reflexivity|].
  now rewrite save_settings.
Qed.

Lemma fetchPRDataREST_settings prNumbers :
  forall s, settings (snd (fetchPRDataREST E net prNumbers s)) = settings s.
Proof.
  induction prNumbers as [|k rest IH]; intros s; [reflexivity|].
  cbn [fetchPRDataREST].
  pose proof (getFromCache_settings k s) as H1.
  destruct (getFromCache E k s) as [cached s1]. cbn [snd] in H1.
  destruct cached as [d|]; [now rewrite IH|].
  pose proof (fetchPRDetails_state net k s1) as H2.
  destruct (fetchPRDetails net k s1) as [fetched s2]. cbn [snd] in H2. subst s2.
  destruct fetched as [d|msg].
  - rewrite IH, pause_settings, setCache_settings. exact H1.
  - destruct (includes msg "403"); [exact H1|]. rewrite IH. exact H1.
Qed.

Lemma commit_nodes_settings nodes prNumbers :
  forall index s, settings (commit_nodes E prNumbers index nodes s) = settings s.
Proof.
  induction prNumbers as [|k rest IH]; intros index s; [reflexivity|].
  cbn [commit_nodes]. rewrite IH.
  destruct (nth index nodes None); [|reflexivity]. now rewrite setCache_settings.
Qed.

Lemma fetchPRDataGraphQL_state prNumbers s :
  snd (fetchPRDataGraphQL E net prNumbers s) = send net (GraphQLPost prNumbers) s
  \/ exists nodes,
       snd (fetchPRDataGraphQL E net prNumbers s)
       = commit_nodes E prNumbers 0 nodes (send net (GraphQLPost prNumbers) s).
Proof.
  unfold fetchPRDataGraphQL.
  destruct (graphql_reply net (length (requests s)) prNumbers)
    as [m|status text body]; [now left|].
  destruct (negb (response_ok status)); [now left|].
  destruct body as [m|[errors|] [m|m|nodes]]; try (now left).
  - destruct prNumbers; now left.
  - right. now exists nodes.
Qed.

Lemma fetchPRDataGraphQL_settings prNumbers s :
  settings (snd (fetchPRDataGraphQL E net prNumbers s)) = settings s.
Proof.
  destruct (fetchPRDataGraphQL_state prNumbers s) as [-> | [nodes ->]];
    [reflexivity|now rewrite commit_nodes_settings].
Qed.

Lemma load_cached_settings prNumbers :
  forall s, settings (load_cached E prNumbers s) = settings s.
Proof.
  induction prNumbers as [|k rest IH]; intros s; [reflexivity|].
  cbn [load_cached]. destruct (JsMap.has k (prData s)); [apply IH|].
  pose proof (getFromCache_settings k s) as H1.
  destruct (getFromCache E k s) as [cached s1]. cbn [snd] in H1.
  destruct cached as [d|]; rewrite IH; exact H1.
Qed.

Lemma fetchPRData_settings s : settings (snd (fetchPRData E net s)) = settings s.
Proof.
  unfold fetchPRData.
  set (s0 := clearExpiredCache E s).
  set (s1 := load_cached E (allPRNumbers s0) s0).
  assert (H1 : settings s1 = settings s)
    by (unfold s1; rewrite load_cached_settings; apply clearExpiredCache_settings).
  destruct (filter (fun num => negb (JsMap.has num (prData s1))) (allPRNumbers s0))
    as [|k rest]; [exact H1|].
  destruct (authenticated s1 && (3 <? length (k :: rest))%nat).
  - pose proof (fetchPRDataGraphQL_settings (k :: rest) s1) as H2.
    destruct (fetchPRDataGraphQL E net (k :: rest) s1) as [[[]|msg] s2];
      cbn [snd] in H2.
    + cbn [snd]. congruence.
    + rewrite fetchPRDataREST_settings.
      transitivity (settings s2); [reflexivity|congruence].
  - now rewrite fetchPRDataREST_settings.
Qed.

(** ** The only failure a fetch lets through *)

Lemma fetchPRDataREST_failure prNumbers :
  forall s msg, fst (fetchPRDataREST E net prNumbers s) = Thrown msg ->
                msg = rest_abort_message.
Proof.
  induction prNumbers as [|k rest IH]; intros s msg; [discriminate|].
  cbn [fetchPRDataREST].
  destruct (getFromCache E k s) as [[d|] s1]; [apply IH|].
  destruct (fetchPRDetails net k s1) as [[d|m] s2]; [apply IH|].
  destruct (includes m "403"); [|apply IH].
  cbn [fst]. congruence.
Qed.

Lemma fetchPRData_failure s msg :
  fst (fetchPRData E net s) = Thrown msg -> msg = rest_abort_message.
Proof.
  unfold fetchPRData.
  set (s0 := clearExpiredCache E s).
  set (s1 := load_cached E (allPRNumbers s0) s0).
  destruct (filter (fun num => negb (JsMap.has num (prData s1))) (allPRNumbers s0))
    as [|k rest]; [discriminate|].
  destruct (authenticated s1 && (3 <? length (k :: rest))%nat).
  - destruct (fetchPRDataGraphQL E net (k :: rest) s1) as [[[]|m] s2];
      [discriminate|apply fetchPRDataREST_failure].
  - apply fetchPRDataREST_failure.
Qed.

End Frames.

(** X5. Whatever goes wrong on the network, a sort request fails in one of
    two ways only: outside a listing, with the message that says so, or with
    the rate-limit message of the sequential strategy.  A failure of the batch
    or of a single request never reaches the caller as such. *)
Theorem trigger_failures (E : SortEngine) (net : Net) (order : string) (s : State) :
  let response := fst (handleSortRequest E net order s) in
  success response = true
  \/ response = mkResponse false "Not on a GitHub pull requests page"
  \/ response = mkResponse false ("Error sorting PRs: " ++ rest_abort_message).
Proof.
  unfold handleSortRequest.
  destruct (negb (includes (location_href s) "github.com")
            || negb (includes (location_href s) "/pulls")); [right; now left|].
  destruct (String.eqb order "default"); [now left|].
  set (s1 := saveSortPreference (with_sortOrder order s)).
  pose proof (fetchPRData_failure E net s1) as Hfail.
  destruct (fetchPRData E net s1) as [[[]|msg] s2]; [now left|].
  right. right. cbn [fst] in *. now rewrite (Hfail msg eq_refl).
Qed.

(** ** The order in force *)

Lemma with_page_same s : with_page (page s) s = s.
Proof. now destruct s. Qed.

Lemma applySorting_page_only (E : SortEngine) s :
  exists d, applySorting E s = with_page d s.
Proof.
  unfold applySorting.
  destruct (container (page s)) as [c|]; [|exists (page s); now rewrite with_page_same].
  destruct (rows c); [exists (page s); now rewrite with_page_same|].
  eexists. reflexivity.
Qed.

Lemma restoreDefaultOrder_page_only (E : SortEngine) s :
  exists d, restoreDefaultOrder E s = with_page d s.
Proof.
  unfold restoreDefaultOrder.
  destruct (container (page s)) as [c|]; [|exists (page s); now rewrite with_page_same].
  eexists. reflexivity.
Qed.

(** A network that answers every request for a pull request with the
    status 403. *)
Definition limited_net : Net :=
  mkNet (fun _ _ => RestResponse 403 "rate limit exceeded" (RestBodyError ""))
        (graphql_reply healthy_net)
        (fun _ => 120).

(** X7. On a listing, a sort request records the requested order before it
    does anything else, and nothing afterwards takes it back: whether the
    request succeeds or fails, the order in force is the requested one and,
    the storage being available, so is the stored order.  The credential and
    the address are those from before. *)
Theorem order_recorded (E : SortEngine) (net : Net) (order : string) (s : State) :
  includes (location_href s) "github.com" = true ->
  includes (location_href s) "/pulls" = true ->
  let s' := snd (handleSortRequest E net order s) in
  sortOrder s' = order
  /\ stored_order s' = (if storage_available s then Some order else stored_order s)
  /\ githubToken s' = githubToken s
  /\ location_href s' = location_href s.
Proof.
  intros H1 H2. unfold handleSortRequest. rewrite H1, H2. cbn [negb orb].
  set (s1 := saveSortPreference (with_sortOrder order s)).
  assert (Hs1 : sortOrder s1 = order
                /\ stored_order s1 = (if storage_available s then Some order
                                      else stored_order s)
                /\ githubToken s1 = githubToken s
                /\ location_href s1 = location_href s).
  { unfold s1, saveSortPreference.
    change (storage_available (with_sortOrder order s)) with (storage_available s).
    destruct (storage_available s); repeat split. }
  destruct (String.eqb order "default").
  - cbn [snd]. destruct (restoreDefaultOrder_page_only E s1) as [d ->]. exact Hs1.
  - pose proof (fetchPRData_settings E net s1) as Hset.
    destruct (fetchPRData E net s1) as [[[]|msg] s2]; cbn [snd] in *;
      apply settings_fields in Hset as (F1 & F2 & F3 & _ & _ & F6 & _).
    + destruct (applySorting_page_only E s2) as [d ->].
      cbn [sortOrder stored_order githubToken location_href with_page].
      rewrite F1, F2, F3, F6. exact Hs1.
    + cbn [sortOrder stored_order githubToken location_href log with_console].
      rewrite F1, F2, F3, F6. exact Hs1.
Qed.

Lemma order_recorded_witness :
  includes (location_href anonymous_session) "github.com" = true
  /\ includes (location_href anonymous_session) "/pulls" = true
  /\ success (fst (handleSortRequest insertion_engine limited_net
                     "existing-first" anonymous_session)) = false
  /\ stored_order (snd (handleSortRequest insertion_engine limited_net
                          "existing-first" anonymous_session))
     = Some "existing-first".
Proof.
  assert (H1 : includes (location_href anonymous_session) "github.com" = true)
    by (vm_compute; reflexivity).
  assert (H2 : includes (location_href anonymous_session) "/pulls" = true)
    by (vm_compute; reflexivity).
  split; [exact H1|split; [exact H2|split; [vm_compute; reflexivity|]]].
  apply (order_recorded insertion_engine limited_net "existing-first"
           anonymous_session H1 H2).
Defined.

(** ** Fetching what is already known *)

(** The cache holds, under [n], an entry that has not reached the 30
    minutes. *)
Definition cached_fresh (n : Z) (s : State) : Prop :=
  exists e, JsMap.get n (cache s) = Some e /\ clock s - timestamp e < cacheExpiry.

Definition known (n : Z) (s : State) : Prop :=
  JsMap.has n (prData s) = true \/ cached_fresh n s.

Lemma has_set_same {V} k (v : V) m : JsMap.has k (JsMap.set k v m) = true.
Proof. unfold JsMap.has. now rewrite JsMap.get_set_same. Qed.

Lemma has_set_grows {V} k k' (v : V) m :
  JsMap.has k' m = true -> JsMap.has k' (JsMap.set k v m) = true.
Proof.
  unfold JsMap.has. destruct (Z.eq_dec k' k) as [->|Hne].
  - now rewrite JsMap.get_set_same.
  - now rewrite JsMap.get_set_other.
Qed.

Section KnownIdentifiers.
Variable E : SortEngine.
Variable net : Net.

Lemma load_cached_known prNumbers :
  forall s, (forall n, In n prNumbers -> known n s) ->
    let s' := load_cached E prNumbers s in
    cache s' = cache s /\ clock s' = clock s /\ requests s' = requests s
    /\ stored_cache s' = stored_cache s
    /\ (forall n, In n prNumbers -> JsMap.has n (prData s') = true)
    /\ (forall n, JsMap.has n (prData s) = true -> JsMap.has n (prData s') = true).
Proof.
  induction prNumbers as [|k rest IH]; intros s Hknown; cbn [load_cached].
  - repeat split; [intros n []|auto].
  - assert (Hrest : forall n, In n rest -> known n s)
      by (intros n Hn; apply Hknown; now right).
    destruct (JsMap.has k (prData s)) eqn:Hk.
    + destruct (IH s Hrest) as (C1 & C2 & C3 & C4 & C5 & C6).
      repeat split; try assumption.
      intros n [<-|Hn]; [now apply C6|now apply C5].
    + destruct (Hknown k) as [Hhas|(e & Hget & Hage)]; [now left|congruence|].
      rewrite (getFromCache_fresh E k e s Hget Hage).
      set (s1 := with_prData (JsMap.set k (data e) (prData s)) s).
      assert (Hrest1 : forall n, In n rest -> known n s1).
      { intros n Hn. destruct (Hrest n Hn) as [Hhas|Hc]; [left|right; exact Hc].
        now apply has_set_grows. }
      destruct (IH s1 Hrest1) as (C1 & C2 & C3 & C4 & C5 & C6).
      repeat split; try assumption.
      * intros n [<-|Hn]; [apply C6, has_set_same|now apply C5].
      * intros n Hn. apply C6. now apply has_set_grows.
Qed.

Lemma clearExpiredCache_keeps_fresh n s :
  (JsMap.size (cache s) <= 200)%nat ->
  cached_fresh n s -> cached_fresh n (clearExpiredCache E s).
Proof.
  intros Hsize (e & Hget & Hage).
  exists e. rewrite clearExpiredCache_clock.
  rewrite (clearExpiredCache_small E s (or_introl Hsize)). split; [|exact Hage].
  apply get_filter; [exact Hget|].
  unfold expired. cbn [snd]. apply negb_true_iff, Z.leb_gt. exact Hage.
Qed.

End KnownIdentifiers.

Lemma filter_none {A} (p : A -> bool) (l : list A) :
  (forall x, In x l -> p x = false) -> filter p l = [].
Proof.
  induction l as [|x l IH]; intros H; simpl; [reflexivity|].
  rewrite (H x) by now left. apply IH. intros y Hy. apply H. now right.
Qed.

(** X3. When the cache holds at most 200 entries and every identifier of
    the page has its record in [prData] or an entry below 30 minutes in the
    cache, [fetchPRData] returns without sending a request, and afterwards
    [prData] holds a record for every identifier of the page. *)
Theorem fetch_without_request (E : SortEngine) (net : Net) (s : State) :
  (JsMap.size (cache s) <= 200)%nat ->
  (forall n, In n (allPRNumbers s) -> known n s) ->
  fst (fetchPRData E net s) = Returned tt
  /\ requests (snd (fetchPRData E net s)) = requests s
  /\ forall n, In n (allPRNumbers s) ->
               JsMap.has n (prData (snd (fetchPRData E net s))) = true.
Proof.
  intros Hsize Hknown. unfold fetchPRData.
  set (s0 := clearExpiredCache E s).
  assert (Hnum : allPRNumbers s0 = allPRNumbers s)
    by apply allPRNumbers_settings, clearExpiredCache_settings.
  rewrite Hnum.
  assert (Hknown0 : forall n, In n (allPRNumbers s) -> known n s0).
  { intros n Hn. destruct (Hknown n Hn) as [Hhas|Hc].
    - left. unfold s0. now rewrite clearExpiredCache_prData.
    - right. now apply clearExpiredCache_keeps_fresh. }
  destruct (load_cached_known E (allPRNumbers s) s0 Hknown0)
    as (_ & _ & Hreq & _ & Hall & _).
  set (s1 := load_cached E (allPRNumbers s) s0) in *.
  assert (Hnone : filter (fun num => negb (JsMap.has num (prData s1)))
                         (allPRNumbers s) = []).
  { apply filter_none. intros n Hn. now rewrite (Hall n Hn). }
  rewrite Hnone. cbn [fst snd]. split; [reflexivity|split; [|exact Hall]].
  rewrite Hreq. apply clearExpiredCache_requests.
Qed.

(** A session without credential whose cache holds the five pull requests
    of the page, stored one second ago. *)
Definition warm_session : State :=
  mkState JsMap.empty "new-first" None (sample_cache 5 (fun _ => 4000))
          listing_url five_links 5000 true None None [] [].

Lemma fetch_without_request_witness :
  (JsMap.size (cache warm_session) <= 200)%nat
  /\ (forall n, In n (allPRNumbers warm_session) -> known n warm_session)
  /\ requests (snd (fetchPRData insertion_engine limited_net warm_session)) = [].
Proof.
  assert (Hsize : (JsMap.size (cache warm_session) <= 200)%nat)
    by (vm_compute; lia).
  assert (Hknown : forall n, In n (allPRNumbers warm_session) -> known n warm_session).
  { intros n Hn. right. vm_compute in Hn.
    destruct Hn as [<-|[<-|[<-|[<-|[<-|[]]]]]];
      (eexists; split; [vm_compute; reflexivity|vm_compute; reflexivity]). }
  split; [exact Hsize|split; [exact Hknown|]].
  apply (fetch_without_request insertion_engine limited_net warm_session Hsize Hknown).
Defined.

(** ** How many requests a fetch sends *)

(** A request for one pull request of a list. *)
Definition rest_request_of (prNumbers : list Z) (q : Request) : Prop :=
  exists k, q = RestGet k /\ In k prNumbers.

Lemma allPRNumbers_length s : (length (allPRNumbers s) <= maxCount s)%nat.
Proof.
  unfold allPRNumbers. rewrite keep_numbers_identifiers.
  etransitivity; [apply identifiers_of_length|]. apply firstn_le_length.
Qed.

Section RequestCount.
Variable E : SortEngine.
Variable net : Net.

Lemma fetchPRDataREST_sent prNumbers :
  forall s, exists sent,
    requests (snd (fetchPRDataREST E net prNumbers s)) = requests s ++ sent
    /\ (length sent <= length prNumbers)%nat
    /\ Forall (rest_request_of prNumbers) sent.
Proof.
  induction prNumbers as [|k rest IH]; intros s.
  - exists []. cbn. rewrite app_nil_r. repeat split; [lia|constructor].
  - assert (Hweak : forall sent, Forall (rest_request_of rest) sent ->
                                 Forall (rest_request_of (k :: rest)) sent).
    { intros sent. apply Forall_impl. intros q (k' & -> & Hk').
      exists k'. split; [reflexivity|now right]. }
    cbn [fetchPRDataREST].
    pose proof (getFromCache_requests E k s) as R1.
    destruct (getFromCache E k s) as [cached s1]. cbn [snd] in R1.
    destruct cached as [d|].
    + destruct (IH (with_prData (JsMap.set k d (prData s1)) s1))
        as (sent & Hreq & Hlen & Hall).
      exists sent. rewrite Hreq. cbn [requests with_prData]. rewrite R1.
      repeat split; [simpl; lia|now apply Hweak].
    + pose proof (fetchPRDetails_state net k s1) as R2.
      destruct (fetchPRDetails net k s1) as [fetched s2]. cbn [snd] in R2.
      assert (Hone : rest_request_of (k :: rest) (RestGet k))
        by (exists k; split; [reflexivity|now left]).
      assert (Hreq2 : requests s2 = requests s ++ [RestGet k])
        by (rewrite R2; cbn; now rewrite R1).
      destruct fetched as [d|msg].
      * destruct (IH (pause (setCache E k d
                         (with_prData (JsMap.set k d (prData s2)) s2))))
          as (sent & Hreq & Hlen & Hall).
        exists (RestGet k :: sent). rewrite Hreq.
        assert (Hp : requests (pause (setCache E k d
                        (with_prData (JsMap.set k d (prData s2)) s2)))
                     = requests s2).
        { unfold pause.
          destruct (authenticated _); cbn [requests with_clock];
            now rewrite setCache_requests. }
        rewrite Hp, Hreq2, <- app_assoc.
        repeat split; [simpl; lia|constructor; [exact Hone|now apply Hweak]].
      * destruct (includes msg "403").
        -- exists [RestGet k]. cbn [snd requests log with_console].
           rewrite Hreq2. repeat split; [simpl; lia|now constructor].
        -- destruct (IH (log ("Failed to fetch data for PR #" ++ toString k
                              ++ ": " ++ msg) s2)) as (sent & Hreq & Hlen & Hall).
           exists (RestGet k :: sent). rewrite Hreq.
           cbn [requests log with_console]. rewrite Hreq2, <- app_assoc.
           repeat split; [simpl; lia|constructor; [exact Hone|now apply Hweak]].
Qed.

Lemma commit_nodes_requests nodes prNumbers :
  forall index s, requests (commit_nodes E prNumbers index nodes s) = requests s.
Proof.
  induction prNumbers as [|k rest IH]; intros index s; [reflexivity|].
  cbn [commit_nodes]. rewrite IH.
  destruct (nth index nodes None); [|reflexivity]. now rewrite setCache_requests.
Qed.

Lemma fetchPRDataGraphQL_requests prNumbers s :
  requests (snd (fetchPRDataGraphQL E net prNumbers s))
  = requests s ++ [GraphQLPost prNumbers].
Proof.
  destruct (fetchPRDataGraphQL_state E net prNumbers s) as [-> | [nodes ->]];
    [reflexivity|now rewrite commit_nodes_requests].
Qed.

Lemma load_cached_requests prNumbers :
  forall s, requests (load_cached E prNumbers s) = requests s.
Proof.
  induction prNumbers as [|k rest IH]; intros s; [reflexivity|].
  cbn [load_cached]. destruct (JsMap.has k (prData s)); [apply IH|].
  pose proof (getFromCache_requests E k s) as H1.
  destruct (getFromCache E k s) as [cached s1]. cbn [snd] in H1.
  destruct cached as [d|]; rewrite IH; exact H1.
Qed.

End RequestCount.

(** X4. A fetch sends at most one request more than the number of
    references it reads: at most 51 with a credential.  Without a credential
    it sends at most 10 requests, each of them the request for one identifier
    of the page. *)
Theorem requests_bounded (E : SortEngine) (net : Net) (s : State) :
  exists sent,
    requests (snd (fetchPRData E net s)) = requests s ++ sent
    /\ (length sent <= S (maxCount s))%nat
    /\ (length sent <= 51)%nat
    /\ (authenticated s = false ->
        (length sent <= 10)%nat
        /\ Forall (rest_request_of (allPRNumbers s)) sent).
Proof.
  assert (Hmax : (maxCount s <= 50)%nat)
    by (unfold maxCount; destruct (authenticated s); lia).
  assert (Hmain : exists sent,
    requests (snd (fetchPRData E net s)) = requests s ++ sent
    /\ (length sent <= S (maxCount s))%nat
    /\ (authenticated s = false ->
        (length sent <= 10)%nat
        /\ Forall (rest_request_of (allPRNumbers s)) sent)).
  { unfold fetchPRData.
    set (s0 := clearExpiredCache E s).
    assert (Hnum : allPRNumbers s0 = allPRNumbers s)
      by apply allPRNumbers_settings, clearExpiredCache_settings.
    rewrite Hnum.
    set (s1 := load_cached E (allPRNumbers s) s0).
    assert (Hreq1 : requests s1 = requests s)
      by (unfold s1; rewrite load_cached_requests; apply clearExpiredCache_requests).
    assert (Hauth1 : authenticated s1 = authenticated s).
    { assert (Hset : settings s1 = settings s)
        by (unfold s1; rewrite load_cached_settings; apply clearExpiredCache_settings).
      now apply settings_fields in Hset. }
    set (todo := filter (fun num => negb (JsMap.has num (prData s1))) (allPRNumbers s)).
    assert (Htodo : (length todo <= maxCount s)%nat).
    { etransitivity; [apply filter_length_le|apply allPRNumbers_length]. }
    assert (Hin : forall sent, Forall (rest_request_of todo) sent ->
                               Forall (rest_request_of (allPRNumbers s)) sent).
    { intros sent. apply Forall_impl. intros q (k & -> & Hk).
      exists k. split; [reflexivity|]. now apply filter_In in Hk. }
    assert (Hanon : authenticated s = false -> (maxCount s = 10)%nat)
      by (unfold maxCount; now intros ->).
    destruct todo as [|k rest] eqn:Hlist.
    - exists []. cbn [snd]. rewrite Hreq1, app_nil_r.
      repeat split; [simpl; lia|simpl; lia|constructor].
    - rewrite Hauth1. destruct (authenticated s) eqn:Hauth.
      + destruct (3 <? length (k :: rest))%nat; cbn [andb].
        * pose proof (fetchPRDataGraphQL_requests E net (k :: rest) s1) as Hg.
          destruct (fetchPRDataGraphQL E net (k :: rest) s1) as [[[]|msg] s2];
            cbn [snd] in Hg.
          -- exists [GraphQLPost (k :: rest)]. cbn [snd]. rewrite Hg, Hreq1.
             repeat split; [simpl; lia|discriminate|discriminate].
          -- destruct (fetchPRDataREST_sent E net (k :: rest)
                         (log ("GraphQL failed, falling back to REST API: " ++ msg) s2))
               as (sent & Hreq & Hlen & _).
             exists (GraphQLPost (k :: rest) :: sent). rewrite Hreq.
             cbn [requests log with_console]. rewrite Hg, Hreq1, <- app_assoc.
             repeat split; [simpl in *; lia|discriminate|discriminate].
        * destruct (fetchPRDataREST_sent E net (k :: rest) s1)
            as (sent & Hreq & Hlen & _).
          exists sent. rewrite Hreq, Hreq1.
          repeat split; [lia|discriminate|discriminate].
      + cbn [andb].
        destruct (fetchPRDataREST_sent E net (k :: rest) s1)
          as (sent & Hreq & Hlen & Hall).
        exists sent. rewrite Hreq, Hreq1. specialize (Hanon eq_refl).
        repeat split; [lia|lia|now apply Hin]. }
  destruct Hmain as (sent & H1 & H2 & H3).
  exists sent. repeat split; [exact H1|exact H2|lia|apply H3|apply H3]; assumption.
Qed.

(** ** What a session keeps *)

(** The storage is available and both maps have one entry per key. *)
Definition sound (s : State) : Prop :=
  storage_available s = true /\ JsMap.wf (cache s) /\ JsMap.wf (prData s).

(** A sound state whose cache is within its capacity. *)
Definition well_kept (s : State) : Prop :=
  sound s /\ (JsMap.size (cache s) <= 200)%nat.

Lemma wf_filter {V} (p : Z * V -> bool) (m : JsMap.t V) :
  JsMap.wf m -> JsMap.wf (filter p m).
Proof.
  unfold JsMap.wf, JsMap.keys. induction m as [|[k v] m IH]; simpl; [auto|].
  intros Hnd. inversion Hnd as [|? ? Hnotin Hnd']; subst.
  destruct (p (k, v)); simpl; [|auto].
  constructor; [|auto].
  intros Hin. apply Hnotin. apply in_map_iff in Hin as [e [He Hin]].
  apply filter_In in Hin as [Hin _]. apply in_map_iff. now exists e.
Qed.

Section Keeping.
Variable E : SortEngine.
Variable net : Net.

Lemma save_well_kept s : sound s -> well_kept (saveCacheToStorage E s).
Proof.
  intros (Hst & Hc & Hp). repeat split.
  - now rewrite save_storage.
  - now apply save_wf.
  - now rewrite save_prData.
  - now apply save_bound.
Qed.

Lemma getFromCache_well_kept k s :
  well_kept s -> well_kept (snd (getFromCache E k s)).
Proof.
  intros H. unfold getFromCache.
  destruct (JsMap.get k (cache s)) as [e|]; [|exact H].
  destruct (clock s - timestamp e <? cacheExpiry); [exact H|].
  cbn [snd]. apply save_well_kept. destruct H as ((Hst & Hc & Hp) & _).
  repeat split; [exact Hst| |exact Hp]. now apply JsMap.wf_delete.
Qed.

Lemma record_well_kept k d s :
  well_kept s -> well_kept (with_prData (JsMap.set k d (prData s)) s).
Proof.
  intros ((Hst & Hc & Hp) & Hsize).
  repeat split; [exact Hst|exact Hc| |exact Hsize].
  now apply JsMap.wf_set.
Qed.

Lemma setCache_well_kept k d s : well_kept s -> well_kept (setCache E k d s).
Proof.
  intros ((Hst & Hc & Hp) & _). unfold setCache. apply save_well_kept.
  repeat split; [exact Hst| |exact Hp]. now apply JsMap.wf_set.
Qed.

Lemma pause_well_kept s : well_kept s -> well_kept (pause s).
Proof. intros H. unfold pause. destruct (authenticated s); exact H. Qed.

Lemma clearExpiredCache_well_kept s :
  well_kept s -> well_kept (clearExpiredCache E s).
Proof.
  intros H. destruct (clearExpiredCache_cases E s) as [[-> _]| ->]; [exact H|].
  apply save_well_kept. destruct H as ((Hst & Hc & Hp) & _).
  repeat split; [exact Hst| |exact Hp]. now apply wf_filter.
Qed.

Lemma fetchPRDataREST_well_kept prNumbers :
  forall s, well_kept s -> well_kept (snd (fetchPRDataREST E net prNumbers s)).
Proof.
  induction prNumbers as [|k rest IH]; intros s H; [exact H|].
  cbn [fetchPRDataREST].
  pose proof (getFromCache_well_kept k s H) as H1.
  destruct (getFromCache E k s) as [cached s1]. cbn [snd] in H1.
  destruct cached as [d|]; [now apply IH, record_well_kept|].
  pose proof (fetchPRDetails_state net k s1) as H2.
  destruct (fetchPRDetails net k s1) as [fetched s2]. cbn [snd] in H2. subst s2.
  destruct fetched as [d|msg].
  - apply IH, pause_well_kept, setCache_well_kept.
    apply (record_well_kept k d (send net (RestGet k) s1)). exact H1.
  - destruct (includes msg "403"); [exact H1|]. apply IH. exact H1.
Qed.

Lemma commit_nodes_well_kept nodes prNumbers :
  forall index s, well_kept s -> well_kept (commit_nodes E prNumbers index nodes s).
Proof.
  induction prNumbers as [|k rest IH]; intros index s H; [exact H|].
  cbn [commit_nodes]. apply IH.
  destruct (nth index nodes None); [|exact H].
  now apply setCache_well_kept, record_well_kept.
Qed.

Lemma fetchPRDataGraphQL_well_kept prNumbers s :
  well_kept s -> well_kept (snd (fetchPRDataGraphQL E net prNumbers s)).
Proof.
  intros H.
  destruct (fetchPRDataGraphQL_state E net prNumbers s) as [-> | [nodes ->]];
    [exact H|]. apply commit_nodes_well_kept. exact H.
Qed.

Lemma load_cached_well_kept prNumbers :
  forall s, well_kept s -> well_kept (load_cached E prNumbers s).
Proof.
  induction prNumbers as [|k rest IH]; intros s H; [exact H|].
  cbn [load_cached]. destruct (JsMap.has k (prData s)); [now apply IH|].
  pose proof (getFromCache_well_kept k s H) as H1.
  destruct (getFromCache E k s) as [cached s1]. cbn [snd] in H1.
  destruct cached as [d|]; apply IH; [now apply record_well_kept|exact H1].
Qed.

Lemma fetchPRData_well_kept s :
  well_kept s -> well_kept (snd (fetchPRData E net s)).
Proof.
  intros H. unfold fetchPRData.
  set (s0 := clearExpiredCache E s).
  set (s1 := load_cached E (allPRNumbers s0) s0).
  assert (H1 : well_kept s1)
    by (apply load_cached_well_kept, clearExpiredCache_well_kept, H).
  destruct (filter (fun num => negb (JsMap.has num (prData s1))) (allPRNumbers s0))
    as [|k rest]; [exact H1|].
  destruct (authenticated s1 && (3 <? length (k :: rest))%nat).
  - pose proof (fetchPRDataGraphQL_well_kept (k :: rest) s1 H1) as H2.
    destruct (fetchPRDataGraphQL E net (k :: rest) s1) as [[[]|msg] s2];
      cbn [snd] in H2; [exact H2|].
    apply fetchPRDataREST_well_kept. exact H2.
  - now apply fetchPRDataREST_well_kept.
Qed.

End Keeping.

(** X6. A sort request keeps the session in order.  If the storage is
    available, the cache and the records have one entry per identifier and the
    cache holds at most 200 entries, then all of this holds again after the
    request, whatever the order asked for and whatever the network
    answers. *)
Theorem session_well_kept (E : SortEngine) (net : Net) (order : string) (s : State) :
  well_kept s -> well_kept (snd (handleSortRequest E net order s)).
Proof.
  intros H. unfold handleSortRequest.
  destruct (negb (includes (location_href s) "github.com")
            || negb (includes (location_href s) "/pulls")); [exact H|].
  set (s1 := saveSortPreference (with_sortOrder order s)).
  assert (H1 : well_kept s1).
  { unfold s1, saveSortPreference.
    change (storage_available (with_sortOrder order s)) with (storage_available s).
    destruct (storage_available s); exact H. }
  destruct (String.eqb order "default").
  - cbn [snd]. destruct (restoreDefaultOrder_page_only E s1) as [d ->]. exact H1.
  - pose proof (fetchPRData_well_kept E net s1 H1) as H2.
    destruct (fetchPRData E net s1) as [[[]|msg] s2]; cbn [snd] in *.
    + destruct (applySorting_page_only E s2) as [d ->]. exact H2.
    + exact H2.
Qed.

Lemma session_well_kept_witness :
  well_kept anonymous_session
  /\ (JsMap.size (cache (snd (handleSortRequest insertion_engine healthy_net
                                "new-first" anonymous_session))) <= 200)%nat.
Proof.
  assert (H : well_kept anonymous_session).
  { split; [split; [reflexivity|split; constructor]|]. vm_compute. lia. }
  split; [exact H|].
  apply (session_well_kept insertion_engine healthy_net "new-first"
           anonymous_session H).
Defined.

(** ** Restoring a listing that was never sorted *)

(** X11. When all the rows read the same original position (none was ever
    stamped, so that each reads 0), [restoreDefaultOrder] leaves the listing
    in the order it has. *)
Theorem restore_unstamped (E : SortEngine) (s : State) :
  (forall a b, In a (listing s) -> In b (listing s) ->
               original_index_or_0 a = original_index_or_0 b) ->
  listing (restoreDefaultOrder E s) = listing s.
Proof.
  intros Hsame. rewrite restoreDefaultOrder_listing. apply js_sort_flat.
  intros a b Ha Hb. unfold index_comparator. rewrite (Hsame a b Ha Hb).
  destruct (parseInt (original_index_or_0 b)); simpl; [|reflexivity].
  now rewrite Z.sub_diag.
Qed.

Lemma restore_unstamped_witness :
  (forall a b, In a (listing sample_session) -> In b (listing sample_session) ->
               original_index_or_0 a = original_index_or_0 b)
  /\ listing (restoreDefaultOrder binary_insertion_engine sample_session)
     = sample_rows.
Proof.
  assert (H : forall a b, In a (listing sample_session) ->
                          In b (listing sample_session) ->
                          original_index_or_0 a = original_index_or_0 b).
  { assert (H0 : forall a, In a (listing sample_session) ->
                           original_index_or_0 a = "0").
    { intros a Ha. vm_compute in Ha.
      repeat (destruct Ha as [<-|Ha]; [reflexivity|]). destruct Ha. }
    intros a b Ha Hb. now rewrite (H0 a Ha), (H0 b Hb). }
  split; [exact H|].
  apply (restore_unstamped binary_insertion_engine sample_session H).
Defined.

(** ** Badges *)

Lemma record_needs_link s r d :
  record_of s (row_number r) = Some d -> first_pull_link r <> None.
Proof.
  unfold row_number. destruct (first_pull_link r); [discriminate|].
  unfold extractPRNumber. discriminate.
Qed.

Lemma add_badge_badged s r : badge r <> None -> add_badge s r = r.
Proof.
  unfold add_badge. destruct (record_of s (row_number r)); [|reflexivity].
  destruct (badge r); [reflexivity|congruence].
Qed.

Lemma add_badge_cases s r :
  add_badge s r = r \/ exists b, add_badge s r = set_badge b r.
Proof.
  unfold add_badge.
  destruct (record_of s (row_number r)), (badge r), (first_pull_link r); eauto.
Qed.

Lemma add_badge_twice s r : add_badge s (add_badge s r) = add_badge s r.
Proof.
  destruct (add_badge_cases s r) as [H|[b H]]; rewrite H.
  - exact H.
  - apply add_badge_badged. discriminate.
Qed.

(** A badge of the kind that goes with a tier. *)
Definition badge_of_tier (t : Z) (b : option Badge) : Prop :=
  exists title, b = Some (if t =? 1 then BadgeNew title else BadgeExisting title).

Lemma add_badge_fresh s r :
  badge r = None ->
  match tier_of s r with
  | Some t => badge_of_tier t (badge (add_badge s r))
  | None => badge (add_badge s r) = None
  end.
Proof.
  intros Hb. unfold tier_of, add_badge.
  destruct (record_of s (row_number r)) as [d|] eqn:Hd; [|exact Hb].
  rewrite Hb. pose proof (record_needs_link s r d Hd) as Hl.
  destruct (first_pull_link r); [|congruence].
  cbn [option_map badge set_badge].
  unfold badge_of_tier, createContributorBadge, getContributorPriority.
  destruct (existsb (same_as_string (author_association d)) newContributorStatuses);
    eexists; reflexivity.
Qed.

(** X8. After the first [applySorting] of a listing without badges, a row
    carries a badge exactly when its record is available, and the badge is
    the one of its tier: the badge for new contributors for tier 1, the other
    one for tier 2.  Adding the badges again changes nothing, and a row that
    carries a badge is never given another one, whatever the records then
    say. *)
Theorem badges_after_sort (E : SortEngine) (s : State) (c : Container) :
  container (page s) = Some c ->
  (forall r, In r (rows c) -> badge r = None) ->
  let after := listing (applySorting E s) in
  (forall r, In r after ->
     match tier_of s r with
     | Some t => badge_of_tier t (badge r)
     | None => badge r = None
     end)
  /\ map (add_badge s) after = after
  /\ (forall s2 r, badge r <> None -> add_badge s2 r = r).
Proof.
  intros Hc Hnone after.
  assert (Hafter : after = map (add_badge s)
                     (js_sort E (tier_comparator s) (rows_to_sort c)))
    by now apply applySorting_listing.
  split; [|split].
  - intros r' Hr'. rewrite Hafter in Hr'.
    apply in_map_iff in Hr' as (r & <- & Hr).
    rewrite (tier_of_links s r (add_badge s r) (add_badge_links s r)).
    apply add_badge_fresh.
    apply (rows_to_sort_all (fun r => badge r = None) c); [auto|exact Hnone|].
    eapply Permutation_in; [apply (js_sort_permutation E)|exact Hr].
  - rewrite Hafter, map_map. apply map_ext. intros r. apply add_badge_twice.
  - intros s2 r. apply add_badge_badged.
Qed.

Lemma badges_after_sort_witness :
  container (page sample_session) = Some (mkContainer false sample_rows)
  /\ (forall r, In r sample_rows -> badge r = None)
  /\ map (add_badge sample_session)
         (listing (applySorting insertion_engine sample_session))
     = listing (applySorting insertion_engine sample_session).
Proof.
  assert (H : forall r, In r sample_rows -> badge r = None).
  { intros r Hr. vm_compute in Hr.
    repeat (destruct Hr as [<-|Hr]; [reflexivity|]). destruct Hr. }
  split; [reflexivity|split; [exact H|]].
  apply (badges_after_sort insertion_engine sample_session
           (mkContainer false sample_rows) eq_refl H).
Defined.

(** ** Sorting a listing whose records are all known *)

Lemma js_sort_sorted (E : SortEngine) {A} (cmp : A -> A -> Z) key l :
  ranked_by cmp key l -> ascending key l -> js_sort E cmp l = l.
Proof.
  intros Hr Ha. apply (ascending_classes_unique key).
  - now apply js_sort_ascending.
  - exact Ha.
  - now apply js_sort_stable.
Qed.

Lemma with_key_twice {A} (key : A -> Z) k k' (l : list A) :
  with_key key k (with_key key k' l) = if k =? k' then with_key key k l else [].
Proof.
  induction l as [|x l IH]; simpl; [now destruct (k =? k')|].
  destruct (Z.eqb_spec (key x) k') as [Hx'|Hx']; simpl.
  - rewrite IH. destruct (Z.eqb_spec k k') as [->|Hk].
    + subst k'. now rewrite Z.eqb_refl.
    + destruct (Z.eqb_spec (key x) k); [congruence|reflexivity].
  - rewrite IH. destruct (Z.eqb_spec k k') as [->|Hk]; [|reflexivity].
    destruct (Z.eqb_spec (key x) k'); [contradiction|reflexivity].
Qed.

Lemma with_key_keys {A} (key : A -> Z) k (l : list A) :
  Forall (fun x => key x = k) (with_key key k l).
Proof.
  apply Forall_forall. intros x Hx. apply filter_In in Hx as [_ Hx].
  now apply Z.eqb_eq.
Qed.

Lemma ascending_blocks {A} (key : A -> Z) k1 k2 (l1 l2 : list A) :
  k1 <= k2 ->
  Forall (fun x => key x = k1) l1 -> Forall (fun x => key x = k2) l2 ->
  ascending key (l1 ++ l2).
Proof.
  intros Hk H1 H2. induction H1 as [|a l1 Ha H1 IH]; simpl.
  - induction H2 as [|b l2 Hb H2 IH2]; constructor; [exact IH2|].
    eapply Forall_impl; [|exact H2]. simpl. intros y Hy. lia.
  - constructor; [exact IH|]. apply Forall_app. split.
    + eapply Forall_impl; [|exact H1]. simpl. intros y Hy. lia.
    + eapply Forall_impl; [|exact H2]. simpl. intros y Hy. lia.
Qed.

(** The two tiers, in the order in which the order in force shows them. *)
Definition tiers_in_order (s : State) : Z * Z :=
  if String.eqb (sortOrder s) "new-first" then (1, 2) else (2, 1).

Lemma tiers_in_order_ranks s :
  sort_rank s (fst (tiers_in_order s)) < sort_rank s (snd (tiers_in_order s)).
Proof.
  unfold tiers_in_order, sort_rank.
  destruct (String.eqb (sortOrder s) "new-first"); simpl; lia.
Qed.

Lemma sort_key_one_of_two s r :
  available s r = true ->
  sort_key s r = sort_rank s (fst (tiers_in_order s))
  \/ sort_key s r = sort_rank s (snd (tiers_in_order s)).
Proof.
  unfold available, sort_key, tier_of, tiers_in_order, sort_rank,
    getContributorPriority.
  destruct (record_of s (row_number r)) as [d|]; [|discriminate]. intros _.
  cbn [option_map].
  destruct (existsb (same_as_string (author_association d)) newContributorStatuses),
    (String.eqb (sortOrder s) "new-first"); simpl; auto.
Qed.

Lemma available_badge s r : available s (add_badge s r) = available s r.
Proof.
  unfold available, row_number, first_pull_link. now rewrite add_badge_links.
Qed.

(** With every record available, the sorted rows are the rows of the tier
    shown first followed by the rows of the other tier. *)
Lemma js_sort_two_tiers (E : SortEngine) (s : State) (l : list Row) :
  (forall r, In r l -> available s r = true) ->
  js_sort E (tier_comparator s) l
  = filter (has_tier s (fst (tiers_in_order s))) l
    ++ filter (has_tier s (snd (tiers_in_order s))) l.
Proof.
  intros Hav.
  pose proof (tier_comparator_ranked s l Hav) as Hranked.
  rewrite !has_tier_filter by exact Hav.
  set (k1 := sort_rank s (fst (tiers_in_order s))).
  set (k2 := sort_rank s (snd (tiers_in_order s))).
  assert (Hlt : k1 < k2) by apply tiers_in_order_ranks.
  apply (ascending_classes_unique (sort_key s)).
  - now apply js_sort_ascending.
  - apply (ascending_blocks (sort_key s) k1 k2); [lia| |]; apply with_key_keys.
  - intros k. rewrite (js_sort_stable E _ _ _ _ Hranked).
    rewrite with_key_app, !with_key_twice.
    destruct (Z.eqb_spec k k1) as [H1|H1]; destruct (Z.eqb_spec k k2) as [H2|H2].
    + lia.
    + rewrite H1. now rewrite app_nil_r.
    + rewrite H2. reflexivity.
    + simpl. unfold with_key. apply filter_none. intros r Hr.
      apply Z.eqb_neq.
      destruct (sort_key_one_of_two s r (Hav r Hr)) as [Hk|Hk];
        fold k1 in Hk; fold k2 in Hk; congruence.
Qed.

(** X10. When the record of every row is available, [applySorting] shows
    first the rows of one tier, in the order they had, and then the rows of
    the other tier, in the order they had: tier 1 first when new contributors
    come first, tier 2 first under any other order. *)
Theorem sorted_listing_explicit (E : SortEngine) (s : State) (c : Container) :
  container (page s) = Some c ->
  (forall r, In r (rows c) -> available s r = true) ->
  map item (listing (applySorting E s))
  = map item (filter (has_tier s (fst (tiers_in_order s))) (rows c))
    ++ map item (filter (has_tier s (snd (tiers_in_order s))) (rows c)).
Proof.
  intros Hc Hav.
  assert (Hav' : forall r, In r (rows_to_sort c) -> available s r = true).
  { apply (rows_to_sort_all (fun r => available s r = true)); [|exact Hav].
    intros v r Hr. now rewrite available_stamp. }
  rewrite (applySorting_listing E s c Hc), add_badge_items.
  rewrite (js_sort_two_tiers E s _ Hav'), map_app.
  f_equal; apply rows_to_sort_filter_items; intros v r; apply has_tier_stamp.
Qed.

Lemma sorted_listing_explicit_witness :
  container (page known_session) = Some (mkContainer false known_rows)
  /\ (forall r, In r known_rows -> available known_session r = true)
  /\ map row_content (listing (applySorting binary_insertion_engine known_session))
     = ["newcomer a"; "newcomer b"; "member"].
Proof.
  assert (Hav : forall r, In r known_rows -> available known_session r = true)
    by (intros r [<-|[<-|[<-|[]]]]; reflexivity).
  split; [reflexivity|split; [exact Hav|]].
  pose proof (sorted_listing_explicit binary_insertion_engine known_session
                (mkContainer false known_rows) eq_refl Hav) as H.
  apply (f_equal (map snd)) in H. rewrite map_map in H.
  exact H.
Defined.

(** X9. When the record of every row is available, sorting again under the
    same order and with the same records changes nothing: the second
    [applySorting] shows the listing of the first. *)
Theorem sort_twice (E : SortEngine) (s : State) (c : Container) :
  container (page s) = Some c ->
  (forall r, In r (rows c) -> available s r = true) ->
  listing (applySorting E (applySorting E s)) = listing (applySorting E s).
Proof.
  intros Hc Hav.
  destruct (rows c) as [|r0 l0] eqn:Hrows.
  { now rewrite !(applySorting_empty E s c Hc Hrows). }
  assert (Hav' : forall r, In r (rows_to_sort c) -> available s r = true).
  { apply (rows_to_sort_all (fun r => available s r = true));
      [|rewrite Hrows; exact Hav].
    intros v r Hr. now rewrite available_stamp. }
  destruct (applySorting_mark E s c Hc) as (c1 & Hc1 & Hmark); [congruence|].
  destruct (applySorting_page_only E s) as [d Hs1].
  set (s1 := applySorting E s) in *.
  set (sorted := js_sort E (tier_comparator s) (rows_to_sort c)).
  assert (Hl1 : rows c1 = map (add_badge s) sorted).
  { pose proof (applySorting_listing E s c Hc) as H. fold s1 in H.
    unfold listing in H. now rewrite Hc1 in H. }
  assert (Hcmp : forall a b, tier_comparator s1 a b = tier_comparator s a b)
    by (intros a b; rewrite Hs1; reflexivity).
  assert (Hbadge : forall r, add_badge s1 r = add_badge s r)
    by (intros r; rewrite Hs1; reflexivity).
  rewrite (applySorting_listing E s1 c1 Hc1).
  unfold rows_to_sort. rewrite Hmark, Hl1.
  assert (Hav1 : forall r, In r (map (add_badge s) sorted) -> available s r = true).
  { intros r' Hr'. apply in_map_iff in Hr' as (r & <- & Hr).
    rewrite available_badge. apply Hav'.
    eapply Permutation_in; [apply (js_sort_permutation E)|exact Hr]. }
  rewrite (js_sort_sorted E (tier_comparator s1) (sort_key s)).
  - unfold listing at 1. fold s1. rewrite Hc1, Hl1, map_map.
    apply map_ext. intros r. rewrite Hbadge. apply add_badge_twice.
  - intros a b Ha Hb. rewrite Hcmp.
    now apply (tier_comparator_ranked s _ Hav1).
  - apply ascending_map_invariant; [apply sort_key_badge|].
    apply js_sort_ascending. now apply tier_comparator_ranked.
Qed.

Lemma sort_twice_witness :
  container (page known_session) = Some (mkContainer false known_rows)
  /\ (forall r, In r known_rows -> available known_session r = true)
  /\ listing (applySorting merge_engine (applySorting merge_engine known_session))
     = listing (applySorting merge_engine known_session).
Proof.
  assert (Hav : forall r, In r known_rows -> available known_session r = true)
    by (intros r [<-|[<-|[<-|[]]]]; reflexivity).
  split; [reflexivity|split; [exact Hav|]].
  apply (sort_twice merge_engine known_session
           (mkContainer false known_rows) eq_refl Hav).
Defined.

(** ** What a successful fetch leaves in the records *)

(** The record the loop of [fetchPRDataGraphQL] builds from a sub-result. *)
Definition record_of_node (node : GraphQLNode) : PRData :=
  mkPRData (node_number node) (authorAssociation node) (createdAt node) (author node).

(** Every request for one pull request is answered with a success status
    and a body that can be read. *)
Definition answers (net : Net) : Prop :=
  forall n k, exists status statusText association created usr,
    rest_reply net n k
    = RestResponse status statusText (RestBodyJson association created usr)
    /\ response_ok status = true.

Section Commits.
Variable E : SortEngine.
Variable net : Net.

Lemma commit_nodes_other nodes prNumbers :
  forall index s k, ~ In k prNumbers ->
    JsMap.get k (prData (commit_nodes E prNumbers index nodes s))
    = JsMap.get k (prData s).
Proof.
  induction prNumbers as [|p rest IH]; intros index s k Hk; cbn [commit_nodes];
    [reflexivity|].
  rewrite IH by (intros H; apply Hk; now right).
  destruct (nth index nodes None); [|reflexivity].
  rewrite setCache_prData. cbn [prData with_prData].
  apply JsMap.get_set_other. intros ->. apply Hk. now left.
Qed.

Lemma commit_nodes_at nodes prNumbers :
  forall index s j k, NoDup prNumbers -> nth_error prNumbers j = Some k ->
    JsMap.get k (prData (commit_nodes E prNumbers index nodes s))
    = match nth (index + j) nodes None with
      | Some node => Some (record_of_node node)
      | None => JsMap.get k (prData s)
      end.
Proof.
  induction prNumbers as [|p rest IH]; intros index s j k Hnd Hj.
  - destruct j; discriminate.
  - apply NoDup_cons_iff in Hnd as [Hnotin Hnd]. cbn [commit_nodes].
    destruct j as [|j]; cbn [nth_error] in Hj.
    + assert (Hpk : p = k) by congruence. subst p.
      rewrite commit_nodes_other by exact Hnotin.
      rewrite Nat.add_0_r. destruct (nth index nodes None) as [node|]; [|reflexivity].
      rewrite setCache_prData. cbn [prData with_prData]. apply JsMap.get_set_same.
    + rewrite (IH (S index) _ j k Hnd Hj).
      replace (S index + j)%nat with (index + S j)%nat by lia.
      destruct (nth (index + S j) nodes None); [reflexivity|].
      destruct (nth index nodes None); [|reflexivity].
      rewrite setCache_prData. cbn [prData with_prData].
      apply JsMap.get_set_other. intros ->. apply Hnotin.
      eapply nth_error_In. exact Hj.
Qed.

Lemma fetchPRDetails_answered k s :
  answers net ->
  exists d, fetchPRDetails net k s = (Returned d, send net (RestGet k) s).
Proof.
  intros Hnet. unfold fetchPRDetails.
  destruct (Hnet (length (requests s)) k) as (st & txt & a & c & u & -> & Hok).
  rewrite Hok. cbn [negb]. eexists. reflexivity.
Qed.

Lemma pause_prData s : prData (pause s) = prData s.
Proof. unfold pause. now destruct (authenticated s). Qed.

Lemma pause_console s : console (pause s) = console s.
Proof. unfold pause. now destruct (authenticated s). Qed.

Lemma setCache_console k d s : console (setCache E k d s) = console s.
Proof. unfold setCache. now rewrite save_console. Qed.

Lemma getFromCache_console k s : console (snd (getFromCache E k s)) = console s.
Proof.
  unfold getFromCache. destruct (JsMap.get k (cache s)) as [e|]; [|reflexivity].
  destruct (clock s - timestamp e <? cacheExpiry); [reflexivity|].
  cbn [snd]. now rewrite save_console.
Qed.

Lemma fetchPRDataREST_answered prNumbers :
  answers net ->
  forall s,
    let s' := snd (fetchPRDataREST E net prNumbers s) in
    fst (fetchPRDataREST E net prNumbers s) = Returned tt
    /\ (forall k, In k prNumbers -> JsMap.has k (prData s') = true)
    /\ (forall k, JsMap.has k (prData s) = true -> JsMap.has k (prData s') = true)
    /\ console s' = console s.
Proof.
  intros Hnet. induction prNumbers as [|k rest IH]; intros s.
  - cbn. repeat split; [intros k []|auto].
  - cbn [fetchPRDataREST].
    pose proof (getFromCache_prData E k s) as P1.
    pose proof (getFromCache_console k s) as L1.
    destruct (getFromCache E k s) as [cached s1]. cbn [snd] in P1, L1.
    destruct cached as [d|].
    + destruct (IH (with_prData (JsMap.set k d (prData s1)) s1)) as (R & A & K & L).
      cbn [prData with_prData console] in K, L.
      repeat split.
      * exact R.
      * intros k' [<-|Hk']; [apply K, has_set_same|now apply A].
      * intros k' Hk'. apply K. apply has_set_grows. now rewrite P1.
      * now rewrite L.
    + destruct (fetchPRDetails_answered k s1 Hnet) as [d ->].
      set (s2 := send net (RestGet k) s1).
      set (s3 := pause (setCache E k d (with_prData (JsMap.set k d (prData s2)) s2))).
      assert (P3 : prData s3 = JsMap.set k d (prData s))
        by (unfold s3; now rewrite pause_prData, setCache_prData, <- P1).
      assert (L3 : console s3 = console s)
        by (unfold s3; now rewrite pause_console, setCache_console, <- L1).
      destruct (IH s3) as (R & A & K & L). rewrite P3 in K.
      repeat split.
      * exact R.
      * intros k' [<-|Hk']; [apply K, has_set_same|now apply A].
      * intros k' Hk'. apply K. now apply has_set_grows.
      * now rewrite L.
Qed.

Lemma load_cached_grows prNumbers :
  forall s k, JsMap.has k (prData s) = true ->
              JsMap.has k (prData (load_cached E prNumbers s)) = true.
Proof.
  induction prNumbers as [|p rest IH]; intros s k Hk; cbn [load_cached]; [exact Hk|].
  destruct (JsMap.has p (prData s)); [now apply IH|].
  pose proof (getFromCache_prData E p s) as P1.
  destruct (getFromCache E p s) as [cached s1]. cbn [snd] in P1.
  destruct cached as [d|]; apply IH; cbn [prData with_prData]; rewrite P1;
    [now apply has_set_grows|exact Hk].
Qed.

Lemma load_cached_console prNumbers :
  forall s, console (load_cached E prNumbers s) = console s.
Proof.
  induction prNumbers as [|p rest IH]; intros s; cbn [load_cached]; [reflexivity|].
  destruct (JsMap.has p (prData s)); [apply IH|].
  pose proof (getFromCache_console p s) as L1.
  destruct (getFromCache E p s) as [cached s1]. cbn [snd] in L1.
  destruct cached as [d|]; rewrite IH; exact L1.
Qed.

Lemma clearExpiredCache_console s : console (clearExpiredCache E s) = console s.
Proof.
  destruct (clearExpiredCache_cases E s) as [[-> _]| ->];
    [reflexivity|now rewrite save_console].
Qed.

End Commits.

(** X12. When the aggregated query is answered with a success status, no
    error payload and a repository, [fetchPRDataGraphQL] returns after that
    one request.  The identifiers being distinct, each one whose sub-result
    is present gets the record built from it, each one whose sub-result is
    null or absent keeps what the records held for it, and no other
    identifier is touched. *)
Theorem graphql_commits (E : SortEngine) (net : Net) (prNumbers : list Z)
        (s : State) (status : Z) (statusText : string)
        (nodes : list (option GraphQLNode)) :
  graphql_reply net (length (requests s)) prNumbers
  = GraphQLResponse status statusText (GraphQLResult None (Repository nodes)) ->
  response_ok status = true ->
  NoDup prNumbers ->
  let s' := snd (fetchPRDataGraphQL E net prNumbers s) in
  fst (fetchPRDataGraphQL E net prNumbers s) = Returned tt
  /\ requests s' = requests s ++ [GraphQLPost prNumbers]
  /\ (forall j k, nth_error prNumbers j = Some k ->
        JsMap.get k (prData s')
        = match nth j nodes None with
          | Some node => Some (record_of_node node)
          | None => JsMap.get k (prData s)
          end)
  /\ (forall k, ~ In k prNumbers -> JsMap.get k (prData s') = JsMap.get k (prData s)).
Proof.
  intros Hreply Hok Hnd s'.
  split; [|split; [apply fetchPRDataGraphQL_requests|]].
  - unfold fetchPRDataGraphQL. now rewrite Hreply, Hok.
  - assert (Hs' : s' = commit_nodes E prNumbers 0 nodes (send net (GraphQLPost prNumbers) s)).
    { unfold s', fetchPRDataGraphQL. now rewrite Hreply, Hok. }
    rewrite Hs'. split.
    + intros j k Hj. now rewrite (commit_nodes_at E nodes prNumbers 0 _ j k Hnd Hj).
    + intros k Hk. now rewrite commit_nodes_other.
Qed.

(** A network whose aggregated answer lacks the second sub-result. *)
Definition partial_net : Net :=
  mkNet (rest_reply healthy_net)
        (fun _ ns => GraphQLResponse 200 "OK"
                       (GraphQLResult None
                          (Repository
                             [ Some (mkGraphQLNode 1 (JStr "NONE")
                                       "2024-05-01T10:00:00Z" "octocat");
                               None;
                               Some (mkGraphQLNode 3 (JStr "MEMBER")
                                       "2024-05-01T10:00:00Z" "octocat") ])))
        (fun _ => 120).

Lemma graphql_commits_witness :
  response_ok 200 = true /\ NoDup [1; 2; 3; 4]
  /\ JsMap.get 1 (prData (snd (fetchPRDataGraphQL insertion_engine partial_net
                                 [1; 2; 3; 4] authenticated_session)))
     = Some (sample_record 1 "NONE")
  /\ JsMap.get 2 (prData (snd (fetchPRDataGraphQL insertion_engine partial_net
                                 [1; 2; 3; 4] authenticated_session)))
     = None.
Proof.
  assert (Hnd : NoDup [1; 2; 3; 4]).
  { repeat constructor; simpl; intuition lia. }
  split; [reflexivity|split; [exact Hnd|]].
  destruct (graphql_commits insertion_engine partial_net [1; 2; 3; 4]
              authenticated_session 200 "OK" _ eq_refl eq_refl Hnd)
    as (_ & _ & Hat & _).
  split; [exact (Hat 0%nat 1 eq_refl)|exact (Hat 1%nat 2 eq_refl)].
Defined.

(** X13. Without a credential and on a network that answers every request
    for one pull request with a readable success, [fetchPRData] returns,
    every identifier of the page has a record afterwards, and nothing is
    written to the console. *)
Theorem fetch_completes (E : SortEngine) (net : Net) (s : State) :
  answers net ->
  authenticated s = false ->
  let s' := snd (fetchPRData E net s) in
  fst (fetchPRData E net s) = Returned tt
  /\ (forall k, In k (allPRNumbers s) -> JsMap.has k (prData s') = true)
  /\ console s' = console s.
Proof.
  intros Hnet Hauth. unfold fetchPRData.
  set (s0 := clearExpiredCache E s).
  assert (H0 : settings s0 = settings s) by apply clearExpiredCache_settings.
  rewrite (allPRNumbers_settings _ _ H0).
  set (numbers := allPRNumbers s).
  set (s1 := load_cached E numbers s0).
  assert (H1 : settings s1 = settings s)
    by (unfold s1; rewrite load_cached_settings; exact H0).
  assert (L1 : console s1 = console s)
    by (unfold s1; rewrite load_cached_console; apply clearExpiredCache_console).
  apply settings_fields in H1 as (_ & _ & _ & _ & _ & _ & Ha).
  rewrite Ha, Hauth. cbn [andb].
  set (toFetch := filter (fun num => negb (JsMap.has num (prData s1))) numbers).
  assert (Hsplit : forall k, In k numbers ->
                     JsMap.has k (prData s1) = true \/ In k toFetch).
  { intros k Hk. destruct (JsMap.has k (prData s1)) eqn:Hhas; [now left|right].
    apply filter_In. split; [exact Hk|now rewrite Hhas]. }
  destruct (fetchPRDataREST_answered E net toFetch Hnet s1) as (R & A & K & L).
  destruct toFetch as [|k0 rest] eqn:Hto.
  - cbn [fst snd]. repeat split; [|exact L1].
    intros k Hk. destruct (Hsplit k Hk) as [H|[]]. exact H.
  - repeat split; [exact R| |now rewrite L].
    intros k Hk. destruct (Hsplit k Hk) as [H|H]; [now apply K|now apply A].
Qed.

Lemma fetch_completes_witness :
  authenticated returning_session = false
  /\ fst (fetchPRData insertion_engine healthy_net returning_session) = Returned tt
  /\ JsMap.has 5 (prData (snd (fetchPRData insertion_engine healthy_net
                                 returning_session))) = true.
Proof.
  assert (Hnet : answers healthy_net).
  { intros n k. do 5 eexists. split; reflexivity. }
  split; [reflexivity|].
  destruct (fetch_completes insertion_engine healthy_net returning_session
              Hnet eq_refl) as (R & A & _).
  split; [exact R|]. apply A. vm_compute. tauto.
Defined.

(** ** A new instance and the stored settings *)

Definition with_githubToken (t : option string) (s : State) : State :=
  mkState (prData s) (sortOrder s) t (cache s) (location_href s) (page s)
          (clock s) (storage_available s) (stored_order s) (stored_cache s)
          (requests s) (console s).

(** [new PRSorter()], before [init] runs: the fields the constructor sets,
    in the browser [s] stands for. *)
Definition constructor (s : State) : State :=
  mkState JsMap.empty "default" None JsMap.empty (location_href s) (page s)
          (clock s) (storage_available s) (stored_order s) (stored_cache s)
          (requests s) (console s).

(** [loadSettings]; [storedToken] is what the storage holds under
    [githubToken].  A stored value is used when it is truthy; the stored cache
    is the list of entries its text decodes to. *)
Definition loadSettings (storedToken : option string) (s : State) : State :=
  if storage_available s then
    let s1 :=
      match stored_order s with
      | Some o => if String.eqb o "" then s else with_sortOrder o s
      | None => s
      end in
    let s2 :=
      match storedToken with
      | Some t => if String.eqb t "" then s1 else with_githubToken (Some t) s1
      | None => s1
      end in
    match stored_cache s with
    | Some entries => with_cache (JsMap.of_entries entries) s2
    | None => s2
    end
  else s.

(** The stored copy of the cache is the cache: what was last saved, or
    nothing saved yet and nothing cached. *)
Definition mirrored (s : State) : Prop :=
  stored_cache s = Some (cache s) \/ (stored_cache s = None /\ cache s = []).

Definition in_step (s : State) : Prop := well_kept s /\ mirrored s.

Lemma mirrored_same s s' :
  cache s' = cache s -> stored_cache s' = stored_cache s ->
  mirrored s -> mirrored s'.
Proof. unfold mirrored. intros -> ->. exact (fun H => H). Qed.

Section Mirror.
Variable E : SortEngine.
Variable net : Net.

Lemma save_mirrored s : sound s -> mirrored (saveCacheToStorage E s).
Proof.
  intros (Hst & Hwf & _). left.
  destruct (Nat.le_gt_cases (JsMap.size (cache s)) 200) as [Hle|Hgt].
  - rewrite (save_small E s Hle).
    unfold saveCacheToStorage, JsMap.size in *. rewrite Hst.
    destruct (Nat.ltb_spec 200 (length (cache s))); [lia|reflexivity].
  - rewrite (save_large_kept E s Hst Hwf Hgt).
    unfold saveCacheToStorage, JsMap.size in *. rewrite Hst.
    destruct (Nat.ltb_spec 200 (length (cache s))); [reflexivity|lia].
Qed.

Lemma save_in_step s : sound s -> in_step (saveCacheToStorage E s).
Proof. intros H. split; [now apply save_well_kept|now apply save_mirrored]. Qed.

Lemma getFromCache_in_step k s : in_step s -> in_step (snd (getFromCache E k s)).
Proof.
  intros H. unfold getFromCache.
  destruct (JsMap.get k (cache s)) as [e|]; [|exact H].
  destruct (clock s - timestamp e <? cacheExpiry); [exact H|].
  cbn [snd]. apply save_in_step. destruct H as (((Hst & Hc & Hp) & _) & _).
  repeat split; [exact Hst| |exact Hp]. now apply JsMap.wf_delete.
Qed.

Lemma record_in_step k d s :
  in_step s -> in_step (with_prData (JsMap.set k d (prData s)) s).
Proof. intros [H M]. split; [now apply record_well_kept|exact M]. Qed.

Lemma setCache_in_step k d s : in_step s -> in_step (setCache E k d s).
Proof.
  intros [((Hst & Hc & Hp) & _) _]. unfold setCache. apply save_in_step.
  repeat split; [exact Hst| |exact Hp]. now apply JsMap.wf_set.
Qed.

Lemma pause_in_step s : in_step s -> in_step (pause s).
Proof. intros H. unfold pause. destruct (authenticated s); exact H. Qed.

Lemma clearExpiredCache_in_step s : in_step s -> in_step (clearExpiredCache E s).
Proof.
  intros H. destruct (clearExpiredCache_cases E s) as [[-> _]| ->]; [exact H|].
  apply save_in_step. destruct H as (((Hst & Hc & Hp) & _) & _).
  repeat split; [exact Hst| |exact Hp]. now apply wf_filter.
Qed.

Lemma fetchPRDataREST_in_step prNumbers :
  forall s, in_step s -> in_step (snd (fetchPRDataREST E net prNumbers s)).
Proof.
  induction prNumbers as [|k rest IH]; intros s H; [exact H|].
  cbn [fetchPRDataREST].
  pose proof (getFromCache_in_step k s H) as H1.
  destruct (getFromCache E k s) as [cached s1]. cbn [snd] in H1.
  destruct cached as [d|]; [now apply IH, record_in_step|].
  pose proof (fetchPRDetails_state net k s1) as H2.
  destruct (fetchPRDetails net k s1) as [fetched s2]. cbn [snd] in H2. subst s2.
  destruct fetched as [d|msg].
  - apply IH, pause_in_step, setCache_in_step.
    apply (record_in_step k d (send net (RestGet k) s1)). exact H1.
  - destruct (includes msg "403"); [exact H1|]. apply IH. exact H1.
Qed.

Lemma commit_nodes_in_step nodes prNumbers :
  forall index s, in_step s -> in_step (commit_nodes E prNumbers index nodes s).
Proof.
  induction prNumbers as [|k rest IH]; intros index s H; [exact H|].
  cbn [commit_nodes]. apply IH.
  destruct (nth index nodes None); [|exact H].
  now apply setCache_in_step, record_in_step.
Qed.

Lemma fetchPRDataGraphQL_in_step prNumbers s :
  in_step s -> in_step (snd (fetchPRDataGraphQL E net prNumbers s)).
Proof.
  intros H.
  destruct (fetchPRDataGraphQL_state E net prNumbers s) as [-> | [nodes ->]];
    [exact H|]. apply commit_nodes_in_step. exact H.
Qed.

Lemma load_cached_in_step prNumbers :
  forall s, in_step s -> in_step (load_cached E prNumbers s).
Proof.
  induction prNumbers as [|k rest IH]; intros s H; [exact H|].
  cbn [load_cached]. destruct (JsMap.has k (prData s)); [now apply IH|].
  pose proof (getFromCache_in_step k s H) as H1.
  destruct (getFromCache E k s) as [cached s1]. cbn [snd] in H1.
  destruct cached as [d|]; apply IH; [now apply record_in_step|exact H1].
Qed.

Lemma fetchPRData_in_step s : in_step s -> in_step (snd (fetchPRData E net s)).
Proof.
  intros H. unfold fetchPRData.
  set (s0 := clearExpiredCache E s).
  set (s1 := load_cached E (allPRNumbers s0) s0).
  assert (H1 : in_step s1)
    by (apply load_cached_in_step, clearExpiredCache_in_step, H).
  destruct (filter (fun num => negb (JsMap.has num (prData s1))) (allPRNumbers s0))
    as [|k rest]; [exact H1|].
  destruct (authenticated s1 && (3 <? length (k :: rest))%nat).
  - pose proof (fetchPRDataGraphQL_in_step (k :: rest) s1 H1) as H2.
    destruct (fetchPRDataGraphQL E net (k :: rest) s1) as [[[]|msg] s2];
      cbn [snd] in H2; [exact H2|].
    apply fetchPRDataREST_in_step. exact H2.
  - now apply fetchPRDataREST_in_step.
Qed.

Lemma handleSortRequest_in_step order s :
  in_step s -> in_step (snd (handleSortRequest E net order s)).
Proof.
  intros H. unfold handleSortRequest.
  destruct (negb (includes (location_href s) "github.com")
            || negb (includes (location_href s) "/pulls")); [exact H|].
  set (s1 := saveSortPreference (with_sortOrder order s)).
  assert (H1 : in_step s1).
  { unfold s1, saveSortPreference.
    change (storage_available (with_sortOrder order s)) with (storage_available s).
    destruct (storage_available s); exact H. }
  destruct (String.eqb order "default").
  - cbn [snd]. destruct (restoreDefaultOrder_page_only E s1) as [d ->]. exact H1.
  - pose proof (fetchPRData_in_step s1 H1) as H2.
    destruct (fetchPRData E net s1) as [[[]|msg] s2]; cbn [snd] in *.
    + destruct (applySorting_page_only E s2) as [d ->]. exact H2.
    + exact H2.
Qed.

End Mirror.

Lemma loadSettings_cache storedToken s :
  storage_available s = true ->
  cache (loadSettings storedToken s)
  = match stored_cache s with
    | Some entries => JsMap.of_entries entries
    | None => cache s
    end.
Proof.
  intros Hst. unfold loadSettings. rewrite Hst.
  destruct (stored_cache s); [reflexivity|].
  destruct storedToken as [t|]; [destruct (String.eqb t "")|];
    (destruct (stored_order s) as [o|]; [destruct (String.eqb o "")|]); reflexivity.
Qed.

Lemma loadSettings_kept storedToken s :
  prData (loadSettings storedToken s) = prData s
  /\ stored_cache (loadSettings storedToken s) = stored_cache s
  /\ storage_available (loadSettings storedToken s) = storage_available s.
Proof.
  unfold loadSettings. destruct (storage_available s) eqn:Hst; [|auto].
  destruct (stored_cache s) eqn:Hsc;
    (destruct storedToken as [t|]; [destruct (String.eqb t "")|]);
    (destruct (stored_order s) as [o|] eqn:Hso; [destruct (String.eqb o "")|]);
    repeat split; assumption.
Qed.

(** X14. The cache outlives the instance.  Start from a session whose
    storage is available, whose maps have one entry per identifier, whose
    cache holds at most 200 entries and whose stored copy of the cache is the
    cache.  After any sort request, a new instance that loads the settings
    starts with exactly the cache the old instance ended with and with no
    record, and it is again a session of that kind. *)
Theorem cache_outlives_instance (E : SortEngine) (net : Net) (order : string)
        (storedToken : option string) (s : State) :
  well_kept s -> mirrored s ->
  let s' := snd (handleSortRequest E net order s) in
  let fresh := loadSettings storedToken (constructor s') in
  cache fresh = cache s'
  /\ prData fresh = JsMap.empty
  /\ well_kept fresh /\ mirrored fresh.
Proof.
  intros Hk Hm s' fresh.
  destruct (handleSortRequest_in_step E net order s (conj Hk Hm))
    as [((Hst & Hc & Hp) & Hsize) Hm'].
  fold s' in Hst, Hc, Hp, Hsize, Hm'.
  destruct (loadSettings_kept storedToken (constructor s')) as (P & S & A).
  fold fresh in P, S, A.
  assert (Hcache : cache fresh = cache s').
  { unfold fresh. rewrite loadSettings_cache by exact Hst.
    change (stored_cache (constructor s')) with (stored_cache s').
    destruct Hm' as [->|[-> Hempty]].
    - apply JsMap.of_entries_distinct, Hc.
    - now rewrite Hempty. }
  split; [exact Hcache|split; [exact P|split]].
  - repeat split.
    + now rewrite A.
    + now rewrite Hcache.
    + rewrite P. constructor.
    + now rewrite Hcache.
  - apply (mirrored_same s'); [exact Hcache|now rewrite S|exact Hm'].
Qed.

Lemma cache_outlives_instance_witness :
  well_kept anonymous_session /\ mirrored anonymous_session
  /\ JsMap.keys
       (cache (loadSettings (Some "ghp_0123456789")
                 (constructor (snd (handleSortRequest insertion_engine healthy_net
                                      "new-first" anonymous_session)))))
     = [1; 2; 3; 4; 5].
Proof.
  assert (H : well_kept anonymous_session).
  { split; [split; [reflexivity|split; constructor]|]. vm_compute. lia. }
  assert (M : mirrored anonymous_session) by (right; split; reflexivity).
  split; [exact H|split; [exact M|]].
  destruct (cache_outlives_instance insertion_engine healthy_net "new-first"
              (Some "ghp_0123456789") anonymous_session H M) as (-> & _).
  vm_compute. reflexivity.
Defined.

(* ================================================================== *)
(** * The popup *)
(* ================================================================== *)

(** [popup.js]: the script of the popup that sends the sort request to the
    content script and keeps the token.  The popup is its document, as far as
    the script writes it, and the token the storage holds. *)

(** [String.prototype.trim], for white space of the ASCII range. *)
Fixpoint trim_end (s : string) : string :=
  match s with
  | EmptyString => EmptyString
  | String c rest =>
      match trim_end rest with
      | EmptyString => if is_space c then EmptyString else String c EmptyString
      | t => String c t
      end
  end.

Definition trim (s : string) : string := trim_end (skip_spaces s).

Record Popup : Type := mkPopup {
  sort_status_text : string;
  sort_status_type : string;
  current_sort : string;
  sort_new_first : string;
  sort_existing_first : string;
  sort_default : string;
  github_token : string;
  token_status : string;
  api_mode : string;
  stored_token : option string
}.

(** [showSortStatus]: the text of [#sort-status-text], and the type, which
    decides whether the status hides again after three seconds. *)
Definition showSortStatus (text type : string) (p : Popup) : Popup :=
  mkPopup text type (current_sort p) (sort_new_first p) (sort_existing_first p)
          (sort_default p) (github_token p) (token_status p) (api_mode p)
          (stored_token p).

Definition with_current_sort (text : string) (p : Popup) : Popup :=
  mkPopup (sort_status_text p) (sort_status_type p) text (sort_new_first p)
          (sort_existing_first p) (sort_default p) (github_token p)
          (token_status p) (api_mode p) (stored_token p).

Definition with_buttons (newFirst existingFirst default : string) (p : Popup) : Popup :=
  mkPopup (sort_status_text p) (sort_status_type p) (current_sort p) newFirst
          existingFirst default (github_token p) (token_status p) (api_mode p)
          (stored_token p).

Definition with_github_token (value : string) (p : Popup) : Popup :=
  mkPopup (sort_status_text p) (sort_status_type p) (current_sort p)
          (sort_new_first p) (sort_existing_first p) (sort_default p) value
          (token_status p) (api_mode p) (stored_token p).

Definition with_token_status (text : string) (p : Popup) : Popup :=
  mkPopup (sort_status_text p) (sort_status_type p) (current_sort p)
          (sort_new_first p) (sort_existing_first p) (sort_default p)
          (github_token p) text (api_mode p) (stored_token p).

Definition with_api_mode (text : string) (p : Popup) : Popup :=
  mkPopup (sort_status_text p) (sort_status_type p) (current_sort p)
          (sort_new_first p) (sort_existing_first p) (sort_default p)
          (github_token p) (token_status p) text (stored_token p).

Definition with_stored_token (t : option string) (p : Popup) : Popup :=
  mkPopup (sort_status_text p) (sort_status_type p) (current_sort p)
          (sort_new_first p) (sort_existing_first p) (sort_default p)
          (github_token p) (token_status p) (api_mode p) t.

(** [updateSortButtonStates]: the three buttons become secondary, then the
    one whose identifier is [sort-] followed by the order becomes primary. *)
Definition updateSortButtonStates (activeSortOrder : string) (p : Popup) : Popup :=
  let className (name : string) :=
    if String.eqb activeSortOrder name then "btn" else "btn secondary" in
  with_buttons (className "new-first") (className "existing-first")
               (className "default") p.

Definition sortLabels : list (string * string) :=
  [ ("new-first", "New Contributors First");
    ("existing-first", "Existing Contributors First");
    ("default", "Default") ].

Fixpoint own_property (key : string) (o : list (string * string)) : option string :=
  match o with
  | [] => None
  | (k, v) :: rest => if String.eqb k key then Some v else own_property key rest
  end.

Definition updateTokenStatus (token : string) (p : Popup) : Popup :=
  with_token_status (if String.eqb token "" then "Not Set" else "Set (Authenticated)") p.

Definition updateAPIMode (token : string) (p : Popup) : Popup :=
  with_api_mode (if String.eqb token "" then "REST API (Limited)"
                 else "GraphQL API (Unlimited)") p.

(** [saveGitHubToken]; [written] tells whether the storage accepts the
    write. *)
Definition saveGitHubToken (written : bool) (p : Popup) : Popup :=
  let token := trim (github_token p) in
  if negb (String.eqb token "") && negb (String.prefix "ghp_" token)
     && negb (String.prefix "github_pat_" token)
  then showSortStatus "Invalid token format. Must start with ghp_ or github_pat_"
                      "error" p
  else if written then
    showSortStatus (if String.eqb token "" then "Token cleared!"
                    else "Token saved successfully!") "success"
      (updateAPIMode token (updateTokenStatus token (with_stored_token (Some token) p)))
  else showSortStatus "Error saving token" "error" p.

(** [clearGitHubToken]; [removed] tells whether the storage accepts the
    removal. *)
Definition clearGitHubToken (removed : bool) (p : Popup) : Popup :=
  if removed then
    showSortStatus "Token cleared successfully!" "success"
      (updateAPIMode "" (updateTokenStatus "" (with_github_token ""
         (with_stored_token None p))))
  else showSortStatus "Error clearing token" "error" p.

Definition rate_limit_hint : string :=
  "⚠️ GitHub API rate limit exceeded. Add a GitHub token above for unlimited requests.".

Section PopupScript.
Variable E : SortEngine.
Variable net : Net.

(** The text of the truthy value that [Object.prototype] holds under a
    name, for the names it has. *)
Variable inherited : string -> option string.

(** [updateCurrentSortDisplay]: [sortLabels[sortOrder] || 'Default']. *)
Definition updateCurrentSortDisplay (sortOrder : string) (p : Popup) : Popup :=
  with_current_sort
    match own_property sortOrder sortLabels with
    | Some label => label
    | None => match inherited sortOrder with
              | Some text => text
              | None => "Default"
              end
    end p.

(** [loadCurrentSettings]; [answered] tells whether the storage answers,
    [storedOrder] is what it holds under [prSortOrder]. *)
Definition loadCurrentSettings (answered : bool) (storedOrder : option string)
           (p : Popup) : Popup :=
  if answered then
    let sortOrder :=
      match storedOrder with
      | Some o => if String.eqb o "" then "default" else o
      | None => "default"
      end in
    let githubToken := match stored_token p with Some t => t | None => "" end in
    let p1 := updateAPIMode githubToken
                (updateTokenStatus githubToken
                   (updateSortButtonStates sortOrder
                      (updateCurrentSortDisplay sortOrder p))) in
    if String.eqb githubToken "" then p1 else with_github_token githubToken p1
  else p.

(** [triggerSort].  [tab] is the active tab: [None] when there is none,
    [Some None] when its address cannot be read.  [content] is the content
    script of that tab, [None] when the page has none.  The result is the
    popup and the content script once the answer has been handled. *)
Definition triggerSort (sortOrder : string) (tab : option (option string))
           (content : option State) (p : Popup) : Popup * option State :=
  match tab with
  | None => (showSortStatus "Unexpected error occurred" "error" p, content)
  | Some url =>
      let tab_url := match url with Some u => u | None => "" end in
      if String.eqb tab_url "" || negb (includes tab_url "github.com")
         || negb (includes tab_url "/pulls")
      then (showSortStatus "Please navigate to a GitHub pull requests page first"
                           "error" p, content)
      else
        let p1 := showSortStatus "Sorting pull requests..." "loading"
                    (updateSortButtonStates sortOrder p) in
        match content with
        | None =>
            (showSortStatus "Error: Extension not loaded on this page. Try refreshing."
                            "error" p1, None)
        | Some s =>
            let (response, s') := handleSortRequest E net sortOrder s in
            if success response then
              let text := if String.eqb (message response) ""
                          then "Sort applied successfully!" else message response in
              (updateCurrentSortDisplay sortOrder (showSortStatus text "success" p1),
               Some (with_stored_order (Some sortOrder) s'))
            else
              let errorMessage :=
                if String.eqb (message response) ""
                then "Error applying sort. Check console for details."
                else message response in
              if includes errorMessage "rate limit"
              then (showSortStatus rate_limit_hint "error" p1, Some s')
              else (showSortStatus errorMessage "error" p1, Some s')
        end
  end.

End PopupScript.

(** What the user does with the token: type a value and save it, or clear
    it. *)
Inductive TokenAction : Type :=
| SaveToken (value : string) (written : bool)
| ClearToken (removed : bool).

Definition token_step (p : Popup) (a : TokenAction) : Popup :=
  match a with
  | SaveToken value written => saveGitHubToken written (with_github_token value p)
  | ClearToken removed => clearGitHubToken removed p
  end.

(** ** The answer the popup shows *)

Definition success_messages : list string :=
  [ "Restored to default order";
    "Sorted by new contributors successfully!";
    "Sorted by existing contributors successfully!" ].

Lemma handleSortRequest_answers (E : SortEngine) (net : Net) order s :
  includes (location_href s) "github.com" = true ->
  includes (location_href s) "/pulls" = true ->
  let response := fst (handleSortRequest E net order s) in
  (success response = true /\ In (message response) success_messages)
  \/ response = mkResponse false ("Error sorting PRs: " ++ rest_abort_message).
Proof.
  intros H1 H2. unfold handleSortRequest. rewrite H1, H2. cbn [negb orb].
  destruct (String.eqb order "default"); [left; split; [reflexivity|now left]|].
  set (s1 := saveSortPreference (with_sortOrder order s)).
  pose proof (fetchPRData_failure E net s1) as Hfail.
  destruct (fetchPRData E net s1) as [[[]|msg] s2].
  - left. split; [reflexivity|]. cbn [fst message].
    destruct (String.eqb order "new-first"); [right; now left|right; right; now left].
  - right. cbn [fst] in *. now rewrite (Hfail msg eq_refl).
Qed.


(** ** The token *)

Lemma skip_spaces_head s :
  skip_spaces s = EmptyString
  \/ exists c rest, skip_spaces s = String c rest /\ is_space c = false.
Proof.
  induction s as [|c rest IH]; cbn [skip_spaces]; [now left|].
  destruct (is_space c) eqn:Hc; [exact IH|right; now exists c, rest].
Qed.

Lemma trim_end_head c rest :
  trim_end (String c rest) = EmptyString
  \/ exists t, trim_end (String c rest) = String c t.
Proof.
  cbn [trim_end]. destruct (trim_end rest) as [|c' t'].
  - destruct (is_space c); [now left|right; now exists EmptyString].
  - right. now exists (String c' t').
Qed.

Lemma trim_end_twice s : trim_end (trim_end s) = trim_end s.
Proof.
  induction s as [|c rest IH]; [reflexivity|].
  cbn [trim_end]. destruct (trim_end rest) as [|c' t'] eqn:Hrest.
  - destruct (is_space c) eqn:Hc; [reflexivity|].
    cbn [trim_end]. now rewrite Hc.
  - change (trim_end (String c (String c' t')))
      with (match trim_end (String c' t') with
            | EmptyString => if is_space c then EmptyString else String c EmptyString
            | t => String c t
            end).
    now rewrite IH.
Qed.

Lemma trim_twice s : trim (trim s) = trim s.
Proof.
  unfold trim.
  destruct (skip_spaces_head s) as [->|(c & rest & -> & Hc)]; [reflexivity|].
  destruct (trim_end_head c rest) as [->|[t Ht]]; [reflexivity|].
  rewrite Ht. cbn [skip_spaces]. rewrite Hc, <- Ht. apply trim_end_twice.
Qed.

(** A stored token is well formed: empty, or a trimmed text that starts with
    one of the two prefixes. *)
Definition token_wellformed (t : option string) : Prop :=
  match t with
  | Some token =>
      token = ""
      \/ (String.prefix "ghp_" token || String.prefix "github_pat_" token = true
          /\ trim token = token)
  | None => True
  end.

(** The popup shows the token the storage holds. *)
Definition shows_token (p : Popup) : Prop :=
  let token := match stored_token p with Some t => t | None => "" end in
  token_status p = (if String.eqb token "" then "Not Set" else "Set (Authenticated)")
  /\ api_mode p = (if String.eqb token "" then "REST API (Limited)"
                   else "GraphQL API (Unlimited)").

Lemma saveGitHubToken_cases written p :
  let token := trim (github_token p) in
  (stored_token (saveGitHubToken written p) = stored_token p
   /\ token_status (saveGitHubToken written p) = token_status p
   /\ api_mode (saveGitHubToken written p) = api_mode p
   /\ sort_status_type (saveGitHubToken written p) = "error")
  \/ (saveGitHubToken written p
      = showSortStatus (if String.eqb token "" then "Token cleared!"
                        else "Token saved successfully!") "success"
          (updateAPIMode token (updateTokenStatus token
             (with_stored_token (Some token) p)))
      /\ written = true
      /\ (token = ""
          \/ String.prefix "ghp_" token || String.prefix "github_pat_" token = true)).
Proof.
  intros token. unfold saveGitHubToken. fold token.
  destruct (String.eqb token "") eqn:Hempty; cbn [negb andb].
  - destruct written; [right|left; repeat split].
    split; [reflexivity|split; [reflexivity|left]]. now apply String.eqb_eq.
  - destruct (String.prefix "ghp_" token) eqn:H1; cbn [negb andb orb].
    + destruct written; [right; repeat split; now right|left; repeat split].
    + destruct (String.prefix "github_pat_" token) eqn:H2; cbn [negb].
      * destruct written; [right; repeat split; now right|left; repeat split].
      * left. repeat split.
Qed.

Lemma token_step_wellformed p a :
  token_wellformed (stored_token p) -> token_wellformed (stored_token (token_step p a)).
Proof.
  intros H. destruct a as [value written|removed]; cbn [token_step].
  - destruct (saveGitHubToken_cases written (with_github_token value p))
      as [(-> & _)|(-> & _ & Hfmt)]; [exact H|].
    cbn [stored_token showSortStatus updateAPIMode updateTokenStatus with_api_mode
         with_token_status with_stored_token token_wellformed github_token
         with_github_token] in *.
    destruct Hfmt as [Hempty|Hprefix]; [now left|right].
    split; [exact Hprefix|apply trim_twice].
  - unfold clearGitHubToken. destruct removed; [exact I|exact H].
Qed.

Lemma token_step_shows p a : shows_token p -> shows_token (token_step p a).
Proof.
  intros H. destruct a as [value written|removed]; cbn [token_step].
  - destruct (saveGitHubToken_cases written (with_github_token value p))
      as [(H1 & H2 & H3 & _)|(-> & _)].
    + unfold shows_token in *. now rewrite H1, H2, H3.
    + split; reflexivity.
  - unfold clearGitHubToken. destruct removed; [split; reflexivity|exact H].
Qed.

Lemma loadCurrentSettings_shows inherited storedOrder p :
  shows_token (loadCurrentSettings inherited true storedOrder p).
Proof.
  unfold loadCurrentSettings, shows_token.
  destruct (String.eqb (match stored_token p with Some t => t | None => "" end) "");
    split; reflexivity.
Qed.

Lemma loadSettings_token storedToken s :
  storage_available s = true ->
  githubToken (loadSettings storedToken (constructor s))
  = match storedToken with
    | Some t => if String.eqb t "" then None else Some t
    | None => None
    end.
Proof.
  intros Hst. unfold loadSettings.
  change (storage_available (constructor s)) with (storage_available s).
  change (stored_order (constructor s)) with (stored_order s).
  change (stored_cache (constructor s)) with (stored_cache s).
  rewrite Hst.
  destruct (stored_cache s);
    (destruct storedToken as [t|]; [destruct (String.eqb t "")|]);
    (destruct (stored_order s) as [o|]; [destruct (String.eqb o "")|]); reflexivity.
Qed.

(** X16. Whatever the user saves and clears, a well-formed stored token
    stays well formed: it is empty, or it starts with [ghp_] or
    [github_pat_] and has no white space around it.  A content script that
    then loads its settings has no credential or one of that form. *)
Theorem token_format_kept (actions : list TokenAction) (p : Popup) (s : State) :
  token_wellformed (stored_token p) ->
  let p' := fold_left token_step actions p in
  token_wellformed (stored_token p')
  /\ match githubToken (loadSettings (stored_token p') (constructor s)) with
     | Some token =>
         String.prefix "ghp_" token || String.prefix "github_pat_" token = true
         /\ trim token = token
     | None => True
     end.
Proof.
  intros H p'.
  assert (Hwf : token_wellformed (stored_token p')).
  { subst p'. revert p H. induction actions as [|a rest IH]; intros p H; [exact H|].
    cbn [fold_left]. apply IH. now apply token_step_wellformed. }
  split; [exact Hwf|].
  destruct (storage_available s) eqn:Hst.
  - rewrite (loadSettings_token _ s Hst).
    destruct (stored_token p') as [t|]; [|exact I].
    destruct (String.eqb t "") eqn:Ht; [exact I|].
    destruct Hwf as [->|Hfmt]; [discriminate Ht|exact Hfmt].
  - unfold loadSettings.
    change (storage_available (constructor s)) with (storage_available s).
    rewrite Hst. exact I.
Qed.

(** A popup before its script has run, on a storage without token. *)
Definition blank_popup : Popup :=
  mkPopup "" "" "" "btn secondary" "btn secondary" "btn secondary" "" "" "" None.

Lemma token_format_kept_witness :
  token_wellformed (stored_token blank_popup)
  /\ token_wellformed
       (stored_token (fold_left token_step
                        [ SaveToken "  ghp_0123456789 " true;
                          SaveToken "0123456789" true;
                          SaveToken "github_pat_11AA" false ] blank_popup)).
Proof.
  split; [exact I|].
  exact (proj1 (token_format_kept
                  [ SaveToken "  ghp_0123456789 " true;
                    SaveToken "0123456789" true;
                    SaveToken "github_pat_11AA" false ]
                  blank_popup anonymous_session I)).
Defined.

(** X17. From the moment the popup has loaded its settings, and whatever
    the user then saves and clears, the popup shows the token the storage
    holds: the status reads that a token is set, and the mode reads GraphQL,
    exactly when the stored token is not empty, which is exactly when a
    content script that loads its settings has a credential. *)
Theorem token_display_agrees (inherited : string -> option string)
        (storedOrder : option string) (actions : list TokenAction)
        (p : Popup) (s : State) :
  let p' := fold_left token_step actions
              (loadCurrentSettings inherited true storedOrder p) in
  let loaded := loadSettings (stored_token p') (constructor s) in
  shows_token p'
  /\ (storage_available s = true ->
      token_status p' = (if authenticated loaded then "Set (Authenticated)"
                         else "Not Set")
      /\ api_mode p' = (if authenticated loaded then "GraphQL API (Unlimited)"
                        else "REST API (Limited)")
      /\ maxPRs loaded = (if authenticated loaded then 50 else 10)%nat).
Proof.
  intros p' loaded.
  assert (Hshows : shows_token p').
  { subst p'. generalize (loadCurrentSettings_shows inherited storedOrder p).
    generalize (loadCurrentSettings inherited true storedOrder p).
    induction actions as [|a rest IH]; intros q Hq; [exact Hq|].
    cbn [fold_left]. apply IH. now apply token_step_shows. }
  split; [exact Hshows|]. intros Hst.
  assert (Hauth : authenticated loaded
                  = negb (String.eqb (match stored_token p' with
                                      | Some t => t | None => "" end) "")).
  { unfold authenticated, loaded. rewrite (loadSettings_token _ s Hst).
    destruct (stored_token p') as [t|]; [|reflexivity].
    destruct (String.eqb t "") eqn:Ht; [reflexivity|now rewrite Ht]. }
  destruct Hshows as [H1 H2]. rewrite H1, H2, Hauth.
  unfold maxPRs. rewrite Hauth.
  destruct (String.eqb (match stored_token p' with Some t => t | None => "" end) "");
    repeat split.
Qed.

(** ** Reading the number of a link *)

Lemma prefix_append (p s : string) :
  String.prefix p s = true -> exists t, s = (p ++ t)%string.
Proof.
  revert s. induction p as [|a p IH]; intros s H; [now exists s|].
  destruct s as [|c s]; [discriminate H|].
  cbn [String.prefix] in H. destruct (ascii_dec a c) as [->|]; [|discriminate H].
  destruct (IH s H) as [t ->]. now exists t.
Qed.

Lemma prefix_of_append (p R : string) : String.prefix p (p ++ R) = true.
Proof.
  induction p as [|a p IH]; [now destruct R|].
  cbn [append String.prefix]. destruct (ascii_dec a a); [exact IH|congruence].
Qed.

Lemma substring_all (s : string) : String.substring 0 (String.length s) s = s.
Proof. induction s as [|c s IH]; cbn; [reflexivity|now rewrite IH]. Qed.

Lemma drop_pull (R : string) :
  String.substring 6 (String.length ("/pull/" ++ R) - 6) ("/pull/" ++ R) = R.
Proof.
  cbn [append String.length Nat.sub String.substring].
  rewrite Nat.sub_0_r. apply substring_all.
Qed.

Lemma match_pull_here (R : string) :
  match_pull ("/pull/" ++ R)
  = match take_digits R with
    | EmptyString => match_pull ("pull/" ++ R)
    | digits => Some digits
    end.
Proof.
  change ("/pull/" ++ R)%string with (String "/" ("pull/" ++ R)) at 1.
  cbn [match_pull].
  change (String "/" ("pull/" ++ R)) with ("/pull/" ++ R)%string.
  rewrite drop_pull.
  now rewrite prefix_of_append.
Qed.

Lemma take_digits_append (s X : string) :
  take_digits s = "" -> take_digits X = "" -> take_digits (s ++ X) = "".
Proof.
  destruct s as [|c s]; intros Hs HX; [exact HX|].
  cbn [append take_digits] in *. destruct (is_digit c); [discriminate Hs|reflexivity].
Qed.

(** What precedes a link's [/pull/] does not matter when it holds no match
    of its own. *)
Lemma match_pull_append (base X' : string) :
  match_pull base = None ->
  match_pull (base ++ String "/" (String "p" X'))
  = match_pull (String "/" (String "p" X')).
Proof.
  set (X := String "/" (String "p" X')).
  induction base as [|c b IH]; intros Hnone; [reflexivity|].
  assert (Hb : match_pull b = None).
  { cbn [match_pull] in Hnone.
    destruct (String.prefix "/pull/" (String c b)); [|exact Hnone].
    destruct (take_digits _); [exact Hnone|discriminate Hnone]. }
  change (String c b ++ X)%string with (String c (b ++ X)).
  cbn [match_pull]. rewrite (IH Hb).
  destruct (String.prefix "/pull/" (String c (b ++ X))) eqn:Hp; [|reflexivity].
  apply prefix_append in Hp as [t Ht].
  assert (Hdigits : take_digits t = "").
  { destruct b as [|c1 [|c2 [|c3 [|c4 [|c5 b']]]]];
      unfold X in Ht; cbn [append] in Ht; try congruence.
    - assert (Ht' : t = String "p" X') by congruence. now rewrite Ht'.
    - assert (Hbase : String c (String c1 (String c2 (String c3 (String c4
                        (String c5 b'))))) = ("/pull/" ++ b')%string) by (cbn [append]; congruence).
      assert (Ht' : t = (b' ++ X)%string) by (unfold X; congruence).
      rewrite Hbase, match_pull_here in Hnone. rewrite Ht'.
      apply take_digits_append; [|reflexivity].
      destruct (take_digits b'); [reflexivity|discriminate Hnone]. }
  rewrite Ht, drop_pull, Hdigits. reflexivity.
Qed.

Lemma take_digits_uint (d : uint) (tail : string) :
  take_digits tail = "" ->
  take_digits (NilEmpty.string_of_uint d ++ tail) = NilEmpty.string_of_uint d.
Proof.
  intros Htail. induction d; cbn [NilEmpty.string_of_uint append take_digits];
    [exact Htail|..]; cbn [is_digit digit_of]; now rewrite IHd.
Qed.

(** The largest integer up to which every integer is a number of the host
    language, is printed by [toString] digit by digit and is read back by
    [parseInt] as itself ([Number.MAX_SAFE_INTEGER]). *)
Definition max_safe_integer : Z := 2 ^ 53 - 1.

(** X18. For a number from 0 to [max_safe_integer], a link that holds no
    match of [/pull/<digits>] before the one for its pull request, and no
    digit right after the number, is read as that number: what [toString]
    prints, [extractPRNumber] reads back. *)
Theorem link_number_round_trip (base tail : string) (n : Z) :
  0 <= n <= max_safe_integer ->
  match_pull base = None ->
  take_digits tail = "" ->
  extractPRNumber (Some (base ++ "/pull/" ++ toString n ++ tail)%string) = Some n.
Proof.
  intros [Hn _] Hbase Htail. unfold extractPRNumber.
  assert (Hne : String.eqb (base ++ "/pull/" ++ toString n ++ tail)%string "" = false)
    by (destruct base; reflexivity).
  rewrite Hne.
  change ("/pull/" ++ toString n ++ tail)%string
    with (String "/" (String "p" ("ull/" ++ toString n ++ tail))).
  rewrite (match_pull_append base _ Hbase).
  change (String "/" (String "p" ("ull/" ++ toString n ++ tail)))
    with ("/pull/" ++ (toString n ++ tail))%string.
  rewrite match_pull_here.
  assert (Hdigits : take_digits (toString n ++ tail) = toString n).
  { unfold toString. destruct (Z.ltb_spec n 0); [lia|].
    now apply take_digits_uint. }
  rewrite Hdigits.
  pose proof (toString_not_empty n Hn) as Hnot.
  destruct (toString n) as [|c rest] eqn:Hs; [congruence|].
  rewrite <- Hs. now apply parseInt_toString.
Qed.

Lemma link_number_round_trip_witness :
  0 <= 1347 <= max_safe_integer /\ match_pull "https://github.com/octo/repo" = None
  /\ take_digits "/files#diff" = ""
  /\ extractPRNumber (Some "https://github.com/octo/repo/pull/1347/files#diff")
     = Some 1347.
Proof.
  assert (Hn : 0 <= 1347 <= max_safe_integer) by (unfold max_safe_integer; lia).
  assert (Hbase : match_pull "https://github.com/octo/repo" = None)
    by (vm_compute; reflexivity).
  assert (Htail : take_digits "/files#diff" = "") by reflexivity.
  split; [exact Hn|split; [exact Hbase|split; [exact Htail|]]].
  exact (link_number_round_trip "https://github.com/octo/repo" "/files#diff" 1347
           Hn Hbase Htail).
Defined.

(** ** The rows of the listing *)

(** X19. A sort request never drops, repeats or alters a row: whatever the
    order asked for and whatever the network answers, the rows of the listing
    afterwards are the rows from before, stamp and badge apart, in some order,
    and the anchors around the listing are untouched. *)
Theorem rows_kept (E : SortEngine) (net : Net) (order : string) (s : State) :
  let s' := snd (handleSortRequest E net order s) in
  Permutation (map item (listing s')) (map item (listing s))
  /\ links_before (page s') = links_before (page s)
  /\ links_after (page s') = links_after (page s).
Proof.
  unfold handleSortRequest.
  destruct (negb (includes (location_href s) "github.com")
            || negb (includes (location_href s) "/pulls")); [now repeat split|].
  set (s1 := saveSortPreference (with_sortOrder order s)).
  assert (H1 : page s1 = page s).
  { unfold s1, saveSortPreference.
    destruct (storage_available (with_sortOrder order s)); reflexivity. }
  destruct (String.eqb order "default").
  - cbn [snd]. rewrite restoreDefaultOrder_listing.
    rewrite (listing_same_page s s1 H1). split.
    + apply Permutation_map, js_sort_permutation.
    + unfold restoreDefaultOrder. rewrite H1.
      destruct (container (page s)); [|now rewrite H1].
      unfold set_rows. cbn [page with_page links_before links_after].
      now rewrite H1.
  - pose proof (fetchPRData_settings E net s1) as Hset.
    destruct (fetchPRData E net s1) as [[[]|msg] s2]; cbn [snd] in *;
      apply settings_fields in Hset as (_ & _ & _ & H2 & _).
    + assert (Hp : page s = page s2) by congruence.
      rewrite (listing_same_page s2 s Hp), Hp.
      destruct (container (page s2)) as [c|] eqn:Hc.
      * split.
        -- rewrite (applySorting_listing E s2 c Hc), add_badge_items.
           unfold listing. rewrite Hc, <- rows_to_sort_items.
           apply Permutation_map, js_sort_permutation.
        -- unfold applySorting. rewrite Hc. destruct (rows c); [now split|].
           unfold set_rows. cbn [page with_page links_before links_after].
           now split.
      * unfold applySorting. rewrite Hc. now repeat split.
    + unfold listing. cbn [page log with_console]. rewrite H2, H1.
      now repeat split.
Qed.

(** ** The clock and the cache *)

(** No entry of the cache is stamped later than the clock reads. *)
Definition no_future (s : State) : Prop :=
  forall k e, In (k, e) (cache s) -> timestamp e <= clock s.

(** The clock does not step back while a request is pending: what
    [Date.now()] reads when the answer arrives is never earlier than what it
    read when the request left.  In the embedding this is all that can set
    the clock back: the clock moves only while a request is pending, by
    [latency], and during the pause of [fetchPRDataREST], by 500. *)
Definition steady_clock (net : Net) : Prop := forall n, 0 <= latency net n.

(** The clock has not gone back, and no entry is ahead of it if none was. *)
Definition later (s s' : State) : Prop :=
  clock s <= clock s' /\ (no_future s -> no_future s').

Lemma later_refl s : later s s.
Proof. split; [lia|auto]. Qed.

Lemma later_trans s1 s2 s3 : later s1 s2 -> later s2 s3 -> later s1 s3.
Proof. intros [H1 F1] [H2 F2]. split; [lia|auto]. Qed.

Lemma later_step s s' :
  clock s <= clock s' -> incl (cache s') (cache s) -> later s s'.
Proof.
  intros Hc Hi. split; [exact Hc|].
  intros Hf k e Hin. apply Hi, Hf in Hin. lia.
Qed.

Section Clock.
Variable E : SortEngine.
Variable net : Net.
Hypothesis on_time : steady_clock net.

Lemma save_later s : later s (saveCacheToStorage E s).
Proof. apply later_step; [rewrite save_clock_eq; lia|apply save_incl]. Qed.

Lemma getFromCache_later k s : later s (snd (getFromCache E k s)).
Proof.
  unfold getFromCache. destruct (JsMap.get k (cache s)) as [e|]; [|apply later_refl].
  destruct (clock s - timestamp e <? cacheExpiry); [apply later_refl|].
  cbn [snd]. eapply later_trans; [|apply save_later].
  apply later_step; [cbn; lia|]. cbn [cache with_cache].
  unfold JsMap.delete. apply incl_filter.
Qed.

Lemma setCache_later k d s : later s (setCache E k d s).
Proof.
  unfold setCache. eapply later_trans; [|apply save_later].
  split; [cbn; lia|]. intros Hf k' e Hin. cbn [cache with_cache clock] in *.
  apply set_In in Hin as [Heq|Hin]; [|now apply (Hf k')].
  injection Heq as _ ->. cbn [timestamp]. lia.
Qed.

Lemma pause_later s : later s (pause s).
Proof.
  unfold pause. destruct (authenticated s); [apply later_refl|].
  split; [cbn; lia|]. intros Hf k e Hin. cbn [cache with_clock clock] in *.
  apply Hf in Hin. lia.
Qed.

Lemma send_later q s : later s (send net q s).
Proof.
  pose proof (on_time (length (requests s))) as Hl.
  split; [cbn; lia|]. intros Hf k e Hin. cbn in *. apply Hf in Hin. lia.
Qed.

Lemma clearExpiredCache_later s : later s (clearExpiredCache E s).
Proof.
  destruct (clearExpiredCache_cases E s) as [[-> _]| ->]; [apply later_refl|].
  eapply later_trans; [|apply save_later].
  apply later_step; [cbn; lia|]. cbn [cache with_cache]. apply incl_filter.
Qed.

Lemma record_later m s : later s (with_prData m s).
Proof. apply later_step; [cbn; lia|apply incl_refl]. Qed.

Lemma log_later line s : later s (log line s).
Proof. apply later_step; [cbn; lia|apply incl_refl]. Qed.

Lemma fetchPRDataREST_later prNumbers :
  forall s, later s (snd (fetchPRDataREST E net prNumbers s)).
Proof.
  induction prNumbers as [|k rest IH]; intros s; [apply later_refl|].
  cbn [fetchPRDataREST].
  pose proof (getFromCache_later k s) as H1.
  destruct (getFromCache E k s) as [cached s1]. cbn [snd] in H1.
  destruct cached as [d|].
  - eapply later_trans; [exact H1|].
    eapply later_trans; [apply record_later|apply IH].
  - pose proof (fetchPRDetails_state net k s1) as H2.
    destruct (fetchPRDetails net k s1) as [fetched s2]. cbn [snd] in H2. subst s2.
    assert (H2 : later s (send net (RestGet k) s1))
      by (eapply later_trans; [exact H1|apply send_later]).
    destruct fetched as [d|msg].
    + eapply later_trans; [exact H2|].
      eapply later_trans; [apply record_later|].
      eapply later_trans; [apply setCache_later|].
      eapply later_trans; [apply pause_later|apply IH].
    + destruct (includes msg "403"); cbn [snd].
      * eapply later_trans; [exact H2|].
        eapply later_trans; apply log_later.
      * eapply later_trans; [exact H2|].
        eapply later_trans; [apply log_later|apply IH].
Qed.

Lemma commit_nodes_later nodes prNumbers :
  forall index s, later s (commit_nodes E prNumbers index nodes s).
Proof.
  induction prNumbers as [|k rest IH]; intros index s; [apply later_refl|].
  cbn [commit_nodes]. eapply later_trans; [|apply IH].
  destruct (nth index nodes None); [|apply later_refl].
  eapply later_trans; [apply record_later|apply setCache_later].
Qed.

Lemma fetchPRDataGraphQL_later prNumbers s :
  later s (snd (fetchPRDataGraphQL E net prNumbers s)).
Proof.
  destruct (fetchPRDataGraphQL_state E net prNumbers s) as [-> | [nodes ->]].
  - apply send_later.
  - eapply later_trans; [apply send_later|apply commit_nodes_later].
Qed.

Lemma load_cached_later prNumbers :
  forall s, later s (load_cached E prNumbers s).
Proof.
  induction prNumbers as [|k rest IH]; intros s; [apply later_refl|].
  cbn [load_cached]. destruct (JsMap.has k (prData s)); [apply IH|].
  pose proof (getFromCache_later k s) as H1.
  destruct (getFromCache E k s) as [cached s1]. cbn [snd] in H1.
  destruct cached as [d|].
  - eapply later_trans; [exact H1|].
    eapply later_trans; [apply record_later|apply IH].
  - eapply later_trans; [exact H1|apply IH].
Qed.

Lemma fetchPRData_later s : later s (snd (fetchPRData E net s)).
Proof.
  unfold fetchPRData.
  set (s0 := clearExpiredCache E s).
  set (s1 := load_cached E (allPRNumbers s0) s0).
  assert (H1 : later s s1)
    by (eapply later_trans; [apply clearExpiredCache_later|apply load_cached_later]).
  destruct (filter (fun num => negb (JsMap.has num (prData s1))) (allPRNumbers s0))
    as [|k rest]; [exact H1|].
  destruct (authenticated s1 && (3 <? length (k :: rest))%nat).
  - pose proof (fetchPRDataGraphQL_later (k :: rest) s1) as H2.
    destruct (fetchPRDataGraphQL E net (k :: rest) s1) as [[[]|msg] s2];
      cbn [snd] in H2.
    + eapply later_trans; [exact H1|exact H2].
    + eapply later_trans; [exact H1|].
      eapply later_trans; [exact H2|].
      eapply later_trans; [apply log_later|apply fetchPRDataREST_later].
  - eapply later_trans; [exact H1|apply fetchPRDataREST_later].
Qed.

Lemma handleSortRequest_later order s :
  later s (snd (handleSortRequest E net order s)).
Proof.
  unfold handleSortRequest.
  destruct (negb (includes (location_href s) "github.com")
            || negb (includes (location_href s) "/pulls")); [apply later_refl|].
  set (s1 := saveSortPreference (with_sortOrder order s)).
  assert (H1 : later s s1).
  { unfold s1, saveSortPreference.
    destruct (storage_available (with_sortOrder order s));
      (apply later_step; [cbn; lia|apply incl_refl]). }
  destruct (String.eqb order "default").
  - cbn [snd]. destruct (restoreDefaultOrder_page_only E s1) as [d ->].
    eapply later_trans; [exact H1|].
    apply later_step; [cbn; lia|apply incl_refl].
  - pose proof (fetchPRData_later s1) as H2.
    destruct (fetchPRData E net s1) as [[[]|msg] s2]; cbn [snd] in *.
    + destruct (applySorting_page_only E s2) as [d ->].
      eapply later_trans; [exact H1|]. eapply later_trans; [exact H2|].
      apply later_step; [cbn; lia|apply incl_refl].
    + eapply later_trans; [exact H1|]. eapply later_trans; [exact H2|].
      apply log_later.
Qed.

End Clock.



(** The hypothesis is needed.  On a network during whose first request the
    clock is set back by an hour, an entry stamped at the time of the request
    is ahead of the clock afterwards. *)
Definition set_back_net : Net :=
  mkNet (rest_reply healthy_net) (graphql_reply healthy_net)
        (fun n => match n with O => - 3600000 | S _ => 120 end).

Lemma entry_ahead_after_set_back :
  let s := with_page (mkDocument ["https://github.com/octo/repo/pull/9"] None [])
                     warm_session in
  let s' := snd (handleSortRequest insertion_engine set_back_net "new-first" s) in
  Forall (fun e => timestamp (snd e) <= clock s) (cache s)
  /\ clock s' = 5000 - 3600000 + 500
  /\ JsMap.get 1 (cache s')
     = Some (mkCacheEntry (sample_record 1 "MEMBER") 4000).
Proof.
  vm_compute. split; [|split; reflexivity].
  repeat constructor; discriminate.
Qed.

(** ** Instances *)

(** The session of five cached pull requests, read long after the entries
    have reached the 30 minutes. *)
Definition stale_session : State := with_clock 99999999 warm_session.

Lemma sweep_leaves_fresh_witness :
  (JsMap.size (cache stale_session) <= 200)%nat
  /\ cache (clearExpiredCache insertion_engine stale_session) = [].
Proof.
  assert (Hsize : (JsMap.size (cache stale_session) <= 200)%nat)
    by (vm_compute; lia).
  split; [exact Hsize|].
  pose proof (sweep_leaves_fresh insertion_engine stale_session) as H.
  cbv zeta in H. destruct H as (_ & H & _).
  rewrite (H (or_introl Hsize)). reflexivity.
Defined.

Lemma cache_read_sound_witness :
  fst (getFromCache insertion_engine 3 stale_session) = None
  /\ JsMap.get 3 (cache (snd (getFromCache insertion_engine 3 stale_session))) = None.
Proof.
  assert (H0 : fst (getFromCache insertion_engine 3 stale_session) = None)
    by (vm_compute; reflexivity).
  split; [exact H0|].
  pose proof (cache_read_sound insertion_engine 3 stale_session) as H.
  cbv zeta in H. destruct H as (_ & H & _). exact (H H0).
Defined.

Lemma requests_bounded_witness :
  authenticated anonymous_session = false
  /\ (length (requests (snd (fetchPRData insertion_engine healthy_net
                               anonymous_session))) <= 10)%nat.
Proof.
  split; [reflexivity|].
  destruct (requests_bounded insertion_engine healthy_net anonymous_session)
    as (sent & Hreq & _ & _ & H).
  rewrite Hreq. destruct (H eq_refl) as [Hlen _]. exact Hlen.
Defined.

Lemma token_display_agrees_witness :
  storage_available anonymous_session = true
  /\ token_status
       (fold_left token_step
          [ SaveToken "ghp_0123456789" true; ClearToken false ]
          (loadCurrentSettings (fun _ => None) true None blank_popup))
     = "Set (Authenticated)".
Proof.
  split; [reflexivity|].
  pose proof (token_display_agrees (fun _ => None) None
                [ SaveToken "ghp_0123456789" true; ClearToken false ]
                blank_popup anonymous_session) as H.
  cbv zeta in H. destruct H as (_ & H). destruct (H eq_refl) as (H1 & _).
  exact (eq_trans H1 eq_refl).
Defined.
